(** * dns-monitor: a shallow embedding of [main.go] and its specification

    The development follows the program: Go strings are byte sequences
    ([list ascii]), [int] and [time.Duration] are [Z], a [time.Time] is an
    instant (seconds and nanoseconds since the Unix epoch) with the offset
    that its location has in force at that instant, a [*time.Location] is
    its lookup of the offset in force, the file system is a store of files
    and directories, and the resolver is the record of the five lookups
    that [performDNSCheck] uses.

    Part I holds the definitions (Go library functions first, then the
    functions of [main.go]); Part II holds the lemmas and the theorems. *)

From Stdlib Require Import Ascii String ZArith List Bool Lia Arith.
Import ListNotations.

Local Open Scope Z_scope.

(** A lemma of a section depends on the section variables of its
    statement only. *)
Set Default Proof Using "Type".

(* ===================================================================== *)
(** * Part I. Definitions *)
(* ===================================================================== *)

(** ** Go strings *)

(** A Go [string] is an immutable sequence of bytes. *)
Definition gostring := list ascii.

(** String literals of the program are written [str "..."]. *)
Definition str (s : string) : gostring := list_ascii_of_string s.

Definition byteval (c : ascii) : Z := Z.of_N (N_of_ascii c).

Fixpoint streq (a b : gostring) : bool :=
  match a, b with
  | [], [] => true
  | x :: a', y :: b' => Ascii.eqb x y && streq a' b'
  | _, _ => false
  end.

Module strings.

(** [strings.HasPrefix(s, prefix)]. *)
Fixpoint HasPrefix (s prefix : gostring) : bool :=
  match prefix, s with
  | [], _ => true
  | p :: prefix', c :: s' => Ascii.eqb c p && HasPrefix s' prefix'
  | _ :: _, [] => false
  end.

(** [strings.Index(s, substr)]: the byte index of the first occurrence of
    [substr] in [s], or [-1]. *)
Fixpoint Index (s substr : gostring) : Z :=
  if HasPrefix s substr then 0
  else match s with
       | [] => -1
       | _ :: s' => let i := Index s' substr in
                    if i <? 0 then -1 else i + 1
       end.

(** [strings.Contains(s, substr)] is [Index(s, substr) >= 0]. *)
Definition Contains (s substr : gostring) : bool := 0 <=? Index s substr.

(** The ASCII fast path of [strings.ToLower]: ['A'..'Z'] gets ['a' - 'A']
    added, every other byte is kept. *)
Definition isUpperByte (c : ascii) : bool :=
  (65 <=? byteval c) && (byteval c <=? 90).

Definition lowerByte (c : ascii) : ascii :=
  if isUpperByte c then ascii_of_N (N_of_ascii c + 32) else c.

(** [c >= utf8.RuneSelf] is false for every byte of the string. *)
Definition isASCII (s : gostring) : bool :=
  forallb (fun c => byteval c <? 128) s.

Definition hasUpper (s : gostring) : bool := existsb isUpperByte s.

(** [strings.ToLower(s)].  A string of ASCII bytes is lowered byte by byte
    (and returned as it is when it has no upper-case letter); a string with
    a byte [>= 0x80] goes through [strings.Map(unicode.ToLower, s)], whose
    Unicode tables belong to the Go library: that path is the parameter
    [mapUnicodeLower]. *)
Definition ToLower (mapUnicodeLower : gostring -> gostring) (s : gostring)
  : gostring :=
  if isASCII s then
    if hasUpper s then map lowerByte s else s
  else mapUnicodeLower s.

(** [strings.Join(elems, sep)]. *)
Fixpoint Join (elems : list gostring) (sep : gostring) : gostring :=
  match elems with
  | [] => []
  | [e] => e
  | e :: rest => e ++ sep ++ Join rest sep
  end.

(** [strings.Split(s, sep)] for a non-empty [sep]: [s] is cut at the
    leftmost occurrences of [sep], which do not overlap.  [cur] is the
    piece being read (reversed) and [skip] counts the bytes of a separator
    still to be dropped.  With an empty [sep] Go explodes [s] into its
    UTF-8 sequences; the program never does that, and the model explodes
    [s] into its bytes. *)
Fixpoint splitFrom (sep cur s : gostring) (skip : nat) : list gostring :=
  match s with
  | [] => [rev cur]
  | c :: s' =>
      match skip with
      | S k => splitFrom sep cur s' k
      | O => if HasPrefix s sep
             then rev cur :: splitFrom sep [] s' (Nat.pred (length sep))
             else splitFrom sep (c :: cur) s' O
      end
  end.

Definition Split (s sep : gostring) : list gostring :=
  match sep with
  | [] => map (fun c => [c]) s
  | _ => splitFrom sep [] s O
  end.

End strings.

(** ** Go time *)

Module time.

(** A [time.Time]: the instant ([unixSec] seconds and [nsec] nanoseconds
    after the Unix epoch, [0 <= nsec < 10^9]) and the offset, in seconds
    east of UTC, that its location has in force at that instant.  The
    location itself is needed only where a time is built from a reading of
    the wall clock ([Date]), and is given there. *)
Record Time := mkTime { unixSec : Z; nsec : Z; zoneOffset : Z }.

(** A [*time.Location] is used through [loc.lookup(sec)]: the offset in
    force at the instant [sec], and the instants [start <= sec < end]
    between which that offset is in force. *)
Record Location := mkLocation { lookup : Z -> Z * Z * Z }.

Definition offsetAt (loc : Location) (sec : Z) : Z := fst (fst (lookup loc sec)).

(** The bounds [alpha] and [omega] of the time line, [time.UTC], and
    [time.FixedZone(name, offset)]: one offset, in force for ever. *)
Definition alpha : Z := -9223372036854775808.
Definition omega : Z := 9223372036854775807.

Definition UTC : Location := mkLocation (fun _ => (0, alpha, omega)).

Definition FixedZone (offset : Z) : Location :=
  mkLocation (fun _ => (offset, alpha, omega)).

(** [t] is a time of the location [loc], as [time.Now()] is a time of
    [time.Local]. *)
Definition inLocation (loc : Location) (t : Time) : Prop :=
  zoneOffset t = offsetAt loc (unixSec t).

(** [t.After(u)] compares instants. *)
Definition After (t u : Time) : bool :=
  (unixSec u <? unixSec t)
  || ((unixSec t =? unixSec u) && (nsec u <? nsec t)).

(** [isLeap(year)], with Go's truncated [%]. *)
Definition isLeap (year : Z) : bool :=
  (Z.rem year 4 =? 0)
  && (negb (Z.rem year 100 =? 0) || (Z.rem year 400 =? 0)).

(** [daysIn(m, year)]: the table [daysBefore[m] - daysBefore[m-1]], and 29
    for February of a leap year. *)
Definition daysIn (m year : Z) : Z :=
  if (m =? 2) && isLeap year then 29
  else match m with
       | 1 => 31 | 2 => 28 | 3 => 31 | 4 => 30 | 5 => 31 | 6 => 30
       | 7 => 31 | 8 => 31 | 9 => 30 | 10 => 31 | 11 => 30 | 12 => 31
       | _ => 0
       end.

(** The proleptic Gregorian calendar of the library: the number of days
    from 1970-01-01 to the civil date, and back.  Years are counted from
    March in 400-year eras of 146097 days. *)
Definition daysFromCivil (y m d : Z) : Z :=
  let y' := if m <=? 2 then y - 1 else y in
  let era := y' / 400 in
  let yoe := y' mod 400 in
  let mp := if 2 <? m then m - 3 else m + 9 in
  let doy := (153 * mp + 2) / 5 + d - 1 in
  let doe := yoe * 365 + yoe / 4 - yoe / 100 + doy in
  era * 146097 + doe - 719468.

Definition civilFromDays (z : Z) : Z * Z * Z :=
  let z' := z + 719468 in
  let era := z' / 146097 in
  let doe := z' mod 146097 in
  let yoe := (doe - doe / 1460 + doe / 36524 - doe / 146096) / 365 in
  let doy := doe - (365 * yoe + yoe / 4 - yoe / 100) in
  let mp := (5 * doy + 2) / 153 in
  let d := doy - (153 * mp + 2) / 5 + 1 in
  let m := if mp <? 10 then mp + 3 else mp - 9 in
  (if m <=? 2 then yoe + era * 400 + 1 else yoe + era * 400, m, d).

(** The last step of [Date]: [unix] is the reading of the wall clock of
    [loc], in seconds, and is brought to UTC.  The offset is looked up at
    [unix] itself; when the instant that it gives is outside the period in
    which that offset is in force, the offset is looked up again, at that
    instant.  An offset of zero is taken as it is. *)
Definition zoneAdjust (loc : Location) (unix : Z) : Z :=
  let '(offset, start, end_) := lookup loc unix in
  if offset =? 0 then unix
  else
    let utc := unix - offset in
    let offset :=
      if (utc <? start) || (end_ <=? utc) then offsetAt loc utc else offset in
    unix - offset.

(** [time.Date(year, month, day, hour, min, sec, nsec, loc)]: the fields
    may be out of range; they are normalised ([norm], which floors) from
    the nanoseconds up to the day, the month into the year, and the day
    count is linear in the day.  The result is a time of [loc]. *)
Definition Date (year month day hour min sec ns : Z) (loc : Location) : Time :=
  let m0 := month - 1 in
  let year := year + m0 / 12 in
  let month := m0 mod 12 + 1 in
  let sec := sec + ns / 1000000000 in
  let ns := ns mod 1000000000 in
  let min := min + sec / 60 in
  let sec := sec mod 60 in
  let hour := hour + min / 60 in
  let min := min mod 60 in
  let day := day + hour / 24 in
  let hour := hour mod 24 in
  let days := daysFromCivil year month 1 + (day - 1) in
  let unix := zoneAdjust loc (days * 86400 + hour * 3600 + min * 60 + sec) in
  mkTime unix ns (offsetAt loc unix).

(** The seconds since the epoch on the wall clock of the location. *)
Definition localSec (t : Time) : Z := unixSec t + zoneOffset t.

(** [t.Date()] and [t.Clock()]. *)
Definition DateOf (t : Time) : Z * Z * Z :=
  civilFromDays (localSec t / 86400).

Definition Clock (t : Time) : Z * Z * Z :=
  let sod := localSec t mod 86400 in
  (sod / 3600, (sod mod 3600) / 60, sod mod 60).

(** [t.AddDate(years, months, days)]: the date and the clock of [t], the
    date moved, then [Date] in [t.Location()], which is [loc]. *)
Definition AddDate (loc : Location) (t : Time) (years months days : Z) : Time :=
  let '(year, month, day) := DateOf t in
  let '(hour, min, sec) := Clock t in
  Date (year + years) (month + months) (day + days) hour min sec
       (nsec t) loc.

(** [appendInt(b, x, width)]: the decimal digits of [x], padded with
    zeros to [width], after a minus sign when [x < 0]. *)
Definition digitChar (d : Z) : ascii := ascii_of_N (48 + Z.to_N d).

Fixpoint utoa (fuel : nat) (u : Z) : gostring :=
  match fuel with
  | O => []
  | S f => (if u <? 10 then [] else utoa f (u / 10)) ++ [digitChar (u mod 10)]
  end.

Definition appendInt (x width : Z) : gostring :=
  let u := Z.abs x in
  let ds := utoa (S (Z.to_nat (Z.log2 u))) u in
  (if x <? 0 then str "-" else [])
    ++ repeat "0"%char (Z.to_nat (width - Z.of_nat (length ds))) ++ ds.

(** [t.Format(time.RFC3339)], layout ["2006-01-02T15:04:05Z07:00"]:
    no fraction of a second is written; the zone is [Z] for offset 0 and
    [+hh:mm] or [-hh:mm] otherwise, the offset truncated to minutes. *)
Definition FormatRFC3339 (t : Time) : gostring :=
  let '(year, month, day) := DateOf t in
  let '(hour, min, sec) := Clock t in
  let offset := zoneOffset t in
  appendInt year 4 ++ str "-" ++ appendInt month 2 ++ str "-"
    ++ appendInt day 2 ++ str "T"
    ++ appendInt hour 2 ++ str ":" ++ appendInt min 2 ++ str ":"
    ++ appendInt sec 2
    ++ (if offset =? 0 then str "Z"
        else
          let zone := Z.quot offset 60 in
          (if zone <? 0 then str "-" else str "+")
            ++ appendInt (Z.abs zone / 60) 2 ++ str ":"
            ++ appendInt (Z.abs zone mod 60) 2).

(** [s[i:j]] and the digit test of the parser. *)
Definition slice (s : gostring) (i j : nat) : gostring :=
  firstn (j - i) (skipn i s).

Definition byteAt (s : gostring) (i : nat) : ascii := nth i s zero.

Definition isDigitByte (c : ascii) : bool :=
  (48 <=? byteval c) && (byteval c <=? 57).

Fixpoint parseDigits (s : gostring) (x : Z) : option Z :=
  match s with
  | [] => Some x
  | c :: s' => if isDigitByte c
               then parseDigits s' (x * 10 + byteval c - 48)
               else None
  end.

(** [parseUint(s, min, max)] of [parseRFC3339]: an unsigned decimal
    integer within a range. *)
Definition parseUint (s : gostring) (min max : Z) : option Z :=
  match parseDigits s 0 with
  | Some x => if (x <? min) || (max <? x) then None else Some x
  | None => None
  end.

(** The digits that follow the decimal point of a fraction of a second,
    and the rest of the string. *)
Fixpoint spanDigits (s : gostring) : gostring * gostring :=
  match s with
  | c :: s' => if isDigitByte c
               then let '(ds, r) := spanDigits s' in (c :: ds, r)
               else ([], s)
  | [] => ([], [])
  end.

(** [parseNanoseconds]: at most nine digits count, scaled to
    nanoseconds. *)
Definition parseNanoseconds (ds : gostring) : Z :=
  let ds9 := firstn 9 ds in
  match parseDigits ds9 0 with
  | Some x => x * 10 ^ (9 - Z.of_nat (length ds9))
  | None => 0
  end.

(** The optional fraction of a second: a point and at least one digit. *)
Definition parseFraction (s : gostring) : Z * gostring :=
  match s with
  | dot :: c :: _ =>
      if Ascii.eqb dot "." && isDigitByte c
      then let '(ds, r) := spanDigits (tl s) in (parseNanoseconds ds, r)
      else (0, s)
  | _ => (0, s)
  end.

(** The zone: [Z], or a sign and [hh:mm]; [t] is the date and time read
    as UTC, the offset is taken off it.  The result has the written offset
    in force, in [time.Local] when that has this offset at the instant and
    in a fixed zone otherwise. *)
Definition parseZone (t : Time) (s : gostring) : option Time :=
  if streq s (str "Z") then Some t
  else if negb (length s =? 6)%nat then None
  else
    match parseUint (slice s 1 3) 0 23, parseUint (slice s 4 6) 0 59 with
    | Some hr, Some mm =>
      if negb ((Ascii.eqb (byteAt s 0) "-" || Ascii.eqb (byteAt s 0) "+")
               && Ascii.eqb (byteAt s 3) ":")
      then None else
      let zoneOffset :=
        if Ascii.eqb (byteAt s 0) "-" then - ((hr * 60 + mm) * 60)
        else (hr * 60 + mm) * 60 in
      Some (mkTime (unixSec t - zoneOffset) (nsec t) zoneOffset)
    | _, _ => None
    end.

(** [parseRFC3339(s, local)], the parser that [time.Parse] runs first for
    the layout [time.RFC3339]: date and time of fixed width, an optional
    fraction of a second, then the zone. *)
Definition parseRFC3339 (s : gostring) : option Time :=
  if (length s <? 19)%nat then None else
  match parseUint (slice s 0 4) 0 9999,
        parseUint (slice s 5 7) 1 12 with
  | Some year, Some month =>
    match parseUint (slice s 8 10) 1 (daysIn month year),
          parseUint (slice s 11 13) 0 23,
          parseUint (slice s 14 16) 0 59,
          parseUint (slice s 17 19) 0 59 with
    | Some day, Some hour, Some min, Some sec =>
      if negb (Ascii.eqb (byteAt s 4) "-" && Ascii.eqb (byteAt s 7) "-"
               && Ascii.eqb (byteAt s 10) "T" && Ascii.eqb (byteAt s 13) ":"
               && Ascii.eqb (byteAt s 16) ":")
      then None else
      let '(ns, s2) := parseFraction (skipn 19 s) in
      parseZone (Date year month day hour min sec ns UTC) s2
    | _, _, _, _ => None
    end
  | _, _ => None
  end.

(** The digits that [appendInt] writes for a two-digit and a four-digit
    field, and the text of [FormatRFC3339] by fields. *)
Definition digits2 (x : Z) : gostring :=
  [digitChar (x / 10); digitChar (x mod 10)].

Definition digits4 (x : Z) : gostring :=
  [digitChar (x / 1000); digitChar (x / 100 mod 10);
   digitChar (x / 10 mod 10); digitChar (x mod 10)].

Definition zonePart (offset : Z) : gostring :=
  if offset =? 0 then str "Z"
  else
    let zone := Z.quot offset 60 in
    (if zone <? 0 then str "-" else str "+")
      ++ digits2 (Z.abs zone / 60) ++ str ":" ++ digits2 (Z.abs zone mod 60).

Definition stamp (y m d hh mi ss : Z) (zp : gostring) : gostring :=
  digits4 y ++ str "-" ++ digits2 m ++ str "-" ++ digits2 d ++ str "T"
    ++ digits2 hh ++ str ":" ++ digits2 mi ++ str ":" ++ digits2 ss ++ zp.

(** The year of [t] on its own wall clock, and [t] cut to the second. *)
Definition yearOf (t : Time) : Z := fst (fst (DateOf t)).

Definition truncSecond (t : Time) : Time :=
  mkTime (unixSec t) 0 (zoneOffset t).

End time.

(** ** The data of [main.go] *)

(** An [error] is observed by the program only through [%v], that is
    through the text of [Error()]. *)
Definition error := gostring.

Module CheckResult.
Record t := mk {
  Status : gostring;
  Timestamp : time.Time;
  ActualResult : list gostring;
  Server : gostring
}.
End CheckResult.

Module DNSCheck.
(** [historyLock] guards [History]; the locks are modelled apart, in
    [Module Locks]. *)
Record t := mk {
  Domain : gostring;
  Type_ : gostring;
  Expected : gostring;
  Interval : Z;
  Status : gostring;
  LastCheck : time.Time;
  History : list CheckResult.t
}.
End DNSCheck.

Module Global.
Record t := mk {
  DNSServer : gostring;
  SecondaryDNSServer : gostring;
  DefaultInterval : Z;
  LogDir : gostring;
  Port : gostring
}.
End Global.

Module Config.
Record t := mk {
  Global_ : Global.t;
  Checks : list DNSCheck.t
}.
End Config.

(** [c.Checks[index]] as an lvalue: reading or writing out of range panics
    in Go; [getCheck] is [None] there and [setCheck] is only used after
    [getCheck] succeeded. *)
Definition getCheck (c : Config.t) (index : Z) : option DNSCheck.t :=
  if (index <? 0) then None else nth_error (Config.Checks c) (Z.to_nat index).

Fixpoint setNth {A : Type} (l : list A) (n : nat) (x : A) : list A :=
  match l, n with
  | [], _ => []
  | _ :: l', O => x :: l'
  | y :: l', S n' => y :: setNth l' n' x
  end.

Definition setCheck (c : Config.t) (index : Z) (check : DNSCheck.t) : Config.t :=
  Config.mk (Config.Global_ c) (setNth (Config.Checks c) (Z.to_nat index) check).

(** ** The resolver *)

(** [net.IP] is a byte slice, [*net.NS] and [*net.MX] are records. *)
Definition IP := list ascii.

Module net.
Record NS := mkNS { NS_Host : gostring }.
Record MX := mkMX { MX_Host : gostring; MX_Pref : Z }.

(** The five lookups of [*net.Resolver] that the program calls.  As in
    Go, each returns its value together with an error, [None] for
    [nil]. *)
Record Resolver := mkResolver {
  LookupIP : gostring -> gostring -> list IP * option error;
  LookupCNAME : gostring -> gostring * option error;
  LookupNS : gostring -> list NS * option error;
  LookupTXT : gostring -> list gostring * option error;
  LookupMX : gostring -> list MX * option error
}.
End net.

(** ** The file system *)

Inductive FsOp := OpMkdirAll | OpOpenFile | OpWriteString | OpReadFile | OpStat.

(** The files, by path, the directories that the program has asked for and
    that exist, and the operations that fail: [faults op path] is the error
    that [op] returns on [path], when it returns one.  The parents of a
    directory, which [MkdirAll] makes on the way, are not listed, nor is
    what a failing [MkdirAll] leaves behind. *)
Record FS := mkFS {
  files : gostring -> option gostring;
  dirs : list gostring;
  faults : FsOp -> gostring -> option error
}.

Definition writeFile (fs : FS) (name content : gostring) : FS :=
  mkFS (fun p => if streq p name then Some content else files fs p)
       (dirs fs) (faults fs).

Module os.
(** [os.MkdirAll(path, 0755)]: nothing to do when the directory exists,
    else the directory is made. *)
Definition MkdirAll (fs : FS) (path : gostring) : FS * option error :=
  match faults fs OpMkdirAll path with
  | Some e => (fs, Some e)
  | None => if existsb (streq path) (dirs fs) then (fs, None)
            else (mkFS (files fs) (path :: dirs fs) (faults fs), None)
  end.

(** [os.OpenFile(name, O_APPEND|O_CREATE|O_WRONLY, 0644)]: the file is
    created empty when it is missing. *)
Definition OpenFile (fs : FS) (name : gostring) : FS * option error :=
  match faults fs OpOpenFile name with
  | Some e => (fs, Some e)
  | None => match files fs name with
            | Some _ => (fs, None)
            | None => (writeFile fs name [], None)
            end
  end.

(** [f.WriteString(s)] on a file opened for appending. *)
Definition WriteString (fs : FS) (name s : gostring) : FS * option error :=
  match faults fs OpWriteString name with
  | Some e => (fs, Some e)
  | None => match files fs name with
            | Some old => (writeFile fs name (old ++ s), None)
            | None => (writeFile fs name s, None)
            end
  end.

(** [os.ReadFile(name)]. *)
Definition ReadFile (fs : FS) (name : gostring) : gostring * option error :=
  match faults fs OpReadFile name with
  | Some e => ([], Some e)
  | None => match files fs name with
            | Some data => (data, None)
            | None => ([], Some (str "open " ++ name
                                   ++ str ": no such file or directory"))
            end
  end.

(** [os.Stat(name)], of which the program only looks at the error. *)
Definition Stat (fs : FS) (name : gostring) : option error :=
  match faults fs OpStat name with
  | Some e => Some e
  | None => match files fs name with
            | Some _ => None
            | None => Some (str "stat " ++ name
                              ++ str ": no such file or directory")
            end
  end.
End os.

(** A goroutine started by [go saveCheckToLog(check, logDir)]: it holds the
    pointer [&c.Checks[index]], not a copy of the check, and the string
    [logDir]. *)
Record Goroutine := mkGo { go_check : Z; go_logDir : gostring }.

(** Instances of the library parameters, used to run the program on
    examples. *)

(** [filepath.Join] of a directory and a file name that need no
    cleaning. *)
Definition joinPlain (dir name : gostring) : gostring :=
  dir ++ str "/" ++ name.

(** [ip.String()] of a four-byte address, dotted decimal. *)
Definition ipv4String (ip : IP) : gostring :=
  strings.Join (map (fun b => time.appendInt (byteval b) 0) ip) (str ".").

Definition noUnicode (s : gostring) : gostring := s.

(** The separators of the log format. *)
Definition tab : gostring := ["009"%char].
Definition newline : gostring := ["010"%char].
Definition comma : gostring := [","%char].

(** ** The locks *)

(** The lock operations of the program, in the order in which each
    function performs them, and their interleavings.  [Mu] is [Config.mu],
    [HistoryLock i] is [Checks[i].historyLock]; both are [sync.RWMutex].
    [loadHistoryFromLog] takes [historyLock] too, at the start, before any
    other goroutine exists. *)
Module Locks.

Inductive lock := Mu | HistoryLock (i : nat).

Inductive mode := W | R.

(** The worker of check [i] (the goroutine of [monitorDNS]), the goroutine
    started for [saveCheckToLog] on check [i] ([k] numbers the goroutines
    started), the goroutine that serves an HTTP request. *)
Inductive tid := Worker (i : nat) | Saver (i k : nat) | Handler (k : nat).

(** What a goroutine does between two lock operations: the lookups of
    [performDNSCheck] (lines 297 and 307), the status fields (lines 53-55),
    the history (lines 59-69), the opening of the log (lines 79-92), the
    reading of the last entry (lines 102-107), the writing of the line
    (lines 110-118), the rendering of the page (line 410), the wait for the
    ticker (line 315). *)
Inductive action :=
| Lookup | SetStatus | AppendHistory | OpenLog | ReadLast | WriteLog
| Render | Wait.

Inductive instr :=
| Lock_ (l : lock) | Unlock_ (l : lock)
| RLock (l : lock) | RUnlock (l : lock)
| Go (i : nat)
| Do (a : action).

(** [updateStatus] (lines 50-75): [c.mu.Lock()] with the deferred
    [Unlock], the status fields, then the history under [historyLock],
    then [go saveCheckToLog] (the log directory of a configuration that
    [loadConfig] returns is never empty); the deferred unlock runs last. *)
Definition updateStatusCode (i : nat) : list instr :=
  [Lock_ Mu; Do SetStatus; Lock_ (HistoryLock i); Do AppendHistory;
   Unlock_ (HistoryLock i); Go i; Unlock_ Mu].

(** [saveCheckToLog] (lines 79-118): the file is opened, the last entry
    is read under [historyLock.RLock()], the line is written. *)
Definition saveCheckToLogCode (i : nat) : list instr :=
  [Do OpenLog; RLock (HistoryLock i); Do ReadLast; RUnlock (HistoryLock i);
   Do WriteLog].

(** The HTTP handler (lines 409-411). *)
Definition handlerCode : list instr := [RLock Mu; Do Render; RUnlock Mu].

(** One turn of the loop of the worker of check [i] (lines 295-315). *)
Definition workerCode (secondary : bool) (i : nat) : list instr :=
  Do Lookup :: updateStatusCode i
    ++ (if secondary then Do Lookup :: updateStatusCode i else [])
    ++ [Do Wait].

Definition lock_eqb (a b : lock) : bool :=
  match a, b with
  | Mu, Mu => true
  | HistoryLock i, HistoryLock j => Nat.eqb i j
  | _, _ => false
  end.

Definition tid_eqb (a b : tid) : bool :=
  match a, b with
  | Worker i, Worker j => Nat.eqb i j
  | Saver i k, Saver j n => Nat.eqb i j && Nat.eqb k n
  | Handler i, Handler j => Nat.eqb i j
  | _, _ => false
  end.

Definition mode_eqb (a b : mode) : bool :=
  match a, b with W, W => true | R, R => true | _, _ => false end.

(** The state of the locks, as [sync.RWMutex] keeps it.  [held] lists the
    locks held, for writing or for reading.  [queue] lists the goroutines
    inside a call that has not returned: a writer that has called [Lock]
    and waits for the readers to leave (from then on no new reader gets
    the lock), and a reader that has called [RLock] behind a writer and
    waits for the [Unlock] of that writer. *)
Definition entry : Type := tid * lock * mode.

Record state := mkState {
  threads : list (tid * list instr);
  held : list entry;
  queue : list entry;
  started : nat
}.

Definition isFor (l : lock) (m : mode) (e : entry) : bool :=
  match e with (_, l', m') => lock_eqb l l' && mode_eqb m m' end.

Definition isOf (t : tid) (l : lock) (m : mode) (e : entry) : bool :=
  match e with
  | (t', l', m') => tid_eqb t t' && lock_eqb l l' && mode_eqb m m'
  end.

Fixpoint release (t : tid) (l : lock) (m : mode) (h : list entry)
  : list entry :=
  match h with
  | [] => []
  | e :: h' => if isOf t l m e then h' else e :: release t l m h'
  end.

(** What one instruction of thread [t] does, when it can run: whether the
    call returns, the threads it starts, the locks held, the queue, the
    number of goroutines started.

    [Lock]: writers exclude each other; the first one in closes the lock to
    new readers, and has the lock once the readers that hold it have left.
    [RLock]: behind a writer, whether it holds the lock or waits for it,
    the reader queues, and has the lock when that writer unlocks; else it
    has the lock at once.  [Unlock] hands the lock to the readers that
    queue.  The program takes no lock that it holds. *)
Definition exec (t : tid) (ins : instr) (s : state)
  : option (bool * list (tid * list instr) * list entry * list entry * nat) :=
  match ins with
  | Lock_ l =>
      if existsb (isOf t l W) (queue s) then
        if existsb (isFor l R) (held s) then None
        else Some (true, [], (t, l, W) :: held s, release t l W (queue s),
                   started s)
      else if existsb (isFor l W) (held s ++ queue s) then None
      else if existsb (isFor l R) (held s) then
        Some (false, [], held s, (t, l, W) :: queue s, started s)
      else Some (true, [], (t, l, W) :: held s, queue s, started s)
  | RLock l =>
      if existsb (isOf t l R) (held s) then
        Some (true, [], held s, queue s, started s)
      else if existsb (isOf t l R) (queue s) then None
      else if existsb (isFor l W) (held s ++ queue s) then
        Some (false, [], held s, (t, l, R) :: queue s, started s)
      else Some (true, [], (t, l, R) :: held s, queue s, started s)
  | Unlock_ l =>
      Some (true, [],
            release t l W (held s) ++ filter (isFor l R) (queue s),
            filter (fun e => negb (isFor l R e)) (queue s), started s)
  | RUnlock l =>
      Some (true, [], release t l R (held s), queue s, started s)
  | Go i =>
      Some (true, [(Saver i (started s), saveCheckToLogCode i)], held s,
            queue s, S (started s))
  | Do _ => Some (true, [], held s, queue s, started s)
  end.

(** The interleavings: a thread runs its next instruction, a worker that
    finished a turn starts the next one, an HTTP request arrives. *)
Inductive step (secondary : bool) : state -> state -> Prop :=
| step_exec : forall s ts1 ts2 t ins code returns new h q n,
    threads s = ts1 ++ (t, ins :: code) :: ts2 ->
    exec t ins s = Some (returns, new, h, q, n) ->
    step secondary s
         (mkState (ts1 ++ (t, if returns then code else ins :: code)
                       :: ts2 ++ new) h q n)
| step_loop : forall s ts1 ts2 i,
    threads s = ts1 ++ (Worker i, []) :: ts2 ->
    step secondary s
         (mkState (ts1 ++ (Worker i, workerCode secondary i) :: ts2)
                  (held s) (queue s) (started s))
| step_request : forall s,
    step secondary s
         (mkState (threads s ++ [(Handler (started s), handlerCode)])
                  (held s) (queue s) (S (started s))).

Inductive reachable (secondary : bool) (s0 : state) : state -> Prop :=
| reach_init : reachable secondary s0 s0
| reach_step : forall s s',
    reachable secondary s0 s -> step secondary s s' ->
    reachable secondary s0 s'.

(** The start: one worker per check, no lock held. *)
Definition init (checks : nat) : state :=
  mkState (map (fun i => (Worker i, [])) (seq 0 checks)) [] [] 0.

(** A scheduler: [fire] runs the thread at position [k], if it can run, and
    [runSchedule] runs the threads at the positions of a list, in order. *)
Definition fire (secondary : bool) (s : state) (k : nat) : option state :=
  match nth_error (threads s) k with
  | Some (t, ins :: code) =>
      match exec t ins s with
      | Some (returns, new, h, q, n) =>
          Some (mkState (firstn k (threads s)
                           ++ (t, if returns then code else ins :: code)
                           :: skipn (S k) (threads s) ++ new) h q n)
      | None => None
      end
  | Some (Worker i, []) =>
      Some (mkState (firstn k (threads s)
                       ++ (Worker i, workerCode secondary i)
                       :: skipn (S k) (threads s))
                    (held s) (queue s) (started s))
  | _ => None
  end.

Fixpoint runSchedule (secondary : bool) (s : state) (ks : list nat)
  : option state :=
  match ks with
  | [] => Some s
  | k :: ks' =>
      match fire secondary s k with
      | Some s' => runSchedule secondary s' ks'
      | None => None
      end
  end.

(** The outcomes of [exec], case by case: the lock is taken at once; the
    thread joins the queue; a writer leaves the queue with the lock; a
    reader returns with the lock that an [Unlock] handed to it; the
    releases; the start of a goroutine; an action. *)
Definition acquire (m : mode) (l : lock) : instr :=
  match m with W => Lock_ l | R => RLock l end.

Inductive outcome (t : tid) (s : state)
  : instr -> bool -> list (tid * list instr) -> list entry -> list entry
    -> nat -> Prop :=
| out_take : forall m l,
    ~ In (t, l, m) (held s ++ queue s) ->
    outcome t s (acquire m l) true [] ((t, l, m) :: held s) (queue s)
            (started s)
| out_wait : forall m l,
    ~ In (t, l, m) (held s ++ queue s) ->
    (m = R -> exists u, In (u, l, W) (held s ++ queue s)) ->
    outcome t s (acquire m l) false [] (held s) ((t, l, m) :: queue s)
            (started s)
| out_enter : forall l,
    In (t, l, W) (queue s) ->
    outcome t s (Lock_ l) true [] ((t, l, W) :: held s)
            (release t l W (queue s)) (started s)
| out_woken : forall l,
    In (t, l, R) (held s) ->
    outcome t s (RLock l) true [] (held s) (queue s) (started s)
| out_unlock : forall l,
    outcome t s (Unlock_ l) true []
            (release t l W (held s) ++ filter (isFor l R) (queue s))
            (filter (fun e => negb (isFor l R e)) (queue s)) (started s)
| out_runlock : forall l,
    outcome t s (RUnlock l) true [] (release t l R (held s)) (queue s)
            (started s)
| out_go : forall i,
    outcome t s (Go i) true [(Saver i (started s), saveCheckToLogCode i)]
            (held s) (queue s) (S (started s))
| out_do : forall a,
    outcome t s (Do a) true [] (held s) (queue s) (started s).

(** The locks that the code of a thread names: a worker names the coarse
    lock and the history lock of its own check, and takes them for writing;
    a goroutine of [saveCheckToLog] names the history lock of its check, a
    handler the coarse lock, and they take them for reading. *)
Definition allowed (t : tid) (l : lock) (m : mode) : Prop :=
  match t with
  | Worker i => (l = Mu \/ l = HistoryLock i) /\ m = W
  | Saver i _ => l = HistoryLock i /\ m = R
  | Handler _ => l = Mu /\ m = R
  end.

Definition instrOk (t : tid) (ins : instr) : Prop :=
  match ins with
  | Lock_ l | Unlock_ l => allowed t l W
  | RLock l | RUnlock l => allowed t l R
  | Go i => t = Worker i
  | Do _ => True
  end.

(** A thread is blocked when its next instruction cannot run, and runs
    when it can. *)
Definition blocked (s : state) (t : tid) : Prop :=
  exists ins code, In (t, ins :: code) (threads s) /\ exec t ins s = None.

Definition canRun (s : state) (t : tid) : Prop :=
  exists ins code, In (t, ins :: code) (threads s) /\ exec t ins s <> None.

(** Thread [u] holds the lock [l], or is the writer for which [l] is
    closed to new readers. *)
Definition holds (s : state) (u : tid) (l : lock) : Prop :=
  (exists m, In (u, l, m) (held s)) \/ In (u, l, W) (queue s).

Definition holdsSome (s : state) (u : tid) : Prop := exists l, holds s u l.

(** Thread [t] waits on lock [l] held by thread [u]: [t] is blocked in
    [Lock] or [RLock] on [l], and [u] is another thread, which holds
    [l]. *)
Definition waitsOn (s : state) (t u : tid) (l : lock) : Prop :=
  u <> t
  /\ (exists ins code,
        In (t, ins :: code) (threads s)
        /\ (ins = Lock_ l \/ ins = RLock l)
        /\ exec t ins s = None)
  /\ holds s u l.

(** The program of a thread, the locks that a remaining code still has to
    release (those it releases before acquiring them), and whether an
    instruction acquires a lock. *)
Definition program (secondary : bool) (t : tid) : list instr :=
  match t with
  | Worker i => workerCode secondary i
  | Saver i _ => saveCheckToLogCode i
  | Handler _ => handlerCode
  end.

Fixpoint pending (code : list instr) (acquired : list lock)
  : list (lock * mode) :=
  match code with
  | [] => []
  | Lock_ l :: rest | RLock l :: rest => pending rest (l :: acquired)
  | Unlock_ l :: rest =>
      if existsb (lock_eqb l) acquired then pending rest acquired
      else (l, W) :: pending rest acquired
  | RUnlock l :: rest =>
      if existsb (lock_eqb l) acquired then pending rest acquired
      else (l, R) :: pending rest acquired
  | Go _ :: rest | Do _ :: rest => pending rest acquired
  end.

Definition owed (code : list instr) : list (lock * mode) := pending code [].

Definition isAcquire (ins : instr) : bool :=
  match ins with
  | Lock_ _ | RLock _ => true
  | _ => false
  end.

(** The threads are distinct and numbered below [started]; each is at a
    point of its program; a thread holds the locks that the rest of its
    code releases, and no other, but for a reader to which an [Unlock] has
    handed the lock and whose [RLock] has not returned yet; a thread in the
    queue is inside the call that put it there, and a reader in the queue
    has a writer before it; no entry is there twice. *)
Definition consistent (secondary : bool) (s : state) : Prop :=
  NoDup (map fst (threads s))
  /\ (forall t code, In (t, code) (threads s) ->
        match t with
        | Worker _ => True
        | Saver _ k | Handler k => (k < started s)%nat
        end)
  /\ (forall t code, In (t, code) (threads s) ->
        exists pre, pre ++ code = program secondary t)
  /\ (forall t l m, In (t, l, m) (held s) ->
        exists code, In (t, code) (threads s)
          /\ (In (l, m) (owed code)
              \/ (m = R /\ exists rest, code = RLock l :: rest)))
  /\ (forall t code l m, In (t, code) (threads s) ->
        In (l, m) (owed code) -> In (t, l, m) (held s))
  /\ (forall t l m, In (t, l, m) (queue s) ->
        exists rest,
          In (t, acquire m l :: rest) (threads s)
          /\ (m = R -> exists u, In (u, l, W) (held s ++ queue s)))
  /\ NoDup (held s ++ queue s).

(** The points of a program: its suffixes. *)
Fixpoint tails {A : Type} (l : list A) : list (list A) :=
  match l with
  | [] => [[]]
  | x :: r => (x :: r) :: tails r
  end.

(** What the programs guarantee at each of their points: the effect of
    the next instruction on the locks owed; that the instruction names a
    lock of the thread; that a thread which owes a lock does not acquire
    one, but for a worker that takes the history lock under the coarse
    lock; that the locks owed are locks of the thread; that a worker sets
    the status and appends to the history under the coarse lock, and
    appends under the history lock; that a worker owes the coarse lock at
    every instruction other than the lookups, the wait and the call of
    [c.mu.Lock()], and whenever it owes its history lock. *)
Definition pointOk (t : tid) (code : list instr) : Prop :=
  match code with
  | Lock_ l :: rest =>
      owed rest = (l, W) :: owed code /\ ~ In (l, W) (owed code)
  | RLock l :: rest =>
      owed rest = (l, R) :: owed code /\ ~ In (l, R) (owed code)
  | Unlock_ l :: rest =>
      owed code = (l, W) :: owed rest /\ ~ In (l, W) (owed rest)
  | RUnlock l :: rest =>
      owed code = (l, R) :: owed rest /\ ~ In (l, R) (owed rest)
  | Go _ :: rest | Do _ :: rest => owed rest = owed code
  | [] => owed code = []
  end
  /\ match code with
     | ins :: _ => instrOk t ins
     | [] => True
     end
  /\ (owed code <> [] ->
      match code with
      | [] => False
      | ins :: _ =>
          isAcquire ins = false
          \/ (exists i, t = Worker i /\ ins = Lock_ (HistoryLock i)
                        /\ owed code = [(Mu, W)])
      end)
  /\ (forall l m, In (l, m) (owed code) -> allowed t l m)
  /\ match t, code with
     | Worker i, Lock_ (HistoryLock _) :: _ => In (Mu, W) (owed code)
     | Worker i, Do a :: _ =>
         (a = SetStatus \/ a = AppendHistory -> In (Mu, W) (owed code))
         /\ (a = AppendHistory -> In (HistoryLock i, W) (owed code))
     | _, _ => True
     end
  /\ match t, code with
     | Worker _, ins :: _ =>
         ins <> Do Lookup -> ins <> Do Wait -> ins <> Lock_ Mu ->
         In (Mu, W) (owed code)
     | _, _ => True
     end
  /\ (forall i m, t = Worker i -> In (HistoryLock i, m) (owed code) ->
      In (Mu, W) (owed code)).

End Locks.

(** ** Examples *)

(** 2026-01-01T00:00:00Z and five nanoseconds, one minute later, and
    forty days later. *)
Definition exNow : time.Time := time.mkTime 1767225600 5 0.
Definition exLater : time.Time := time.mkTime 1767225660 0 0.
Definition exMuchLater : time.Time := time.mkTime 1770681600 0 0.

Definition exCheck : DNSCheck.t :=
  DNSCheck.mk (str "example.org") (str "A") (str "93.184.216.34")
    300000000000 (str "PENDING") (time.mkTime 0 0 0) [].

Definition exCheckSRV : DNSCheck.t :=
  DNSCheck.mk (str "domain") (str "SRV") (str "x")
    300000000000 (str "PENDING") (time.mkTime 0 0 0) [].

Definition exGlobal : Global.t :=
  Global.mk (str "8.8.8.8") (str "8.8.4.4") 300000000000 (str "logs")
    (str ":8080").

Definition exConfig : Config.t := Config.mk exGlobal [exCheck; exCheckSRV].

(** The same server written as primary and as secondary. *)
Definition exConfigSame : Config.t :=
  Config.mk (Global.mk (str "8.8.8.8") (str "8.8.8.8") 300000000000
               (str "logs") (str ":8080"))
            [exCheck].

(** A resolver that knows the address of every name and nothing else, and
    a resolver that fails. *)
Definition exError : error := str "lookup example.org: no such host".

Definition exResolver : net.Resolver :=
  net.mkResolver
    (fun _ _ => ([[ascii_of_nat 93; ascii_of_nat 184; ascii_of_nat 216;
                   ascii_of_nat 34]], None))
    (fun _ => ([], Some exError))
    (fun _ => ([], Some exError))
    (fun _ => ([], Some exError))
    (fun _ => ([], Some exError)).

Definition exFailing : net.Resolver :=
  net.mkResolver
    (fun _ _ => ([], Some exError))
    (fun _ => ([], Some exError))
    (fun _ => ([], Some exError))
    (fun _ => ([], Some exError))
    (fun _ => ([], Some exError)).

Definition exPass : CheckResult.t :=
  CheckResult.mk (str "example.org-A-PASS") exNow [str "93.184.216.34"]
    (str "8.8.8.8").

(** An ERROR result: no record. *)
Definition exErrorResult : CheckResult.t :=
  CheckResult.mk (str "example.org-A-ERROR-lookup example.org: no such host")
    exNow [] (str "8.8.8.8").

(** An empty file system without faults, and one with a log of three
    lines, the first two malformed. *)
Definition exFS : FS := mkFS (fun _ => None) [] (fun _ _ => None).

(** An empty file system in which no file can be opened. *)
Definition exFSNoOpen : FS :=
  mkFS (fun _ => None) []
    (fun op _ => match op with
                 | OpOpenFile => Some (str "permission denied")
                 | _ => None
                 end).

Definition exLog : gostring :=
  str "not a log line" ++ newline
  ++ str "yesterday" ++ tab ++ str "s" ++ tab ++ str "8.8.8.8" ++ tab
  ++ str "r" ++ newline
  ++ str "2026-01-01T00:00:00Z" ++ tab ++ str "example.org-A-PASS" ++ tab
  ++ str "8.8.8.8" ++ tab ++ str "93.184.216.34" ++ newline.

Definition exFSLog : FS :=
  writeFile exFS (str "logs/example.org-A.log") exLog.

(** A file system with the log and a configuration file, the
    configuration that the YAML decoder reads from it (no port, no log
    directory, no default interval; the second check has an interval of
    one hour), and a decoder that rejects everything. *)
Definition exFSConfig : FS :=
  writeFile exFSLog (str "config.yaml") (str "global: ...").

Definition exParsed : Config.t :=
  Config.mk (Global.mk (str "8.8.8.8") [] 0 [] [])
    [DNSCheck.mk (str "example.org") (str "A") (str "93.184.216.34") 0 []
       (time.mkTime 0 0 0) [];
     DNSCheck.mk (str "example.com") (str "NS") (str "ns1.example.com")
       3600000000000 [] (time.mkTime 0 0 0) []].

Definition exYaml (data : gostring) : Config.t + error := inl exParsed.

Definition exYamlBad (data : gostring) : Config.t + error :=
  inr (str "yaml: line 1: did not find expected key").

(** A result whose only record, a TXT value, holds a comma. *)
Definition exCommaResult : CheckResult.t :=
  CheckResult.mk (str "example.org-A-PASS") exNow
    [str "v=spf1" ++ comma ++ str "a,b"] (str "8.8.8.8").

(** A location with daylight saving time, as [America/New_York] is around
    the first Sunday of November 2025: four hours west of UTC from
    2025-03-09T07:00:00Z, five hours west from 2025-11-02T06:00:00Z to
    2026-03-08T07:00:00Z. *)
Definition exNewYork : time.Location :=
  time.mkLocation
    (fun sec => if sec <? 1762063200
                then (-14400, 1741503600, 1762063200)
                else (-18000, 1762063200, 1772953200)).

(** 2025-11-15T12:00:00-05:00, and the instant thirty days and thirty
    minutes before it, 2025-10-16T12:30:00-04:00. *)
Definition nyNow : time.Time := time.mkTime 1763226000 0 (-18000).
Definition nyOld : time.Time := time.mkTime 1760632200 0 (-14400).

Definition nyOldResult : CheckResult.t :=
  CheckResult.mk (str "example.org-A-PASS") nyOld [str "93.184.216.34"]
    (str "8.8.8.8").

Definition nyResult : CheckResult.t :=
  CheckResult.mk (str "example.org-A-PASS") nyNow [str "93.184.216.34"]
    (str "8.8.8.8").

Definition nyConfig : Config.t :=
  Config.mk exGlobal
    [DNSCheck.mk (str "example.org") (str "A") (str "93.184.216.34")
       300000000000 (str "example.org-A-PASS") nyOld [nyOldResult]].

(** A check whose history holds the result of 2026-01-01, and a result of
    forty days later. *)
Definition exConfigWithHistory : Config.t :=
  Config.mk exGlobal
    [DNSCheck.mk (str "example.org") (str "A") (str "93.184.216.34")
       300000000000 (str "example.org-A-PASS") exNow [exPass]].

Definition exPassLater : CheckResult.t :=
  CheckResult.mk (str "example.org-A-PASS") exMuchLater [str "93.184.216.34"]
    (str "8.8.8.8").

(** A state of the locks: both workers have started a turn, the worker of
    check 0 is inside [updateStatus], about to append to the history, and
    the worker of check 1 is about to enter [updateStatus]. *)
Definition exSchedule : list nat := [0; 1; 0; 0; 1; 0; 0]%nat.

Definition exLockState : Locks.state :=
  Eval vm_compute in
    match Locks.runSchedule false (Locks.init 2) exSchedule with
    | Some s => s
    | None => Locks.init 2
    end.

(** Another state, with one check and a secondary resolver: after a turn of
    the worker, the first goroutine of [saveCheckToLog] holds the history
    lock for reading, the worker, in its next turn, has called
    [historyLock.Lock()] and waits for that reader to leave, and the second
    goroutine has called [historyLock.RLock()] behind the worker. *)
Definition exQueueSchedule : list nat :=
  (repeat 0 22 ++ [1; 1; 0; 2; 2])%nat.

Definition exQueueState : Locks.state :=
  Eval vm_compute in
    match Locks.runSchedule true (Locks.init 1) exQueueSchedule with
    | Some s => s
    | None => Locks.init 1
    end.

(** ** The functions of [main.go] *)

Section Program.

(** Library functions that the program calls and that are taken as they
    come: the Unicode path of [strings.ToLower], [net.IP.String],
    [filepath.Join], and [time.Parse(time.RFC3339, .)], [None] when it
    returns an error.  [time_Local] is [time.Local], the location of the
    process, in which [time.Now()] returns its times. *)
Variable mapUnicodeLower : gostring -> gostring.
Variable ipString : IP -> gostring.
Variable filepath_Join : gostring -> gostring -> gostring.
Variable time_Parse : gostring -> option time.Time.
Variable time_Local : time.Location.

Definition ToLower := strings.ToLower mapUnicodeLower.

(** The cutoff of the history, [time.Now().AddDate(0, 0, -30)] for the
    reading [now] of the clock (lines 62 and 175). *)
Definition cutoffOf (now : time.Time) : time.Time :=
  time.AddDate time_Local now 0 0 (-30).

(** A result is within the window of [now] when its timestamp is after
    [now.AddDate(0, 0, -30)]. *)
Abbreviation inWindow now r :=
  (time.After (CheckResult.Timestamp r) (cutoffOf now)).

(** [fmt.Sprintf("%s-%s.log", check.Domain, check.Type)] under
    [logDir]. *)
Definition logFileName (logDir domain type : gostring) : gostring :=
  filepath_Join logDir (domain ++ str "-" ++ type ++ str ".log").

(** [saveCheckToLog(check, logDir)] (lines 78-119). *)
Definition logEntry (result : CheckResult.t) : gostring :=
  time.FormatRFC3339 (CheckResult.Timestamp result) ++ tab
    ++ CheckResult.Status result ++ tab
    ++ CheckResult.Server result ++ tab
    ++ strings.Join (CheckResult.ActualResult result) comma
    ++ newline.

Definition saveCheckToLog (check : DNSCheck.t) (logDir : gostring) (fs : FS)
  : FS :=
  let filename :=
    logFileName logDir (DNSCheck.Domain check) (DNSCheck.Type_ check) in
  match os.MkdirAll fs logDir with
  | (fs0, Some _) => fs0
  | (fs0, None) =>
    match os.OpenFile fs0 filename with
    | (fs1, Some _) => fs1
    | (fs1, None) =>
      match rev (DNSCheck.History check) with
      | [] => fs1
      | result :: _ => fst (os.WriteString fs1 filename (logEntry result))
      end
    end
  end.

(** [c.updateStatus(index, result)] (lines 49-76); [now] is what
    [time.Now()] returns at line 62.  [None] is the panic of an index out
    of range; the goroutines started are returned with the new state. *)
(** The loop of lines 63-68: the entries whose timestamp is after the
    cutoff, in order. *)
Definition keepAfter (cutoff : time.Time) (history : list CheckResult.t)
  : list CheckResult.t :=
  filter (fun hist => time.After (CheckResult.Timestamp hist) cutoff) history.

Definition updateStatus (c : Config.t) (index : Z) (result : CheckResult.t)
    (now : time.Time) : option (Config.t * list Goroutine) :=
  match getCheck c index with
  | None => None
  | Some check =>
    let history := DNSCheck.History check ++ [result] in
    let cutoff := cutoffOf now in
    let newHistory := keepAfter cutoff history in
    let check' :=
      DNSCheck.mk (DNSCheck.Domain check) (DNSCheck.Type_ check)
        (DNSCheck.Expected check) (DNSCheck.Interval check)
        (CheckResult.Status result) (CheckResult.Timestamp result)
        newHistory in
    let logDir := Global.LogDir (Config.Global_ c) in
    Some (setCheck c index check',
          if streq logDir [] then [] else [mkGo index logDir])
  end.

(** A goroutine runs [saveCheckToLog] on the check its pointer designates,
    as that check is when the goroutine runs. *)
Definition runGoroutine (c : Config.t) (g : Goroutine) (fs : FS) : FS :=
  match getCheck c (go_check g) with
  | Some check => saveCheckToLog check (go_logDir g) fs
  | None => fs
  end.

(** [loadHistoryFromLog(check, logFile)] (lines 165-203); [now] is what
    [time.Now()] returns at line 175. *)
Definition loadLine (cutoff : time.Time) (history : list CheckResult.t)
    (line : gostring) : list CheckResult.t :=
  if streq line [] then history else
  let parts := strings.Split line (tab) in
  if (length parts <? 4)%nat then history else
  match time_Parse (nth 0 parts []) with
  | None => history
  | Some timestamp =>
    if time.After timestamp cutoff then
      history ++ [CheckResult.mk (nth 1 parts []) timestamp
                    (strings.Split (nth 3 parts []) comma)
                    (nth 2 parts [])]
    else history
  end.

Definition withHistory (check : DNSCheck.t) (h : list CheckResult.t)
  : DNSCheck.t :=
  DNSCheck.mk (DNSCheck.Domain check) (DNSCheck.Type_ check)
    (DNSCheck.Expected check) (DNSCheck.Interval check)
    (DNSCheck.Status check) (DNSCheck.LastCheck check) h.

Definition loadHistoryFromLog (check : DNSCheck.t) (logFile : gostring)
    (fs : FS) (now : time.Time) : DNSCheck.t * option error :=
  match os.ReadFile fs logFile with
  | (_, Some err) =>
      (check, Some (str "error reading history file " ++ logFile
                      ++ str ": " ++ err))
  | (data, None) =>
      let lines := strings.Split data (newline) in
      let cutoff := cutoffOf now in
      (withHistory check
         (fold_left (loadLine cutoff) lines (DNSCheck.History check)),
       None)
  end.

(** The body of the loop over the checks in [loadConfig] (lines 146-159):
    the interval defaults, the status is PENDING, the history starts
    empty and is read back from the log when the log exists.  A failure
    to read it is only logged. *)
Definition initCheck (g : Global.t) (fs : FS) (now : time.Time)
    (check : DNSCheck.t) : DNSCheck.t :=
  let interval :=
    if DNSCheck.Interval check =? 0 then Global.DefaultInterval g
    else DNSCheck.Interval check in
  let check1 :=
    DNSCheck.mk (DNSCheck.Domain check) (DNSCheck.Type_ check)
      (DNSCheck.Expected check) interval (str "PENDING")
      (DNSCheck.LastCheck check) [] in
  let logFile :=
    logFileName (Global.LogDir g) (DNSCheck.Domain check)
      (DNSCheck.Type_ check) in
  match os.Stat fs logFile with
  | None => fst (loadHistoryFromLog check1 logFile fs now)
  | Some _ => check1
  end.

(** [loadConfig(filename)] (lines 120-163).  [yaml_Unmarshal] is the YAML
    decoder, [None] when it fails; [clock i] is the reading of
    [time.Now()] while check [i] is loaded.  The result is the
    configuration or the error. *)
Definition globalDefaults (g : Global.t) : Global.t :=
  let interval :=
    if Global.DefaultInterval g =? 0 then 5 * 60 * 1000000000
    else Global.DefaultInterval g in
  let logDir :=
    if streq (Global.LogDir g) [] then str "logs" else Global.LogDir g in
  let port :=
    if streq (Global.Port g) [] then str "8080" else Global.Port g in
  let port :=
    if strings.HasPrefix port (str ":") then port else str ":" ++ port in
  Global.mk (Global.DNSServer g) (Global.SecondaryDNSServer g)
    interval logDir port.

Fixpoint initChecks (g : Global.t) (fs : FS) (clock : nat -> time.Time)
    (i : nat) (checks : list DNSCheck.t) : list DNSCheck.t :=
  match checks with
  | [] => []
  | check :: rest =>
      initCheck g fs (clock i) check :: initChecks g fs clock (S i) rest
  end.

Definition loadConfig (yaml_Unmarshal : gostring -> Config.t + error)
    (fs : FS) (clock : nat -> time.Time) (filename : gostring)
  : Config.t + error :=
  match os.ReadFile fs filename with
  | (_, Some err) => inr (str "error reading config file: " ++ err)
  | (data, None) =>
    match yaml_Unmarshal data with
    | inr err => inr (str "error parsing YAML: " ++ err)
    | inl config =>
      let g := globalDefaults (Config.Global_ config) in
      inl (Config.mk g (initChecks g fs clock O (Config.Checks config)))
    end
  end.

(** [createResolver(dnsServer)] (lines 205-217): the default resolver for
    the empty address, else a resolver that dials [dnsServer + ":53"] over
    UDP; [dial address] is the resolver that reaches that address. *)
Definition createResolver (DefaultResolver : net.Resolver)
    (dial : gostring -> net.Resolver) (dnsServer : gostring) : net.Resolver :=
  if streq dnsServer [] then DefaultResolver
  else dial (dnsServer ++ str ":53").

(** [performDNSCheck(check, resolver)] (lines 219-276). *)
Definition statusOf (check : DNSCheck.t) (suffix : gostring) : gostring :=
  DNSCheck.Domain check ++ str "-" ++ DNSCheck.Type_ check ++ str "-" ++ suffix.

Definition matches (expected record : gostring) : bool :=
  strings.Contains (ToLower record) (ToLower expected).

Definition classify (check : DNSCheck.t) (records : list gostring)
  : gostring * list gostring :=
  if existsb (matches (DNSCheck.Expected check)) records
  then (statusOf check (str "PASS"), records)
  else (statusOf check (str "FAIL"), records).

Definition lookupError (check : DNSCheck.t) (err : error)
  : gostring * list gostring :=
  (statusOf check (str "ERROR-" ++ err), []).

Definition performDNSCheck (check : DNSCheck.t) (resolver : net.Resolver)
  : gostring * list gostring :=
  let type := DNSCheck.Type_ check in
  let domain := DNSCheck.Domain check in
  if streq type (str "A") then
    match net.LookupIP resolver (str "ip4") domain with
    | (_, Some err) => lookupError check err
    | (ips, None) => classify check (map ipString ips)
    end
  else if streq type (str "CNAME") then
    match net.LookupCNAME resolver domain with
    | (_, Some err) => lookupError check err
    | (cname, None) => classify check [cname]
    end
  else if streq type (str "NS") then
    match net.LookupNS resolver domain with
    | (_, Some err) => lookupError check err
    | (ns, None) => classify check (map net.NS_Host ns)
    end
  else if streq type (str "TXT") then
    match net.LookupTXT resolver domain with
    | (_, Some err) => lookupError check err
    | (txtRecords, None) => classify check txtRecords
    end
  else if streq type (str "MX") then
    match net.LookupMX resolver domain with
    | (_, Some err) => lookupError check err
    | (mxRecords, None) => classify check (map net.MX_Host mxRecords)
    end
  else (statusOf check (str "UNSUPPORTED"), []).

(** One turn of the loop of a worker of [monitorDNS] (lines 294-316).
    [now] is the reading of the clock at line 295, [now1] and [now2] are
    the readings inside the two calls of [updateStatus]. *)
Definition secondaryOf (DefaultResolver : net.Resolver)
    (dial : gostring -> net.Resolver) (config : Config.t)
  : option net.Resolver :=
  let server := Global.SecondaryDNSServer (Config.Global_ config) in
  if streq server [] then None
  else Some (createResolver DefaultResolver dial server).

Definition primaryResult (config : Config.t) (check : DNSCheck.t)
    (resolver : net.Resolver) (now : time.Time) : CheckResult.t :=
  let '(status, results) := performDNSCheck check resolver in
  CheckResult.mk status now results
    (Global.DNSServer (Config.Global_ config)).

Definition secondaryResult (config : Config.t) (check : DNSCheck.t)
    (resolver : net.Resolver) (now : time.Time) : CheckResult.t :=
  let '(status, results) := performDNSCheck check resolver in
  CheckResult.mk status now results
    (Global.SecondaryDNSServer (Config.Global_ config)).

Definition tick (config : Config.t) (i : Z)
    (primaryResolver : net.Resolver)
    (secondaryResolver : option net.Resolver)
    (now now1 now2 : time.Time) : option (Config.t * list Goroutine) :=
  match getCheck config i with
  | None => None
  | Some check =>
    match updateStatus config i
            (primaryResult config check primaryResolver now) now1 with
    | None => None
    | Some (config1, gos1) =>
      match secondaryResolver with
      | None => Some (config1, gos1)
      | Some resolver =>
        match getCheck config1 i with
        | None => None
        | Some check1 =>
          match updateStatus config1 i
                  (secondaryResult config1 check1 resolver now) now2 with
          | None => None
          | Some (config2, gos2) => Some (config2, gos1 ++ gos2)
          end
        end
      end
    end
  end.

(** The helpers of the status page (lines 381-390) and the class that the
    template gives to a check (line 349). *)
Definition lastCheck (history : list CheckResult.t) : option CheckResult.t :=
  match rev history with
  | [] => None
  | r :: _ => Some r
  end.

Definition contains (s substr : gostring) : bool := strings.Contains s substr.

Definition statusClass (status : gostring) : gostring :=
  if contains status (str "PASS") then str "PASS"
  else if contains status (str "FAIL") then str "FAIL"
  else if contains status (str "ERROR") then str "ERROR"
  else str "PENDING".

(** The turn of a worker with the resolvers that [monitorDNS] builds once,
    before the loops (lines 279-283). *)
Definition workerTurn (DefaultResolver : net.Resolver)
    (dial : gostring -> net.Resolver) (config : Config.t) (i : Z)
    (now now1 now2 : time.Time) : option (Config.t * list Goroutine) :=
  tick config i
    (createResolver DefaultResolver dial
       (Global.DNSServer (Config.Global_ config)))
    (secondaryOf DefaultResolver dial config) now now1 now2.

(** ** Notions used by the statements *)

(** The lookup that [performDNSCheck] performs for the type of the check:
    the record values it yields and its error; [None] when the type is not
    one of A, CNAME, NS, TXT, MX and no lookup is performed. *)
Definition lookup (check : DNSCheck.t) (resolver : net.Resolver)
  : option (list gostring * option error) :=
  let type := DNSCheck.Type_ check in
  let domain := DNSCheck.Domain check in
  if streq type (str "A") then
    let '(ips, err) := net.LookupIP resolver (str "ip4") domain in
    Some (map ipString ips, err)
  else if streq type (str "CNAME") then
    let '(cname, err) := net.LookupCNAME resolver domain in
    Some ([cname], err)
  else if streq type (str "NS") then
    let '(ns, err) := net.LookupNS resolver domain in
    Some (map net.NS_Host ns, err)
  else if streq type (str "TXT") then
    let '(txtRecords, err) := net.LookupTXT resolver domain in
    Some (txtRecords, err)
  else if streq type (str "MX") then
    let '(mxRecords, err) := net.LookupMX resolver domain in
    Some (map net.MX_Host mxRecords, err)
  else None.

Definition supported (type : gostring) : bool :=
  streq type (str "A") || streq type (str "CNAME") || streq type (str "NS")
  || streq type (str "TXT") || streq type (str "MX").

(** Two results are equivalent when they agree on the status, the server,
    the second of the timestamp and the records. *)
Definition equivalent (a b : CheckResult.t) : Prop :=
  CheckResult.Status a = CheckResult.Status b
  /\ CheckResult.Server a = CheckResult.Server b
  /\ time.unixSec (CheckResult.Timestamp a)
     = time.unixSec (CheckResult.Timestamp b)
  /\ CheckResult.ActualResult a = CheckResult.ActualResult b.

(** Append, persist, rehydrate: [updateStatus] at [now1], the goroutines it
    started run on the file system, then the check is loaded afresh at
    [now2] as [loadConfig] does at the next start. *)
Definition roundTrip (c : Config.t) (index : Z) (result : CheckResult.t)
    (now1 now2 : time.Time) (fs : FS) : option (list CheckResult.t) :=
  match updateStatus c index result now1 with
  | None => None
  | Some (c1, gos) =>
    let fs1 := fold_left (fun fs g => runGoroutine c1 g fs) gos fs in
    match getCheck c1 index with
    | None => None
    | Some check1 =>
        Some (DNSCheck.History
                (initCheck (Config.Global_ c1) fs1 now2 check1))
    end
  end.

(** A well-formed [time.Time], and one that [time.RFC3339] can write: the
    year has four digits and the offset is a whole number of minutes, less
    than a day. *)
Definition validTime (t : time.Time) : Prop :=
  0 <= time.nsec t < 1000000000.

Definition writable (t : time.Time) : Prop :=
  0 <= time.yearOf t <= 9999
  /\ -86400 < time.zoneOffset t < 86400
  /\ time.zoneOffset t mod 60 = 0.

(** A string without tab and newline, the separators of the log. *)
Definition plain (s : gostring) : Prop :=
  ~ In "009"%char s /\ ~ In "010"%char s.

(** The operations on the log of a check succeed, and what the log holds
    ends with a newline, as every entry written by [saveCheckToLog]
    does. *)
Definition noFaults (fs : FS) (logDir filename : gostring) : Prop :=
  faults fs OpMkdirAll logDir = None
  /\ faults fs OpOpenFile filename = None
  /\ faults fs OpWriteString filename = None
  /\ faults fs OpStat filename = None
  /\ faults fs OpReadFile filename = None.

Definition wholeLines (fs : FS) (filename : gostring) : Prop :=
  forall old, files fs filename = Some old ->
              old = [] \/ exists body, old = body ++ newline.

(** The entry that a result comes back as: the timestamp is cut to the
    second and the record list is the comma-joined text split again. *)
Definition rehydrated (result : CheckResult.t) : CheckResult.t :=
  CheckResult.mk (CheckResult.Status result)
    (time.truncSecond (CheckResult.Timestamp result))
    (strings.Split (strings.Join (CheckResult.ActualResult result) comma)
       comma)
    (CheckResult.Server result).

(** [time.Parse] with the layout [time.RFC3339] accepts what the parser
    [parseRFC3339] accepts, with the same result: it runs that parser
    first. *)
Definition parseLaw : Prop :=
  forall s t, time.parseRFC3339 s = Some t -> time_Parse s = Some t.

(** The content of a file, empty when the file is missing, and the history
    that a log content gives when it is read at a cutoff. *)
Definition content (fs : FS) (name : gostring) : gostring :=
  match files fs name with
  | Some data => data
  | None => []
  end.

Definition loaded (cutoff : time.Time) (data : gostring) : list CheckResult.t :=
  fold_left (loadLine cutoff) (strings.Split data newline) [].

(* =================================================================== *)
(** * Part II. Lemmas and theorems *)
(* =================================================================== *)

(** Section variables that a goal does not mention are dropped before the
    propositional solver runs. *)
Ltac tidy :=
  try clear mapUnicodeLower; try clear ipString;
  try clear filepath_Join; try clear time_Parse; try clear time_Local.

(** ** Strings *)

Lemma streq_true (a b : gostring) : streq a b = true <-> a = b.
Proof.
  revert b. induction a as [|x a IH]; intros [|y b]; simpl;
    try (split; [discriminate | discriminate]); [(tidy; tauto)|].
  rewrite andb_true_iff, Ascii.eqb_eq, IH.
  split; [intros [-> ->]; reflexivity | intros H; inversion H; auto].
Qed.

Lemma streq_refl (a : gostring) : streq a a = true.
Proof. apply streq_true. reflexivity. Qed.

Lemma streq_false (a b : gostring) : streq a b = false <-> a <> b.
Proof.
  rewrite <- streq_true. destruct (streq a b); split; congruence.
Qed.

Lemma HasPrefix_spec (s p : gostring) :
  strings.HasPrefix s p = true <-> exists r, s = p ++ r.
Proof.
  revert s. induction p as [|c p IH]; intros [|d s]; simpl.
  - split; [eauto | reflexivity].
  - split; [eauto | reflexivity].
  - split; [discriminate | intros [r H]; discriminate].
  - rewrite andb_true_iff, Ascii.eqb_eq, IH. split.
    + intros [-> [r ->]]. eauto.
    + intros [r H]. inversion H. eauto.
Qed.

Lemma Index_nonneg_spec (s sub : gostring) :
  0 <= strings.Index s sub <-> exists pre post, s = pre ++ sub ++ post.
Proof.
  induction s as [|c s IH].
  - destruct sub as [|d sub]; simpl.
    + split; [intros _; exists [], []; reflexivity | intros _; lia].
    + split; [lia|]. intros (pre & post & H).
      destruct pre; discriminate.
  - cbn [strings.Index].
    destruct (strings.HasPrefix (c :: s) sub) eqn:E.
    + apply HasPrefix_spec in E. destruct E as [r E].
      split; [intros _; exists [], r; exact E | intros _; lia].
    + destruct (strings.Index s sub <? 0) eqn:L.
      * apply Z.ltb_lt in L. split; [lia|].
        intros (pre & post & H). destruct pre as [|d pre].
        -- assert (strings.HasPrefix (c :: s) sub = true)
             by (apply HasPrefix_spec; eauto). congruence.
        -- inversion H. subst.
           assert (0 <= strings.Index (pre ++ sub ++ post) sub)
             by (apply IH; eauto). lia.
      * apply Z.ltb_ge in L. split; [|intros _; lia]. intros _.
        apply IH in L. destruct L as (pre & post & ->).
        exists (c :: pre), post. reflexivity.
Qed.

(** [strings.Contains] holds exactly when the substring occurs. *)
Lemma Contains_spec (s sub : gostring) :
  strings.Contains s sub = true <-> exists pre post, s = pre ++ sub ++ post.
Proof.
  unfold strings.Contains. rewrite Z.leb_le. apply Index_nonneg_spec.
Qed.

Lemma HasPrefix_single (d c : ascii) (s : gostring) :
  strings.HasPrefix (d :: s) [c] = Ascii.eqb d c.
Proof. simpl. destruct s; apply andb_true_r. Qed.

(** Splitting at a single byte. *)
Lemma splitFrom_no_sep (c : ascii) (s cur : gostring) :
  ~ In c s -> strings.splitFrom [c] cur s 0 = [rev cur ++ s].
Proof.
  revert cur. induction s as [|d s IH]; intros cur H.
  - simpl. rewrite app_nil_r. reflexivity.
  - cbn [strings.splitFrom]. rewrite HasPrefix_single.
    destruct (Ascii.eqb d c) eqn:E.
    + apply Ascii.eqb_eq in E. subst. exfalso. apply H. left. reflexivity.
    + rewrite IH by (intros X; apply H; right; exact X).
      simpl. rewrite <- app_assoc. reflexivity.
Qed.

Lemma splitFrom_app_sep (c : ascii) (a rest cur : gostring) :
  ~ In c a ->
  strings.splitFrom [c] cur (a ++ c :: rest) 0
  = (rev cur ++ a) :: strings.splitFrom [c] [] rest 0.
Proof.
  revert cur. induction a as [|d a IH]; intros cur H.
  - cbn [app strings.splitFrom]. rewrite HasPrefix_single.
    rewrite Ascii.eqb_refl. simpl. rewrite app_nil_r. reflexivity.
  - cbn [app strings.splitFrom]. rewrite HasPrefix_single.
    destruct (Ascii.eqb d c) eqn:E.
    + apply Ascii.eqb_eq in E. subst. exfalso. apply H. left. reflexivity.
    + rewrite IH by (intros X; apply H; right; exact X).
      simpl. rewrite <- app_assoc. reflexivity.
Qed.

Lemma Split_no_sep (c : ascii) (s : gostring) :
  ~ In c s -> strings.Split s [c] = [s].
Proof. intros H. unfold strings.Split. apply (splitFrom_no_sep c s [] H). Qed.

Lemma Split_app_sep (c : ascii) (a rest : gostring) :
  ~ In c a -> strings.Split (a ++ c :: rest) [c] = a :: strings.Split rest [c].
Proof.
  intros H. unfold strings.Split. apply (splitFrom_app_sep c a rest [] H).
Qed.

(** [Split] undoes [Join] on a non-empty list of pieces free of the
    separator. *)
Lemma Split_Join (c : ascii) (l : list gostring) :
  l <> [] -> Forall (fun e => ~ In c e) l ->
  strings.Split (strings.Join l [c]) [c] = l.
Proof.
  induction l as [|e l IH]; intros Hne Hall; [congruence|].
  inversion Hall as [|? ? He Hl]; subst.
  destruct l as [|e' l].
  - simpl. apply Split_no_sep. exact He.
  - change (strings.Join (e :: e' :: l) [c])
      with (e ++ c :: strings.Join (e' :: l) [c]).
    rewrite Split_app_sep by exact He.
    rewrite IH; [reflexivity | discriminate | exact Hl].
Qed.

Lemma splitFrom_nonempty (sep cur s : gostring) (k : nat) :
  strings.splitFrom sep cur s k <> [].
Proof.
  revert cur k. induction s as [|c s IH]; intros cur k;
    cbn [strings.splitFrom].
  - discriminate.
  - destruct k; [|apply IH].
    destruct (strings.HasPrefix (c :: s) sep); [discriminate | apply IH].
Qed.

(** [Split] with a non-empty separator returns at least one piece. *)
Lemma Split_nonempty (s sep : gostring) :
  sep <> [] -> strings.Split s sep <> [].
Proof.
  intros H. unfold strings.Split. destruct sep; [congruence|].
  apply splitFrom_nonempty.
Qed.

Lemma Split_nil (c : ascii) : strings.Split [] [c] = [[]].
Proof. reflexivity. Qed.

Lemma leap_mod (y : Z) :
  time.isLeap y = (y mod 4 =? 0) && (negb (y mod 100 =? 0) || (y mod 400 =? 0)).
Proof.
  unfold time.isLeap.
  assert (R : forall k, 0 < k -> (Z.rem y k =? 0) = (y mod k =? 0)).
  { intros k Hk. destruct (Z.eqb_spec (Z.rem y k) 0) as [E|E];
      destruct (Z.eqb_spec (y mod k) 0) as [F|F]; try reflexivity; exfalso.
    - apply F. apply Z.rem_divide in E; [|lia]. apply Z.mod_divide; [lia|exact E].
    - apply E. apply Z.mod_divide in F; [|lia]. apply Z.rem_divide; [lia|exact F]. }
  rewrite !R by lia. reflexivity.
Qed.

Lemma doy_facts (doy : Z) : 0 <= doy < 366 ->
  let mp := (5 * doy + 2) / 153 in
  let d := doy - (153 * mp + 2) / 5 + 1 in
  0 <= mp < 12 /\ 1 <= d <= 31.
Proof.
  intros H mp d. subst d mp. repeat split; Z.div_mod_to_equations; lia.
Qed.

Lemma doe_year (doe : Z) : 0 <= doe < 146097 ->
  let yoe := (doe - doe / 1460 + doe / 36524 - doe / 146096) / 365 in
  let doy := doe - (365 * yoe + yoe / 4 - yoe / 100) in
  0 <= yoe < 400 /\ 0 <= doy < 366.
Proof.
  intros H yoe doy. subst doy yoe. Z.div_mod_to_equations. lia.
Qed.

Lemma doe_facts (doe : Z) : 0 <= doe < 146097 ->
  let yoe := (doe - doe / 1460 + doe / 36524 - doe / 146096) / 365 in
  let doy := doe - (365 * yoe + yoe / 4 - yoe / 100) in
  let mp := (5 * doy + 2) / 153 in
  let d := doy - (153 * mp + 2) / 5 + 1 in
  0 <= yoe < 400 /\ 0 <= doy < 366 /\ 0 <= mp < 12 /\ 1 <= d <= 31.
Proof.
  intros H yoe doy mp d.
  pose proof (doe_year doe H) as Hy. cbv zeta in Hy.
  pose proof (doy_facts doy (proj2 Hy)) as Hm. cbv zeta in Hm.
  (tidy; tauto).
Qed.

Lemma daysFromCivil_civilFromDays (z : Z) :
  let '(y, m, d) := time.civilFromDays z in time.daysFromCivil y m d = z.
Proof.
  unfold time.civilFromDays.
  set (z' := z + 719468).
  set (era := z' / 146097).
  set (doe := z' mod 146097).
  assert (Hdoe : 0 <= doe < 146097) by (apply Z.mod_pos_bound; lia).
  pose proof (doe_facts doe Hdoe) as F. cbv zeta in F.
  set (yoe := (doe - doe / 1460 + doe / 36524 - doe / 146096) / 365) in *.
  set (doy := doe - (365 * yoe + yoe / 4 - yoe / 100)) in *.
  set (mp := (5 * doy + 2) / 153) in *.
  set (d := doy - (153 * mp + 2) / 5 + 1) in *.
  destruct F as (Hy & Hd & Hm & Hdd).
  unfold time.daysFromCivil.
  assert (Hz : z' = era * 146097 + doe).
  { subst era doe. pose proof (Z.div_mod z' 146097). lia. }
  destruct (mp <? 10) eqn:E; [apply Z.ltb_lt in E | apply Z.ltb_ge in E].
  - replace (mp + 3 <=? 2) with false by (symmetry; apply Z.leb_gt; lia).
    replace (2 <? mp + 3) with true by (symmetry; apply Z.ltb_lt; lia).
    replace ((yoe + era * 400) / 400) with era
      by (apply Z.div_unique with yoe; lia).
    replace ((yoe + era * 400) mod 400) with yoe
      by (apply Z.mod_unique with era; lia).
    replace (mp + 3 - 3) with mp by lia.
    subst d doy. lia.
  - replace (mp - 9 <=? 2) with true by (symmetry; apply Z.leb_le; lia).
    replace (2 <? mp - 9) with false by (symmetry; apply Z.ltb_ge; lia).
    replace (yoe + era * 400 + 1 - 1) with (yoe + era * 400) by lia.
    replace ((yoe + era * 400) / 400) with era
      by (apply Z.div_unique with yoe; lia).
    replace ((yoe + era * 400) mod 400) with yoe
      by (apply Z.mod_unique with era; lia).
    replace (mp - 9 + 9) with mp by lia.
    subst d doy. lia.
Qed.

Lemma doe_leap (doe : Z) : 0 <= doe < 146097 ->
  let yoe := (doe - doe / 1460 + doe / 36524 - doe / 146096) / 365 in
  let doy := doe - (365 * yoe + yoe / 4 - yoe / 100) in
  doy = 365 ->
  (yoe + 1) mod 4 = 0 /\ ((yoe + 1) mod 100 <> 0 \/ (yoe + 1) mod 400 = 0).
Proof.
  intros H yoe doy. subst doy yoe. intros E.
  split; [|]; Z.div_mod_to_equations; lia.
Qed.

Lemma isLeap_shift (a era : Z) :
  time.isLeap (a + era * 400) = time.isLeap a.
Proof.
  rewrite !leap_mod.
  replace ((a + era * 400) mod 4) with (a mod 4)
    by (Z.div_mod_to_equations; lia).
  replace ((a + era * 400) mod 100) with (a mod 100)
    by (Z.div_mod_to_equations; lia).
  replace ((a + era * 400) mod 400) with (a mod 400)
    by (Z.div_mod_to_equations; lia).
  reflexivity.
Qed.

Lemma civilFromDays_valid (z y m d : Z) :
  time.civilFromDays z = (y, m, d) ->
  1 <= m <= 12 /\ 1 <= d <= time.daysIn m y.
Proof.
  unfold time.civilFromDays.
  set (z' := z + 719468).
  set (era := z' / 146097).
  set (doe := z' mod 146097).
  assert (Hdoe : 0 <= doe < 146097) by (apply Z.mod_pos_bound; lia).
  pose proof (doe_facts doe Hdoe) as F. cbv zeta in F.
  pose proof (doe_leap doe Hdoe) as L. cbv zeta in L.
  set (yoe := (doe - doe / 1460 + doe / 36524 - doe / 146096) / 365) in *.
  set (doy := doe - (365 * yoe + yoe / 4 - yoe / 100)) in *.
  pose proof (doy_facts doy) as G. cbv zeta in G.
  set (mp := (5 * doy + 2) / 153) in *.
  destruct F as (Hy & Hd & Hm & Hdd).
  intros E.
  assert (Hmp : mp = 0 \/ mp = 1 \/ mp = 2 \/ mp = 3 \/ mp = 4 \/ mp = 5
                \/ mp = 6 \/ mp = 7 \/ mp = 8 \/ mp = 9 \/ mp = 10 \/ mp = 11)
    by lia.
  assert (Hk : 153 * mp <= 5 * doy + 2 < 153 * mp + 153).
  { subst mp. Z.div_mod_to_equations. lia. }
  destruct Hmp as [K|[K|[K|[K|[K|[K|[K|[K|[K|[K|[K|K]]]]]]]]]]];
    rewrite K in *; cbn in E; inversion E; subst y m d; clear E;
    try (split; [lia|]; cbn; lia).
  - split; [lia|]. unfold time.daysIn.
    replace (yoe + era * 400 + 1) with ((yoe + 1) + era * 400) by lia.
    rewrite isLeap_shift. rewrite leap_mod.
    destruct (Z.eq_dec doy 365) as [D|D].
    + destruct (L D) as [L4 L100]. rewrite L4.
      replace ((0 =? 0) && (negb ((yoe + 1) mod 100 =? 0) || ((yoe + 1) mod 400 =? 0)))
        with true.
      * cbn. lia.
      * symmetry. cbn. destruct L100 as [L1|L1].
        -- apply Z.eqb_neq in L1. rewrite L1. reflexivity.
        -- rewrite L1. apply orb_true_r.
    + destruct ((2 =? 2) && _); lia.
Qed.

Ltac digit_cases x :=
  let H := fresh in
  assert (H : x = 0 \/ x = 1 \/ x = 2 \/ x = 3 \/ x = 4 \/ x = 5 \/ x = 6
              \/ x = 7 \/ x = 8 \/ x = 9) by lia;
  destruct H as [H|[H|[H|[H|[H|[H|[H|[H|[H|H]]]]]]]]]; rewrite H.

Lemma byteval_digitChar (x : Z) :
  0 <= x <= 9 -> time.isDigitByte (time.digitChar x) = true
                 /\ byteval (time.digitChar x) = 48 + x.
Proof. intros H. digit_cases x; split; reflexivity. Qed.

Lemma utoa_small (f : nat) (u : Z) :
  0 <= u < 10 -> time.utoa (S f) u = [time.digitChar u].
Proof.
  intros H. cbn [time.utoa].
  replace (u <? 10) with true by (symmetry; apply Z.ltb_lt; lia).
  rewrite Z.mod_small by lia. reflexivity.
Qed.

Lemma utoa_step (f : nat) (u : Z) :
  10 <= u ->
  time.utoa (S f) u = time.utoa f (u / 10) ++ [time.digitChar (u mod 10)].
Proof.
  intros H. cbn [time.utoa].
  replace (u <? 10) with false by (symmetry; apply Z.ltb_ge; lia).
  reflexivity.
Qed.

Lemma log2_fuel (u b k : Z) : b <= u -> 0 < b -> Z.log2 b = k ->
  exists f, Z.to_nat (Z.log2 u) = (Z.to_nat k + f)%nat.
Proof.
  intros H Hb Hk. assert (k <= Z.log2 u) by (subst k; apply Z.log2_le_mono; lia).
  exists (Z.to_nat (Z.log2 u) - Z.to_nat k)%nat.
  pose proof (Z.log2_nonneg b). lia.
Qed.

Lemma appendInt_2 (x : Z) : 0 <= x < 100 -> time.appendInt x 2 = time.digits2 x.
Proof.
  intros H. unfold time.appendInt, time.digits2.
  replace (x <? 0) with false by (symmetry; apply Z.ltb_ge; lia).
  rewrite Z.abs_eq by lia. cbn [app].
  destruct (Z_lt_ge_dec x 10) as [L|L].
  - rewrite utoa_small by lia. rewrite Z.div_small by lia.
    rewrite Z.mod_small by lia. reflexivity.
  - destruct (log2_fuel x 10 3 ltac:(lia) ltac:(lia) eq_refl) as [f ->].
    change (S (Z.to_nat 3 + f)) with (S (S (S (S f)))).
    rewrite utoa_step by lia.
    rewrite utoa_small by (Z.div_mod_to_equations; lia). reflexivity.
Qed.

Lemma appendInt_4 (x : Z) : 0 <= x < 10000 -> time.appendInt x 4 = time.digits4 x.
Proof.
  intros H. unfold time.appendInt, time.digits4.
  replace (x <? 0) with false by (symmetry; apply Z.ltb_ge; lia).
  rewrite Z.abs_eq by lia. cbn [app].
  destruct (Z_lt_ge_dec x 10) as [L|L].
  - rewrite utoa_small by lia.
    rewrite !Z.div_small by lia. rewrite !Z.mod_small by lia. reflexivity.
  - destruct (log2_fuel x 10 3 ltac:(lia) ltac:(lia) eq_refl) as [f E].
    destruct (Z_lt_ge_dec x 100) as [L2|L2].
    + rewrite E. change (S (Z.to_nat 3 + f)) with (S (S (S (S f)))).
      rewrite utoa_step by lia.
      rewrite utoa_small by (Z.div_mod_to_equations; lia).
      replace (x / 1000) with 0 by (Z.div_mod_to_equations; lia).
      replace (x / 100 mod 10) with 0 by (Z.div_mod_to_equations; lia).
      replace (x / 10 mod 10) with (x / 10) by (Z.div_mod_to_equations; lia).
      reflexivity.
    + clear E f.
      destruct (log2_fuel x 100 6 ltac:(lia) ltac:(lia) eq_refl) as [f E].
      rewrite E. change (S (Z.to_nat 6 + f)) with (S (S (S (S (S (S (S f))))))).
      rewrite utoa_step by lia.
      destruct (Z_lt_ge_dec x 1000) as [L3|L3].
      * rewrite utoa_step by (Z.div_mod_to_equations; lia).
        rewrite utoa_small by (Z.div_mod_to_equations; lia).
        replace (x / 1000) with 0 by (Z.div_mod_to_equations; lia).
        replace (x / 10 / 10) with (x / 100 mod 10)
          by (Z.div_mod_to_equations; lia).
        reflexivity.
      * rewrite utoa_step by (Z.div_mod_to_equations; lia).
        rewrite utoa_step by (Z.div_mod_to_equations; lia).
        rewrite utoa_small by (Z.div_mod_to_equations; lia).
        replace (x / 10 / 10 / 10) with (x / 1000)
          by (Z.div_mod_to_equations; lia).
        replace (x / 10 / 10 mod 10) with (x / 100 mod 10)
          by (Z.div_mod_to_equations; lia).
        reflexivity.
Qed.

Lemma parseUint_digits2 (x lo hi : Z) :
  0 <= x < 100 -> lo <= x <= hi -> time.parseUint (time.digits2 x) lo hi = Some x.
Proof.
  intros H R. unfold time.parseUint, time.digits2. cbn [time.parseDigits].
  destruct (byteval_digitChar (x / 10)) as [D1 V1];
    [Z.div_mod_to_equations; lia|].
  destruct (byteval_digitChar (x mod 10)) as [D0 V0];
    [Z.div_mod_to_equations; lia|].
  rewrite D1, D0, V1, V0.
  replace (((0 * 10 + (48 + x / 10) - 48) * 10 + (48 + x mod 10) - 48)) with x
    by (Z.div_mod_to_equations; lia).
  replace ((x <? lo) || (hi <? x)) with false; [reflexivity|].
  symmetry. apply orb_false_iff. split; apply Z.ltb_ge; lia.
Qed.

Lemma parseUint_digits4 (x lo hi : Z) :
  0 <= x < 10000 -> lo <= x <= hi -> time.parseUint (time.digits4 x) lo hi = Some x.
Proof.
  intros H R. unfold time.parseUint, time.digits4. cbn [time.parseDigits].
  destruct (byteval_digitChar (x / 1000)) as [D3 V3];
    [Z.div_mod_to_equations; lia|].
  destruct (byteval_digitChar (x / 100 mod 10)) as [D2 V2];
    [Z.div_mod_to_equations; lia|].
  destruct (byteval_digitChar (x / 10 mod 10)) as [D1 V1];
    [Z.div_mod_to_equations; lia|].
  destruct (byteval_digitChar (x mod 10)) as [D0 V0];
    [Z.div_mod_to_equations; lia|].
  rewrite D3, D2, D1, D0, V3, V2, V1, V0.
  match goal with |- context [Some ?e] =>
    replace e with x by (Z.div_mod_to_equations; lia) end.
  replace ((x <? lo) || (hi <? x)) with false; [reflexivity|].
  symmetry. apply orb_false_iff. split; apply Z.ltb_ge; lia.
Qed.

Lemma Clock_bounds (t : time.Time) :
  let '(hh, mi, ss) := time.Clock t in
  0 <= hh < 24 /\ 0 <= mi < 60 /\ 0 <= ss < 60
  /\ hh * 3600 + mi * 60 + ss = time.localSec t mod 86400.
Proof.
  unfold time.Clock.
  assert (0 <= time.localSec t mod 86400 < 86400)
    by (apply Z.mod_pos_bound; lia).
  generalize dependent (time.localSec t mod 86400). intros sod H.
  repeat split; Z.div_mod_to_equations; lia.
Qed.

Lemma quot60 (a : Z) : -86400 < a < 86400 ->
  -1440 < Z.quot a 60 < 1440 /\ (a mod 60 = 0 -> Z.quot a 60 * 60 = a).
Proof.
  intros H. rewrite Z.quot_div by lia.
  change (Z.sgn 60) with 1. change (Z.abs 60) with 60.
  destruct (Z_lt_ge_dec a 0) as [L|L].
  - rewrite Z.sgn_neg, Z.abs_neq by lia.
    split; [|intros E]; Z.div_mod_to_equations; lia.
  - rewrite Z.abs_eq by lia. destruct (Z.eq_dec a 0) as [->|N].
    + cbn. split; [lia | reflexivity].
    + rewrite Z.sgn_pos by lia.
      split; [|intros E]; Z.div_mod_to_equations; lia.
Qed.

Lemma Format_shape (t : time.Time) :
  let '(y, m, d) := time.DateOf t in
  let '(hh, mi, ss) := time.Clock t in
  0 <= y <= 9999 ->
  -86400 < time.zoneOffset t < 86400 ->
  time.FormatRFC3339 t = time.stamp y m d hh mi ss (time.zonePart (time.zoneOffset t)).
Proof.
  unfold time.FormatRFC3339, time.stamp, time.zonePart.
  pose proof (Clock_bounds t) as C.
  destruct (time.DateOf t) as [[y m] d] eqn:ED.
  destruct (time.Clock t) as [[hh mi] ss].
  intros Hy Hz. destruct C as (Hh & Hm & Hs & _).
  apply civilFromDays_valid in ED. destruct ED as [Hmo Hd].
  assert (Hd31 : time.daysIn m y <= 31).
  { unfold time.daysIn. destruct ((m =? 2) && time.isLeap y); [lia|].
    destruct m as [|p|p]; try lia.
    do 4 (try destruct p as [p|p|]; try lia). }
  rewrite appendInt_4 by lia.
  rewrite !appendInt_2 by lia.
  destruct (time.zoneOffset t =? 0); [reflexivity|].
  set (zone := Z.quot (time.zoneOffset t) 60).
  pose proof (quot60 (time.zoneOffset t) Hz) as [Hq _]. fold zone in Hq.
  rewrite !appendInt_2 by (Z.div_mod_to_equations; lia).
  reflexivity.
Qed.

Lemma parse_stamp (y m d hh mi ss : Z) (zp : gostring) :
  0 <= y <= 9999 -> 1 <= m <= 12 -> 1 <= d <= time.daysIn m y ->
  0 <= hh < 24 -> 0 <= mi < 60 -> 0 <= ss < 60 ->
  time.parseRFC3339 (time.stamp y m d hh mi ss zp)
  = let '(ns, s2) := time.parseFraction zp in
    time.parseZone (time.Date y m d hh mi ss ns time.UTC) s2.
Proof.
  intros Hy Hm Hd Hh Hmi Hs.
  assert (Hd31 : time.daysIn m y <= 31).
  { unfold time.daysIn. destruct ((m =? 2) && time.isLeap y); [lia|].
    destruct m as [|p|p]; try lia.
    do 4 (try destruct p as [p|p|]; try lia). }
  unfold time.parseRFC3339.
  cbv [time.stamp time.digits4 time.digits2 app str list_ascii_of_string].
  cbn [length Nat.ltb Nat.leb time.slice firstn skipn Nat.sub time.byteAt nth].
  fold (time.digits4 y). fold (time.digits2 m). fold (time.digits2 d).
  fold (time.digits2 hh). fold (time.digits2 mi). fold (time.digits2 ss).
  rewrite parseUint_digits4 by lia.
  rewrite (parseUint_digits2 m) by lia.
  rewrite (parseUint_digits2 d) by lia.
  rewrite (parseUint_digits2 hh) by lia.
  rewrite (parseUint_digits2 mi) by lia.
  rewrite (parseUint_digits2 ss) by lia.
  reflexivity.
Qed.

(** With the fields in range [Date] has nothing to normalise: the reading
    of the wall clock is brought to UTC as it is. *)
Lemma Date_inrange (y m d hh mi ss ns : Z) (loc : time.Location) :
  1 <= m <= 12 -> 0 <= hh < 24 -> 0 <= mi < 60 -> 0 <= ss < 60 ->
  0 <= ns < 1000000000 ->
  time.Date y m d hh mi ss ns loc
  = time.mkTime
      (time.zoneAdjust loc
         (time.daysFromCivil y m d * 86400 + hh * 3600 + mi * 60 + ss))
      ns
      (time.offsetAt loc
         (time.zoneAdjust loc
            (time.daysFromCivil y m d * 86400 + hh * 3600 + mi * 60 + ss))).
Proof.
  intros Hm Hh Hmi Hs Hn. unfold time.Date.
  replace ((m - 1) / 12) with 0 by (Z.div_mod_to_equations; lia).
  replace ((m - 1) mod 12 + 1) with m by (Z.div_mod_to_equations; lia).
  rewrite (Z.div_small ns), (Z.mod_small ns) by lia.
  rewrite !Z.add_0_r.
  rewrite (Z.div_small ss), (Z.mod_small ss) by lia. rewrite !Z.add_0_r.
  rewrite (Z.div_small mi), (Z.mod_small mi) by lia. rewrite !Z.add_0_r.
  rewrite (Z.div_small hh), (Z.mod_small hh) by lia. rewrite !Z.add_0_r.
  cbv zeta.
  replace (time.daysFromCivil y m 1 + (d - 1)) with (time.daysFromCivil y m d)
    by (unfold time.daysFromCivil; lia).
  reflexivity.
Qed.

(** The offset that [Date] takes off the wall clock is the offset that the
    location has in force at the reading itself or, failing that, at the
    instant which that offset gives. *)
Lemma zoneAdjust_cases (loc : time.Location) (unix : Z) :
  time.zoneAdjust loc unix = unix - time.offsetAt loc unix
  \/ time.zoneAdjust loc unix
     = unix - time.offsetAt loc (unix - time.offsetAt loc unix).
Proof.
  unfold time.zoneAdjust, time.offsetAt.
  destruct (time.lookup loc unix) as [[offset start] end_]. cbn [fst].
  destruct (Z.eqb_spec offset 0) as [->|N]; [left; lia|].
  destruct ((unix - offset <? start) || (end_ <=? unix - offset));
    [right | left]; reflexivity.
Qed.

(** A location with one offset takes that offset off. *)
Lemma zoneAdjust_fixed (loc : time.Location) (offset unix : Z) :
  (forall sec, time.offsetAt loc sec = offset) ->
  time.zoneAdjust loc unix = unix - offset.
Proof.
  intros F. destruct (zoneAdjust_cases loc unix) as [E|E];
    rewrite E, !F; reflexivity.
Qed.

Lemma Date_UTC (y m d hh mi ss ns : Z) :
  1 <= m <= 12 -> 0 <= hh < 24 -> 0 <= mi < 60 -> 0 <= ss < 60 ->
  0 <= ns < 1000000000 ->
  time.Date y m d hh mi ss ns time.UTC
  = time.mkTime (time.daysFromCivil y m d * 86400 + hh * 3600 + mi * 60 + ss)
                ns 0.
Proof.
  intros Hm Hh Hmi Hs Hn. rewrite Date_inrange by assumption.
  rewrite (zoneAdjust_fixed time.UTC 0) by reflexivity.
  rewrite Z.sub_0_r. reflexivity.
Qed.

Lemma parseZone_minus (t : time.Time) (hr mm : Z) :
  0 <= hr < 24 -> 0 <= mm < 60 ->
  time.parseZone t ("-"%char :: time.digits2 hr ++ ":"%char :: time.digits2 mm)
  = Some (time.mkTime (time.unixSec t - - ((hr * 60 + mm) * 60)) (time.nsec t)
                      (- ((hr * 60 + mm) * 60))).
Proof.
  intros Hh Hm. unfold time.parseZone.
  replace (streq ("-"%char :: time.digits2 hr ++ ":"%char :: time.digits2 mm)
                 (str "Z")) with false by reflexivity.
  cbv [time.digits2 app].
  cbn [length Nat.eqb negb time.slice firstn skipn Nat.sub time.byteAt nth].
  fold (time.digits2 hr). fold (time.digits2 mm).
  rewrite !parseUint_digits2 by lia. reflexivity.
Qed.

Lemma parseZone_plus (t : time.Time) (hr mm : Z) :
  0 <= hr < 24 -> 0 <= mm < 60 ->
  time.parseZone t ("+"%char :: time.digits2 hr ++ ":"%char :: time.digits2 mm)
  = Some (time.mkTime (time.unixSec t - (hr * 60 + mm) * 60) (time.nsec t)
                      ((hr * 60 + mm) * 60)).
Proof.
  intros Hh Hm. unfold time.parseZone.
  replace (streq ("+"%char :: time.digits2 hr ++ ":"%char :: time.digits2 mm)
                 (str "Z")) with false by reflexivity.
  cbv [time.digits2 app].
  cbn [length Nat.eqb negb time.slice firstn skipn Nat.sub time.byteAt nth].
  fold (time.digits2 hr). fold (time.digits2 mm).
  rewrite !parseUint_digits2 by lia. reflexivity.
Qed.

(** Reading back what [FormatRFC3339] wrote gives the instant cut to the
    second, in the same offset. *)
Lemma parseRFC3339_Format (t : time.Time) :
  0 <= time.yearOf t <= 9999 ->
  -86400 < time.zoneOffset t < 86400 ->
  time.zoneOffset t mod 60 = 0 ->
  time.parseRFC3339 (time.FormatRFC3339 t) = Some (time.truncSecond t).
Proof.
  intros Hy Hz Hz60.
  pose proof (Format_shape t) as F. pose proof (Clock_bounds t) as C.
  pose proof (daysFromCivil_civilFromDays (time.localSec t / 86400)) as R.
  unfold time.yearOf in Hy. unfold time.DateOf in *.
  destruct (time.civilFromDays (time.localSec t / 86400)) as [[y m] d] eqn:ED.
  destruct (time.Clock t) as [[hh mi] ss].
  destruct C as (Hh & Hmi & Hs & Hsod). cbn [fst] in Hy.
  rewrite (F Hy Hz). clear F.
  apply civilFromDays_valid in ED. destruct ED as [Hm Hd].
  rewrite parse_stamp by assumption.
  assert (HU : time.daysFromCivil y m d * 86400 + hh * 3600 + mi * 60 + ss
               = time.localSec t).
  { rewrite R. pose proof (Z.div_mod (time.localSec t) 86400). lia. }
  unfold time.zonePart, time.truncSecond.
  destruct (Z.eqb_spec (time.zoneOffset t) 0) as [Z0|Z0].
  - cbn [time.parseFraction str list_ascii_of_string].
    rewrite Date_UTC by lia.
    cbn. f_equal. f_equal; [|auto]. unfold time.localSec in HU. lia.
  - destruct (quot60 _ Hz) as [Hq Hq60]. specialize (Hq60 Hz60).
    set (zone := Z.quot (time.zoneOffset t) 60) in *.
    assert (Hfr : forall c r, c <> "."%char ->
              time.parseFraction (c :: r) = (0, c :: r)).
    { intros c r Hc. unfold time.parseFraction. destruct r; [reflexivity|].
      apply Ascii.eqb_neq in Hc. rewrite Hc. reflexivity. }
    assert (Hhr : 0 <= Z.abs zone / 60 < 24) by (Z.div_mod_to_equations; lia).
    assert (Hmm : 0 <= Z.abs zone mod 60 < 60) by (Z.div_mod_to_equations; lia).
    unfold time.localSec in HU.
    destruct (zone <? 0) eqn:S; [apply Z.ltb_lt in S | apply Z.ltb_ge in S];
      cbv [str list_ascii_of_string app];
      (rewrite Hfr by discriminate);
      (rewrite Date_UTC by lia);
      [rewrite parseZone_minus by lia | rewrite parseZone_plus by lia];
      cbn [time.unixSec time.nsec]; f_equal.
    + replace (- ((Z.abs zone / 60 * 60 + Z.abs zone mod 60) * 60))
        with (time.zoneOffset t) by (Z.div_mod_to_equations; lia).
      f_equal. lia.
    + replace ((Z.abs zone / 60 * 60 + Z.abs zone mod 60) * 60)
        with (time.zoneOffset t) by (Z.div_mod_to_equations; lia).
      f_equal. lia.
Qed.

(** Thirty days back on the calendar: the wall clock reads what it read,
    thirty times 86400 seconds earlier, and that reading is brought to UTC
    in the location. *)
Lemma AddDate_wall (loc : time.Location) (t : time.Time) :
  0 <= time.nsec t < 1000000000 ->
  time.AddDate loc t 0 0 (-30)
  = time.mkTime (time.zoneAdjust loc (time.localSec t - 2592000)) (time.nsec t)
      (time.offsetAt loc (time.zoneAdjust loc (time.localSec t - 2592000))).
Proof.
  intros Hn. unfold time.AddDate.
  pose proof (Clock_bounds t) as C.
  pose proof (daysFromCivil_civilFromDays (time.localSec t / 86400)) as R.
  unfold time.DateOf.
  destruct (time.civilFromDays (time.localSec t / 86400)) as [[y m] d] eqn:ED.
  destruct (time.Clock t) as [[hh mi] ss].
  destruct C as (Hh & Hmi & Hs & Hsod).
  apply civilFromDays_valid in ED. destruct ED as [Hm Hd].
  rewrite !Z.add_0_r. rewrite Date_inrange by lia.
  assert (E : time.daysFromCivil y m (d + -30) * 86400 + hh * 3600 + mi * 60 + ss
              = time.localSec t - 2592000).
  { assert (time.daysFromCivil y m (d + -30) = time.daysFromCivil y m d - 30)
      by (unfold time.daysFromCivil; lia).
    pose proof (Z.div_mod (time.localSec t) 86400). lia. }
  rewrite E. reflexivity.
Qed.

(** In a location with one offset, thirty days back on the calendar is
    thirty times 86400 seconds back. *)
Lemma AddDate_30 (loc : time.Location) (t : time.Time) :
  0 <= time.nsec t < 1000000000 ->
  (forall sec, time.offsetAt loc sec = time.zoneOffset t) ->
  time.AddDate loc t 0 0 (-30)
  = time.mkTime (time.unixSec t - 2592000) (time.nsec t) (time.zoneOffset t).
Proof.
  intros Hn F. rewrite AddDate_wall by exact Hn.
  rewrite (zoneAdjust_fixed loc (time.zoneOffset t)) by exact F.
  rewrite F. unfold time.localSec. f_equal. lia.
Qed.

Lemma digitChar_printable (x : Z) :
  0 <= x <= 9 -> 43 <= byteval (time.digitChar x).
Proof. intros H. destruct (byteval_digitChar x H) as [_ ->]. lia. Qed.

Lemma digits2_printable (x : Z) :
  0 <= x < 100 -> Forall (fun c => 43 <= byteval c) (time.digits2 x).
Proof.
  intros H. unfold time.digits2.
  repeat constructor; apply digitChar_printable; Z.div_mod_to_equations; lia.
Qed.

Lemma digits4_printable (x : Z) :
  0 <= x < 10000 -> Forall (fun c => 43 <= byteval c) (time.digits4 x).
Proof.
  intros H. unfold time.digits4.
  repeat constructor; apply digitChar_printable; Z.div_mod_to_equations; lia.
Qed.

(** The text of a timestamp has no byte below ['+']: no tab, no newline. *)
Lemma Format_printable (t : time.Time) :
  0 <= time.yearOf t <= 9999 ->
  -86400 < time.zoneOffset t < 86400 ->
  Forall (fun c => 43 <= byteval c) (time.FormatRFC3339 t).
Proof.
  intros Hy Hz.
  pose proof (Format_shape t) as F. pose proof (Clock_bounds t) as C.
  unfold time.yearOf in Hy. unfold time.DateOf in *.
  destruct (time.civilFromDays (time.localSec t / 86400)) as [[y m] d] eqn:ED.
  destruct (time.Clock t) as [[hh mi] ss].
  destruct C as (Hh & Hmi & Hs & Hsod). cbn [fst] in Hy.
  rewrite (F Hy Hz). clear F.
  apply civilFromDays_valid in ED. destruct ED as [Hm Hd].
  assert (Hd31 : time.daysIn m y <= 31).
  { unfold time.daysIn. destruct ((m =? 2) && time.isLeap y); [lia|].
    destruct m as [|p|p]; try lia.
    do 4 (try destruct p as [p|p|]; try lia). }
  destruct (quot60 _ Hz) as [Hq _].
  unfold time.stamp, time.zonePart.
  repeat (apply Forall_app; split);
    try (apply digits4_printable; lia);
    try (apply digits2_printable; lia);
    try (repeat constructor; cbn; lia).
  destruct (time.zoneOffset t =? 0); [repeat constructor; cbn; lia|].
  repeat (apply Forall_app; split);
    try (apply digits2_printable; Z.div_mod_to_equations; lia);
    try (repeat constructor; cbn; lia).
  destruct (_ <? 0); repeat constructor; cbn; lia.
Qed.

(** ** The check evaluator *)

Lemma statusOf_inj (check : DNSCheck.t) (a b : gostring) :
  statusOf check a = statusOf check b -> a = b.
Proof.
  unfold statusOf. intros H.
  repeat (apply app_inv_head in H). exact H.
Qed.

(** The three outcomes of [performDNSCheck], by the outcome of the
    lookup. *)
Lemma performDNSCheck_lookup (check : DNSCheck.t) (resolver : net.Resolver) :
  performDNSCheck check resolver
  = match lookup check resolver with
    | Some (records, None) => classify check records
    | Some (_, Some err) => lookupError check err
    | None => (statusOf check (str "UNSUPPORTED"), [])
    end.
Proof.
  unfold performDNSCheck, lookup.
  destruct (streq (DNSCheck.Type_ check) (str "A")).
  { destruct (net.LookupIP _ _ _) as [v [e|]]; reflexivity. }
  destruct (streq (DNSCheck.Type_ check) (str "CNAME")).
  { destruct (net.LookupCNAME _ _) as [v [e|]]; reflexivity. }
  destruct (streq (DNSCheck.Type_ check) (str "NS")).
  { destruct (net.LookupNS _ _) as [v [e|]]; reflexivity. }
  destruct (streq (DNSCheck.Type_ check) (str "TXT")).
  { destruct (net.LookupTXT _ _) as [v [e|]]; reflexivity. }
  destruct (streq (DNSCheck.Type_ check) (str "MX")).
  { destruct (net.LookupMX _ _) as [v [e|]]; reflexivity. }
  reflexivity.
Qed.

Lemma lookup_supported (check : DNSCheck.t) (resolver : net.Resolver) :
  lookup check resolver = None <-> supported (DNSCheck.Type_ check) = false.
Proof.
  unfold lookup, supported.
  destruct (streq (DNSCheck.Type_ check) (str "A")).
  { destruct (net.LookupIP _ _ _). split; discriminate. }
  destruct (streq (DNSCheck.Type_ check) (str "CNAME")).
  { destruct (net.LookupCNAME _ _). split; discriminate. }
  destruct (streq (DNSCheck.Type_ check) (str "NS")).
  { destruct (net.LookupNS _ _). split; discriminate. }
  destruct (streq (DNSCheck.Type_ check) (str "TXT")).
  { destruct (net.LookupTXT _ _). split; discriminate. }
  destruct (streq (DNSCheck.Type_ check) (str "MX")).
  { destruct (net.LookupMX _ _). split; discriminate. }
  split; reflexivity.
Qed.


(** C4. When the lookup fails, [performDNSCheck] returns no record and the
    status [<domain>-<type>-ERROR-<error>]: it contains [-ERROR-] and the
    text of the error, and it is neither the PASS nor the FAIL status. *)
Theorem performDNSCheck_error
    (check : DNSCheck.t) (resolver : net.Resolver)
    (values : list gostring) (err : error) :
  lookup check resolver = Some (values, Some err) ->
  let status := fst (performDNSCheck check resolver) in
  snd (performDNSCheck check resolver) = []
  /\ status = DNSCheck.Domain check ++ str "-" ++ DNSCheck.Type_ check
                ++ str "-ERROR-" ++ err
  /\ strings.Contains status (str "-ERROR-") = true
  /\ strings.Contains status err = true
  /\ status <> statusOf check (str "PASS")
  /\ status <> statusOf check (str "FAIL").
Proof.
  intros L status. subst status. rewrite performDNSCheck_lookup, L.
  unfold lookupError. cbn [fst snd].
  split; [reflexivity|]. split; [reflexivity|].
  split.
  { apply Contains_spec.
    exists (DNSCheck.Domain check ++ str "-" ++ DNSCheck.Type_ check), err.
    unfold statusOf. rewrite <- !app_assoc. reflexivity. }
  split.
  { apply Contains_spec.
    exists (DNSCheck.Domain check ++ str "-" ++ DNSCheck.Type_ check
              ++ str "-ERROR-"), [].
    unfold statusOf. rewrite <- !app_assoc, app_nil_r. reflexivity. }
  split; intros H; apply statusOf_inj in H; discriminate.
Qed.

Lemma app_last_neq (a b : gostring) (x y : ascii) :
  x <> y -> a ++ [x] <> b ++ [y].
Proof. intros N H. apply app_inj_tail in H. destruct H as [_ E]. exact (N E). Qed.

(** C7. For a record type other than A, CNAME, NS, TXT and MX,
    [performDNSCheck] returns [<domain>-<type>-UNSUPPORTED] and no record,
    whatever the resolver answers; that status ends in neither [-PASS] nor
    [-FAIL], so it is the PASS or FAIL status of no check. *)
Theorem performDNSCheck_unsupported
    (check : DNSCheck.t) (resolver : net.Resolver) :
  supported (DNSCheck.Type_ check) = false ->
  performDNSCheck check resolver
  = (DNSCheck.Domain check ++ str "-" ++ DNSCheck.Type_ check
       ++ str "-UNSUPPORTED", [])
  /\ (forall prefix,
        fst (performDNSCheck check resolver) <> prefix ++ str "-PASS"
        /\ fst (performDNSCheck check resolver) <> prefix ++ str "-FAIL").
Proof.
  intros U. apply (lookup_supported check resolver) in U.
  rewrite performDNSCheck_lookup, U. cbn [fst].
  split; [reflexivity|]. intros prefix. unfold statusOf.
  change (str "UNSUPPORTED") with (str "UNSUPPORTE" ++ ["D"%char]).
  change (str "-PASS") with (str "-PAS" ++ ["S"%char]).
  change (str "-FAIL") with (str "-FAI" ++ ["L"%char]).
  rewrite !app_assoc. split; apply app_last_neq; discriminate.
Qed.

(** ** The history store *)

Lemma nth_error_setNth {A : Type} (l : list A) (n : nat) (x y : A) :
  nth_error l n = Some y -> nth_error (setNth l n x) n = Some x.
Proof.
  revert n. induction l as [|a l IH]; intros [|n] H; simpl in *;
    try discriminate; [reflexivity | apply IH; exact H].
Qed.

Lemma nth_error_setNth_other {A : Type} (l : list A) (n k : nat) (x : A) :
  n <> k -> nth_error (setNth l n x) k = nth_error l k.
Proof.
  revert n k. induction l as [|a l IH]; intros [|n] [|k] H; simpl;
    try reflexivity; [congruence | apply IH; congruence].
Qed.

Lemma length_setNth {A : Type} (l : list A) (n : nat) (x : A) :
  length (setNth l n x) = length l.
Proof.
  revert n. induction l as [|a l IH]; intros [|n]; simpl; congruence.
Qed.

Lemma getCheck_setCheck (c : Config.t) (i : Z) (check check' : DNSCheck.t) :
  getCheck c i = Some check -> getCheck (setCheck c i check') i = Some check'.
Proof.
  unfold getCheck, setCheck. cbn [Config.Checks].
  destruct (i <? 0); [discriminate|]. apply nth_error_setNth.
Qed.

Lemma getCheck_setCheck_other (c : Config.t) (i j : Z) (check' : DNSCheck.t) :
  0 <= i -> i <> j -> getCheck (setCheck c i check') j = getCheck c j.
Proof.
  intros Hi Hij. unfold getCheck, setCheck. cbn [Config.Checks].
  destruct (j <? 0) eqn:J; [reflexivity|]. apply Z.ltb_ge in J.
  apply nth_error_setNth_other. lia.
Qed.

(** What [updateStatus] leaves in the check it updates. *)
Lemma updateStatus_check (c c' : Config.t) (index : Z) (result : CheckResult.t)
    (now : time.Time) (gos : list Goroutine) :
  updateStatus c index result now = Some (c', gos) ->
  exists check,
    getCheck c index = Some check
    /\ getCheck c' index
       = Some (DNSCheck.mk (DNSCheck.Domain check) (DNSCheck.Type_ check)
                 (DNSCheck.Expected check) (DNSCheck.Interval check)
                 (CheckResult.Status result) (CheckResult.Timestamp result)
                 (keepAfter (cutoffOf now) (DNSCheck.History check ++ [result])))
    /\ Config.Global_ c' = Config.Global_ c
    /\ gos = if streq (Global.LogDir (Config.Global_ c)) [] then []
             else [mkGo index (Global.LogDir (Config.Global_ c))].
Proof.
  unfold updateStatus. destruct (getCheck c index) as [check|] eqn:G;
    [|discriminate].
  intros H. inversion H; subst; clear H. exists check.
  split; [reflexivity|]. split; [|split; reflexivity].
  apply getCheck_setCheck with check. exact G.
Qed.

Lemma updateStatus_some (c : Config.t) (index : Z) (result : CheckResult.t)
    (now : time.Time) (check : DNSCheck.t) :
  getCheck c index = Some check ->
  exists c' gos, updateStatus c index result now = Some (c', gos).
Proof. intros G. unfold updateStatus. rewrite G. eauto. Qed.

(** [performDNSCheck] reads the domain, the type and the expected value of
    the check, nothing else. *)
Lemma performDNSCheck_ext (a b : DNSCheck.t) (resolver : net.Resolver) :
  DNSCheck.Domain a = DNSCheck.Domain b ->
  DNSCheck.Type_ a = DNSCheck.Type_ b ->
  DNSCheck.Expected a = DNSCheck.Expected b ->
  performDNSCheck a resolver = performDNSCheck b resolver.
Proof.
  destruct a, b. cbn. intros -> -> ->. reflexivity.
Qed.

(** A turn with a secondary resolver is two appends, of the primary and of
    the secondary result of the same check. *)
Lemma tick_secondary (config c2 : Config.t) (i : Z)
    (primary secondary : net.Resolver) (now now1 now2 : time.Time)
    (gos : list Goroutine) :
  tick config i primary (Some secondary) now now1 now2 = Some (c2, gos) ->
  exists check c1 g1 g2,
    getCheck config i = Some check
    /\ updateStatus config i (primaryResult config check primary now) now1
       = Some (c1, g1)
    /\ updateStatus c1 i (secondaryResult config check secondary now) now2
       = Some (c2, g2)
    /\ gos = g1 ++ g2.
Proof.
  unfold tick. destruct (getCheck config i) as [check|] eqn:G; [|discriminate].
  destruct (updateStatus config i (primaryResult config check primary now) now1)
    as [[c1 g1]|] eqn:U1; [|discriminate].
  destruct (updateStatus_check _ _ _ _ _ _ U1) as (ck & Gk & G1 & E1 & _).
  rewrite G in Gk. inversion Gk; subst ck; clear Gk.
  rewrite G1.
  match goal with
  | |- match updateStatus c1 i ?r now2 with _ => _ end = _ -> _ =>
      replace r with (secondaryResult config check secondary now)
  end.
  - destruct (updateStatus c1 i (secondaryResult config check secondary now)
                now2) as [[c3 g3]|] eqn:U2; [|discriminate].
    intros H. inversion H; subst; clear H.
    exists check, c1, g1, g3. auto.
  - unfold secondaryResult. rewrite E1.
    rewrite (performDNSCheck_ext check
               (DNSCheck.mk (DNSCheck.Domain check) (DNSCheck.Type_ check)
                  (DNSCheck.Expected check) (DNSCheck.Interval check)
                  (CheckResult.Status (primaryResult config check primary now))
                  (CheckResult.Timestamp
                     (primaryResult config check primary now))
                  (keepAfter (cutoffOf now1)
                     (DNSCheck.History check
                        ++ [primaryResult config check primary now]))))
      by reflexivity.
    reflexivity.
Qed.

Lemma primaryResult_fields (config : Config.t) (check : DNSCheck.t)
    (resolver : net.Resolver) (now : time.Time) :
  primaryResult config check resolver now
  = CheckResult.mk (fst (performDNSCheck check resolver)) now
      (snd (performDNSCheck check resolver))
      (Global.DNSServer (Config.Global_ config)).
Proof.
  unfold primaryResult. destruct (performDNSCheck check resolver). reflexivity.
Qed.

Lemma secondaryResult_fields (config : Config.t) (check : DNSCheck.t)
    (resolver : net.Resolver) (now : time.Time) :
  secondaryResult config check resolver now
  = CheckResult.mk (fst (performDNSCheck check resolver)) now
      (snd (performDNSCheck check resolver))
      (Global.SecondaryDNSServer (Config.Global_ config)).
Proof.
  unfold secondaryResult. destruct (performDNSCheck check resolver).
  reflexivity.
Qed.

(** C5. After [updateStatus] the status of the check is the status of the
    appended result and its last-check time is the timestamp of that result;
    hence after a turn that appends a primary and a secondary result, they
    are those of the secondary result. *)
Theorem updateStatus_last_write_wins :
  (forall c c' index result now gos,
      updateStatus c index result now = Some (c', gos) ->
      exists check', getCheck c' index = Some check'
        /\ DNSCheck.Status check' = CheckResult.Status result
        /\ DNSCheck.LastCheck check' = CheckResult.Timestamp result)
  /\ (forall config c2 i primary secondary now now1 now2 gos,
        tick config i primary (Some secondary) now now1 now2 = Some (c2, gos) ->
        exists check check2,
          getCheck config i = Some check
          /\ getCheck c2 i = Some check2
          /\ DNSCheck.Status check2
             = CheckResult.Status (secondaryResult config check secondary now)
          /\ DNSCheck.LastCheck check2
             = CheckResult.Timestamp
                 (secondaryResult config check secondary now)
          /\ DNSCheck.LastCheck check2 = now).
Proof.
  split.
  - intros c c' index result now gos U.
    destruct (updateStatus_check _ _ _ _ _ _ U) as (check & G & G' & _).
    eexists. split; [exact G'|]. split; reflexivity.
  - intros config c2 i primary secondary now now1 now2 gos T.
    destruct (tick_secondary _ _ _ _ _ _ _ _ _ T)
      as (check & c1 & g1 & g2 & G & U1 & U2 & _).
    destruct (updateStatus_check _ _ _ _ _ _ U2) as (ck & Gk & G2 & _).
    exists check. eexists. split; [exact G|]. split; [exact G2|].
    cbn [DNSCheck.Status DNSCheck.LastCheck].
    rewrite secondaryResult_fields. cbn. auto.
Qed.

(** A line of the log adds at most one entry; the entry is within the
    window and its record list is not empty. *)
Lemma loadLine_cases (cutoff : time.Time) (h : list CheckResult.t)
    (line : gostring) :
  loadLine cutoff h line = h
  \/ exists e, loadLine cutoff h line = h ++ [e]
       /\ time.After (CheckResult.Timestamp e) cutoff = true
       /\ CheckResult.ActualResult e <> []
       /\ time_Parse (nth 0 (strings.Split line tab) [])
          = Some (CheckResult.Timestamp e)
       /\ (4 <= length (strings.Split line tab))%nat.
Proof.
  unfold loadLine. destruct (streq line []); [left; reflexivity|].
  destruct (length (strings.Split line tab) <? 4)%nat eqn:L;
    [left; reflexivity|]. apply Nat.ltb_ge in L.
  destruct (time_Parse (nth 0 (strings.Split line tab) [])) as [ts|];
    [|left; reflexivity].
  destruct (time.After ts cutoff) eqn:A; [|left; reflexivity].
  right. eexists. split; [reflexivity|]. cbn [CheckResult.Timestamp
    CheckResult.ActualResult]. split; [exact A|]. split; [|auto].
  apply Split_nonempty. discriminate.
Qed.

Lemma loadLines_entries (cutoff : time.Time) (lines : list gostring)
    (h : list CheckResult.t) (e : CheckResult.t) :
  In e (fold_left (loadLine cutoff) lines h) ->
  In e h \/ (time.After (CheckResult.Timestamp e) cutoff = true
             /\ CheckResult.ActualResult e <> []).
Proof.
  revert h. induction lines as [|line lines IH]; intros h H; simpl in H.
  - left. exact H.
  - apply IH in H. destruct H as [H|H]; [|right; exact H].
    destruct (loadLine_cases cutoff h line) as [E|(e' & E & A & N & _)];
      rewrite E in H; [left; exact H|].
    apply in_app_or in H. destruct H as [H|[H|[]]]; [left; exact H|].
    subst e'. right. auto.
Qed.

Lemma loadHistoryFromLog_entries (check : DNSCheck.t) (logFile : gostring)
    (fs : FS) (now : time.Time) (e : CheckResult.t) :
  In e (DNSCheck.History (fst (loadHistoryFromLog check logFile fs now))) ->
  In e (DNSCheck.History check)
  \/ (inWindow now e = true /\ CheckResult.ActualResult e <> []).
Proof.
  unfold loadHistoryFromLog.
  destruct (os.ReadFile fs logFile) as [data [err|]]; cbn [fst].
  - intros H. left. exact H.
  - cbn [withHistory DNSCheck.History]. apply loadLines_entries.
Qed.

Lemma initCheck_entries (g : Global.t) (fs : FS) (now : time.Time)
    (check : DNSCheck.t) (e : CheckResult.t) :
  In e (DNSCheck.History (initCheck g fs now check)) ->
  inWindow now e = true /\ CheckResult.ActualResult e <> [].
Proof.
  unfold initCheck. destruct (os.Stat fs _).
  - cbn. (tidy; tauto).
  - intros H. apply loadHistoryFromLog_entries in H.
    destruct H as [H|H]; [destruct H | exact H].
Qed.

(** C3, amended. After an append, the history of the check holds exactly
    the entries of the old history and the new result whose timestamp is
    after the cutoff [time.Now().AddDate(0, 0, -30)]; after a rehydration
    every entry that was read is after the cutoff taken at the rehydration,
    and the history that [loadConfig] rebuilds holds no other entry.  The
    cutoff is thirty days back on the calendar of [time.Local]: a time of
    [time.Local] with the nanoseconds of the current time, whose second is
    the reading of the local wall clock 2592000 seconds (30 times 86400)
    before the current reading, brought to UTC with the offset that
    [time.Local] has in force at that reading or, failing that, at the
    instant which that offset gives.  So the cutoff is away from the instant
    2592000 seconds before the current time by the change of the offset at
    most, and it is that instant when [time.Local] has one offset. *)
Theorem history_within_window :
  (forall c c' index result now gos check',
      updateStatus c index result now = Some (c', gos) ->
      getCheck c' index = Some check' ->
      exists check,
        getCheck c index = Some check
        /\ forall e,
             In e (DNSCheck.History check')
             <-> In e (DNSCheck.History check ++ [result])
                 /\ time.After (CheckResult.Timestamp e) (cutoffOf now) = true)
  /\ (forall check logFile fs now e,
        In e (DNSCheck.History (fst (loadHistoryFromLog check logFile fs now))) ->
        In e (DNSCheck.History check)
        \/ time.After (CheckResult.Timestamp e) (cutoffOf now) = true)
  /\ (forall g fs now check e,
        In e (DNSCheck.History (initCheck g fs now check)) ->
        time.After (CheckResult.Timestamp e) (cutoffOf now) = true)
  /\ (forall now,
        validTime now ->
        let wall := time.localSec now - 2592000 in
        time.nsec (cutoffOf now) = time.nsec now
        /\ time.inLocation time_Local (cutoffOf now)
        /\ (time.unixSec (cutoffOf now) = wall - time.offsetAt time_Local wall
            \/ time.unixSec (cutoffOf now)
               = wall - time.offsetAt time_Local
                          (wall - time.offsetAt time_Local wall)))
  /\ (forall now k,
        validTime now ->
        (forall sec,
            - k <= time.offsetAt time_Local sec - time.zoneOffset now <= k) ->
        - k <= time.unixSec (cutoffOf now) - (time.unixSec now - 2592000) <= k)
  /\ (forall now,
        validTime now ->
        (forall sec, time.offsetAt time_Local sec = time.zoneOffset now) ->
        cutoffOf now
        = time.mkTime (time.unixSec now - 2592000) (time.nsec now)
            (time.zoneOffset now)).
Proof.
  split; [|split; [|split; [|split; [|split]]]].
  - intros c c' index result now gos check' U G'.
    destruct (updateStatus_check _ _ _ _ _ _ U) as (check & G & G1 & _).
    exists check. split; [exact G|]. intros e.
    rewrite G1 in G'. inversion G'; subst check'; clear G'.
    cbn [DNSCheck.History]. unfold keepAfter. rewrite filter_In. reflexivity.
  - intros check logFile fs now e H.
    apply loadHistoryFromLog_entries in H. (tidy; tauto).
  - intros g fs now check e H. apply initCheck_entries in H. (tidy; tauto).
  - intros now V wall. unfold cutoffOf. rewrite AddDate_wall by exact V.
    fold wall. cbn [time.nsec time.unixSec].
    split; [reflexivity|]. split; [reflexivity|].
    apply zoneAdjust_cases.
  - intros now k V B. unfold cutoffOf. rewrite AddDate_wall by exact V.
    cbn [time.unixSec].
    pose proof (B (time.localSec now - 2592000)) as B1.
    pose proof (B (time.localSec now - 2592000
                   - time.offsetAt time_Local (time.localSec now - 2592000)))
      as B2.
    destruct (zoneAdjust_cases time_Local (time.localSec now - 2592000))
      as [E|E]; rewrite E; unfold time.localSec in *; lia.
  - intros now V F. exact (AddDate_30 time_Local now V F).
Qed.

Lemma fold_left_loadLine_skip (cutoff : time.Time) (bad : gostring)
    (h : list CheckResult.t) :
  (length (strings.Split bad tab) < 4)%nat
  \/ time_Parse (nth 0 (strings.Split bad tab) []) = None ->
  loadLine cutoff h bad = h.
Proof.
  intros H. unfold loadLine. destruct (streq bad []); [reflexivity|].
  destruct (length (strings.Split bad tab) <? 4)%nat eqn:L; [reflexivity|].
  apply Nat.ltb_ge in L. destruct H as [H|H]; [lia|]. rewrite H. reflexivity.
Qed.

(** C8. A line of the log with fewer than four tab-separated fields, or
    whose first field [time.Parse] rejects, adds no entry: the history is
    the one that the other lines give, and [loadHistoryFromLog] returns no
    error. *)
Theorem loadHistoryFromLog_skips_bad_line
    (check : DNSCheck.t) (logFile : gostring) (fs : FS) (now : time.Time)
    (data : gostring) (before after : list gostring) (bad : gostring) :
  os.ReadFile fs logFile = (data, None) ->
  strings.Split data newline = before ++ bad :: after ->
  (length (strings.Split bad tab) < 4)%nat
  \/ time_Parse (nth 0 (strings.Split bad tab) []) = None ->
  loadHistoryFromLog check logFile fs now
  = (withHistory check
       (fold_left (loadLine (cutoffOf now)) (before ++ after)
          (DNSCheck.History check)),
     None)
  /\ forall h, loadLine (cutoffOf now) h bad = h.
Proof.
  intros R S B. split.
  - unfold loadHistoryFromLog. rewrite R, S. f_equal. f_equal.
    rewrite !fold_left_app. cbn [fold_left].
    rewrite fold_left_loadLine_skip by exact B. reflexivity.
  - intros h. apply fold_left_loadLine_skip. exact B.
Qed.

(** ** Persisting and rehydrating *)

Lemma splitFrom_app_sep_any (c : ascii) (a b cur : gostring) :
  strings.splitFrom [c] cur (a ++ c :: b) 0
  = strings.splitFrom [c] cur a 0 ++ strings.splitFrom [c] [] b 0.
Proof.
  revert cur. induction a as [|d a IH]; intros cur.
  - cbn [app strings.splitFrom]. rewrite HasPrefix_single, Ascii.eqb_refl.
    reflexivity.
  - cbn [app strings.splitFrom]. rewrite !HasPrefix_single.
    destruct (Ascii.eqb d c).
    + cbn [Nat.pred length]. rewrite IH. reflexivity.
    + apply IH.
Qed.

(** Splitting at a single byte splits the two sides of any occurrence. *)
Lemma Split_app (c : ascii) (a b : gostring) :
  strings.Split (a ++ c :: b) [c] = strings.Split a [c] ++ strings.Split b [c].
Proof. unfold strings.Split. apply splitFrom_app_sep_any. Qed.

Lemma notin_app (c : ascii) (a b : gostring) :
  ~ In c a -> ~ In c b -> ~ In c (a ++ b).
Proof. intros A B H. apply in_app_or in H. (tidy; tauto). Qed.

Lemma plain_app (a b : gostring) : plain a -> plain b -> plain (a ++ b).
Proof.
  unfold plain. intros [A1 A2] [B1 B2].
  split; intros H; apply in_app_or in H; (tidy; tauto).
Qed.

Lemma plain_comma : plain comma.
Proof.
  split; intros [H|[]]; discriminate.
Qed.

Lemma Join_plain (l : list gostring) :
  Forall plain l -> plain (strings.Join l comma).
Proof.
  induction l as [|e l IH]; intros H.
  - split; intros [].
  - inversion H; subst. destruct l as [|e' l]; [assumption|].
    change (strings.Join (e :: e' :: l) comma)
      with (e ++ comma ++ strings.Join (e' :: l) comma).
    apply plain_app; [assumption|]. apply plain_app; [apply plain_comma|].
    apply IH. assumption.
Qed.

Lemma printable_plain (s : gostring) :
  Forall (fun c => 43 <= byteval c) s -> plain s.
Proof.
  intros H. rewrite Forall_forall in H.
  split; intros X; apply H in X; cbn in X; lia.
Qed.

(** The four fields of a written line come back from [Split]. *)
Lemma Split_fields (f0 f1 f2 f3 : gostring) :
  plain f0 -> plain f1 -> plain f2 -> plain f3 ->
  strings.Split (f0 ++ tab ++ f1 ++ tab ++ f2 ++ tab ++ f3) tab
  = [f0; f1; f2; f3].
Proof.
  intros [P0 _] [P1 _] [P2 _] [P3 _]. unfold tab. cbn [app].
  rewrite !Split_app_sep by assumption.
  rewrite Split_no_sep by assumption. reflexivity.
Qed.

(** The line written for a result, read back. *)
Lemma loadLine_logEntry (cutoff : time.Time) (h : list CheckResult.t)
    (result : CheckResult.t) :
  parseLaw ->
  writable (CheckResult.Timestamp result) ->
  plain (CheckResult.Status result) ->
  plain (CheckResult.Server result) ->
  Forall plain (CheckResult.ActualResult result) ->
  time.After (time.truncSecond (CheckResult.Timestamp result)) cutoff = true ->
  exists line,
    logEntry result = line ++ newline
    /\ ~ In "010"%char line
    /\ loadLine cutoff h line = h ++ [rehydrated result].
Proof.
  intros time_Parse_RFC3339 (Wy & Wz & Wm) PS PV PR A.
  set (ts := time.FormatRFC3339 (CheckResult.Timestamp result)).
  set (joined := strings.Join (CheckResult.ActualResult result) comma).
  assert (Pts : plain ts)
    by (apply printable_plain, Format_printable; assumption).
  assert (Pj : plain joined) by (apply Join_plain; assumption).
  exists (ts ++ tab ++ CheckResult.Status result ++ tab
            ++ CheckResult.Server result ++ tab ++ joined).
  split; [unfold logEntry; fold ts; fold joined;
          rewrite <- !app_assoc; reflexivity|].
  split.
  { destruct Pts as [_ N0], PS as [_ N1], PV as [_ N2], Pj as [_ N3].
    assert (Nt : ~ In "010"%char tab) by (intros [H|[]]; discriminate).
    repeat (apply notin_app; [assumption|]). assumption. }
  unfold loadLine.
  replace (streq _ []) with false.
  2:{ symmetry. apply streq_false. unfold ts. intros E.
      apply (f_equal (@length ascii)) in E. rewrite length_app in E.
      assert (time.parseRFC3339 (time.FormatRFC3339
                (CheckResult.Timestamp result)) <> None)
        by (rewrite parseRFC3339_Format by assumption; discriminate).
      destruct (time.FormatRFC3339 (CheckResult.Timestamp result));
        [apply H; reflexivity | cbn in E; lia]. }
  rewrite Split_fields by assumption.
  cbn [length Nat.ltb Nat.leb nth].
  rewrite (time_Parse_RFC3339 ts (time.truncSecond (CheckResult.Timestamp result)))
    by (apply parseRFC3339_Format; assumption).
  rewrite A. reflexivity.
Qed.

Lemma loadLine_empty (cutoff : time.Time) (h : list CheckResult.t) :
  loadLine cutoff h [] = h.
Proof. reflexivity. Qed.

Lemma loaded_fold (cutoff : time.Time) (lines : list gostring)
    (h : list CheckResult.t) :
  fold_left (loadLine cutoff) lines h
  = h ++ fold_left (loadLine cutoff) lines [].
Proof.
  revert h. induction lines as [|line lines IH]; intros h; cbn [fold_left].
  - rewrite app_nil_r. reflexivity.
  - rewrite IH. rewrite (IH (loadLine cutoff [] line)).
    destruct (loadLine_cases cutoff h line) as [E|(e & E & A & N & P & L)].
    + rewrite E.
      destruct (loadLine_cases cutoff [] line) as [E'|(e' & E' & _)];
        [rewrite E'; reflexivity|].
      exfalso. unfold loadLine in E, E'.
      destruct (streq line []); [destruct (app_cons_not_nil _ _ _ E')|].
      destruct (length (strings.Split line tab) <? 4)%nat;
        [destruct (app_cons_not_nil _ _ _ E')|].
      destruct (time_Parse (nth 0 (strings.Split line tab) []));
        [|destruct (app_cons_not_nil _ _ _ E')].
      destruct (time.After t cutoff);
        [|destruct (app_cons_not_nil _ _ _ E')].
      apply (f_equal (@length _)) in E. rewrite length_app in E.
      cbn in E. lia.
    + rewrite E. unfold loadLine in E |- *.
      destruct (streq line []);
        [apply (f_equal (@length _)) in E; rewrite length_app in E;
         cbn in E; lia|].
      destruct (length (strings.Split line tab) <? 4)%nat;
        [apply (f_equal (@length _)) in E; rewrite length_app in E;
         cbn in E; lia|].
      destruct (time_Parse (nth 0 (strings.Split line tab) []));
        [|apply (f_equal (@length _)) in E; rewrite length_app in E;
          cbn in E; lia].
      destruct (time.After t cutoff);
        [|apply (f_equal (@length _)) in E; rewrite length_app in E;
          cbn in E; lia].
      apply app_inv_head in E. inversion E; subst.
      rewrite <- app_assoc. reflexivity.
Qed.

(** Appending a whole line to a log of whole lines appends what the line
    gives to what the log gave. *)
Lemma loaded_append (cutoff : time.Time) (old line : gostring) :
  old = [] \/ (exists body, old = body ++ newline) ->
  ~ In "010"%char line ->
  loaded cutoff (old ++ line ++ newline)
  = loadLine cutoff (loaded cutoff old) line.
Proof.
  intros O L. unfold loaded, newline in *.
  assert (S1 : strings.Split (line ++ ["010"%char]) ["010"%char] = [line; []]).
  { rewrite Split_app. rewrite Split_no_sep by exact L. reflexivity. }
  destruct O as [->|[body ->]].
  - cbn [app]. rewrite S1. reflexivity.
  - rewrite <- app_assoc. cbn [app]. rewrite Split_app, S1.
    change (body ++ ["010"%char]) with (body ++ "010"%char :: []).
    rewrite Split_app. rewrite Split_nil.
    rewrite !fold_left_app. reflexivity.
Qed.

Lemma files_writeFile (fs : FS) (name data : gostring) :
  files (writeFile fs name data) name = Some data.
Proof. cbn. rewrite streq_refl. reflexivity. Qed.

Lemma files_writeFile_other (fs : FS) (name other data : gostring) :
  other <> name -> files (writeFile fs name data) other = files fs other.
Proof.
  intros H. cbn. apply streq_false in H. rewrite H. reflexivity.
Qed.

(** [MkdirAll] touches no file; when it succeeds the directory exists. *)
Lemma MkdirAll_ok (fs : FS) (path : gostring) :
  faults fs OpMkdirAll path = None ->
  exists fs0,
    os.MkdirAll fs path = (fs0, None)
    /\ faults fs0 = faults fs
    /\ files fs0 = files fs
    /\ In path (dirs fs0)
    /\ (forall d, In d (dirs fs) -> In d (dirs fs0)).
Proof.
  intros F. unfold os.MkdirAll. rewrite F.
  destruct (existsb (streq path) (dirs fs)) eqn:E.
  - exists fs. repeat split; auto.
    apply existsb_exists in E. destruct E as (d & Hd & E).
    apply streq_true in E. subst d. exact Hd.
  - eexists. split; [reflexivity|]. cbn [faults files dirs].
    repeat split; [left; reflexivity | intros d H; right; exact H].
Qed.

(** With no fault, [saveCheckToLog] appends the entry of the last result
    of the history to the log of the check, and touches no other file. *)
Lemma saveCheckToLog_appends (check : DNSCheck.t) (logDir : gostring)
    (fs : FS) (result : CheckResult.t) (earlier : list CheckResult.t) :
  let name := logFileName logDir (DNSCheck.Domain check) (DNSCheck.Type_ check) in
  noFaults fs logDir name ->
  DNSCheck.History check = earlier ++ [result] ->
  files (saveCheckToLog check logDir fs) name
  = Some (content fs name ++ logEntry result)
  /\ faults (saveCheckToLog check logDir fs) = faults fs
  /\ forall other, other <> name ->
       files (saveCheckToLog check logDir fs) other = files fs other.
Proof.
  intros name (F1 & F2 & F3 & _) H. unfold saveCheckToLog. fold name.
  destruct (MkdirAll_ok fs logDir F1) as (fs0 & M & M1 & M2 & _).
  rewrite M. unfold os.OpenFile. rewrite M1, M2, F2.
  rewrite H, rev_app_distr. cbn [rev app]. unfold content.
  destruct (files fs name) as [old|] eqn:E.
  - unfold os.WriteString. rewrite M1, M2, F3, E. cbn [fst].
    split; [apply files_writeFile|]. split; [exact M1|].
    intros other N. rewrite files_writeFile_other by exact N.
    rewrite M2. reflexivity.
  - unfold os.WriteString. cbn [faults writeFile]. rewrite M1, F3.
    rewrite files_writeFile. cbn [fst app].
    split; [apply files_writeFile|]. split; [exact M1|].
    intros other N. rewrite !files_writeFile_other by exact N.
    rewrite M2. reflexivity.
Qed.

(** With no fault, the history that [loadConfig] gives a check is what its
    log gives, and is empty when there is no log. *)
Lemma initCheck_loaded (g : Global.t) (fs : FS) (now : time.Time)
    (check : DNSCheck.t) :
  let name := logFileName (Global.LogDir g) (DNSCheck.Domain check)
                (DNSCheck.Type_ check) in
  faults fs OpStat name = None ->
  faults fs OpReadFile name = None ->
  DNSCheck.History (initCheck g fs now check)
  = match files fs name with
    | Some data => loaded (cutoffOf now) data
    | None => []
    end.
Proof.
  intros name F4 F5. unfold initCheck. fold name.
  unfold os.Stat. rewrite F4.
  destruct (files fs name) as [data|] eqn:E; [|reflexivity].
  unfold loadHistoryFromLog, os.ReadFile. rewrite F5, E. reflexivity.
Qed.

(** Append, persist, rehydrate, in general: the history read back is the
    history that the log gave before, then the result as it comes back. *)
Lemma roundTrip_history (c : Config.t) (index : Z) (check : DNSCheck.t)
    (result : CheckResult.t) (now1 now2 : time.Time) (fs : FS) :
  let logDir := Global.LogDir (Config.Global_ c) in
  let name := logFileName logDir (DNSCheck.Domain check) (DNSCheck.Type_ check) in
  parseLaw ->
  getCheck c index = Some check ->
  logDir <> [] ->
  noFaults fs logDir name ->
  wholeLines fs name ->
  inWindow now1 result = true ->
  time.After (time.truncSecond (CheckResult.Timestamp result)) (cutoffOf now2)
  = true ->
  writable (CheckResult.Timestamp result) ->
  plain (CheckResult.Status result) ->
  plain (CheckResult.Server result) ->
  Forall plain (CheckResult.ActualResult result) ->
  roundTrip c index result now1 now2 fs
  = Some (DNSCheck.History (initCheck (Config.Global_ c) fs now2 check)
            ++ [rehydrated result]).
Proof.
  intros logDir name PL G LD NF WL W1 W2 WT PS PV PR.
  unfold roundTrip.
  destruct (updateStatus_some c index result now1 check G) as (c1 & gos & U).
  rewrite U.
  destruct (updateStatus_check _ _ _ _ _ _ U) as (ck & Gk & G1 & EG & Egos).
  rewrite G in Gk. inversion Gk; subst ck; clear Gk.
  fold logDir in Egos. apply streq_false in LD. rewrite LD in Egos.
  subst gos. cbn [fold_left]. unfold runGoroutine. cbn [go_check go_logDir].
  rewrite G1.
  set (check1 := DNSCheck.mk _ _ _ _ _ _ _).
  assert (H1 : DNSCheck.History check1
               = keepAfter (cutoffOf now1) (DNSCheck.History check) ++ [result]).
  { unfold check1. cbn [DNSCheck.History]. unfold keepAfter.
    rewrite filter_app. cbn [filter]. rewrite W1. reflexivity. }
  destruct (saveCheckToLog_appends check1 logDir fs result _ NF H1)
    as (S1 & S2 & _).
  change (DNSCheck.Domain check1) with (DNSCheck.Domain check) in S1.
  change (DNSCheck.Type_ check1) with (DNSCheck.Type_ check) in S1.
  fold name in S1.
  destruct NF as (F1 & F2 & F3 & F4 & F5).
  f_equal. rewrite EG.
  pose proof (initCheck_loaded (Config.Global_ c) (saveCheckToLog check1 logDir fs)
                now2 check1) as I1.
  cbv zeta in I1.
  change (DNSCheck.Domain check1) with (DNSCheck.Domain check) in I1.
  change (DNSCheck.Type_ check1) with (DNSCheck.Type_ check) in I1.
  fold logDir in I1. fold name in I1.
  rewrite S2 in I1. rewrite (I1 F4 F5), S1. clear I1.
  pose proof (initCheck_loaded (Config.Global_ c) fs now2 check) as I0.
  cbv zeta in I0. fold logDir in I0. fold name in I0.
  rewrite (I0 F4 F5). clear I0.
  destruct (loadLine_logEntry (cutoffOf now2)
              (loaded (cutoffOf now2) (content fs name)) result
              PL WT PS PV PR W2) as (line & EL & NL & LL).
  rewrite EL. rewrite loaded_append; [|  | exact NL].
  - rewrite LL. unfold content.
    destruct (files fs name); reflexivity.
  - unfold content. destruct (files fs name) as [old|] eqn:E;
      [apply WL; exact E | left; reflexivity].
Qed.

(** C2, amended. A result whose timestamp is within the window when it is
    appended and, cut to the second, when it is read back, whose timestamp
    [time.RFC3339] can write, whose status, server and records hold no tab
    and no newline, and whose record list is not empty and holds no comma,
    comes back from the log as the last entry of the rehydrated history,
    equal to the original in status, server and records, with the
    timestamp cut to the second. *)
Theorem roundTrip_equivalent (c : Config.t) (index : Z) (check : DNSCheck.t)
    (result : CheckResult.t) (now1 now2 : time.Time) (fs : FS) :
  let logDir := Global.LogDir (Config.Global_ c) in
  let name := logFileName logDir (DNSCheck.Domain check) (DNSCheck.Type_ check) in
  parseLaw ->
  getCheck c index = Some check ->
  logDir <> [] ->
  noFaults fs logDir name ->
  wholeLines fs name ->
  inWindow now1 result = true ->
  time.After (time.truncSecond (CheckResult.Timestamp result)) (cutoffOf now2)
  = true ->
  writable (CheckResult.Timestamp result) ->
  plain (CheckResult.Status result) ->
  plain (CheckResult.Server result) ->
  Forall plain (CheckResult.ActualResult result) ->
  CheckResult.ActualResult result <> [] ->
  Forall (fun record => ~ In ","%char record) (CheckResult.ActualResult result) ->
  exists earlier back,
    roundTrip c index result now1 now2 fs = Some (earlier ++ [back])
    /\ equivalent back result
    /\ CheckResult.Timestamp back
       = time.truncSecond (CheckResult.Timestamp result).
Proof.
  intros logDir name PL G LD NF WL W1 W2 WT PS PV PR NE NC.
  exists (DNSCheck.History (initCheck (Config.Global_ c) fs now2 check)),
         (rehydrated result).
  split; [apply roundTrip_history; assumption|].
  unfold equivalent, rehydrated.
  cbn [CheckResult.Status CheckResult.Server CheckResult.Timestamp
       CheckResult.ActualResult time.truncSecond time.unixSec].
  repeat split. unfold comma. apply Split_Join; assumption.
Qed.

(** C10. Every entry that a rehydration reads has a record list with at
    least one element, since [strings.Split] never returns an empty list;
    so a result persisted with an empty record list comes back with the
    record list that holds one empty string. *)
Theorem rehydrated_records_never_empty :
  (forall check logFile fs now e,
      In e (DNSCheck.History (fst (loadHistoryFromLog check logFile fs now))) ->
      In e (DNSCheck.History check) \/ CheckResult.ActualResult e <> [])
  /\ (forall g fs now check e,
        In e (DNSCheck.History (initCheck g fs now check)) ->
        CheckResult.ActualResult e <> [])
  /\ (forall c index check result now1 now2 fs,
        let logDir := Global.LogDir (Config.Global_ c) in
        let name := logFileName logDir (DNSCheck.Domain check)
                      (DNSCheck.Type_ check) in
        parseLaw ->
        getCheck c index = Some check ->
        logDir <> [] ->
        noFaults fs logDir name ->
        wholeLines fs name ->
        inWindow now1 result = true ->
        time.After (time.truncSecond (CheckResult.Timestamp result))
          (cutoffOf now2) = true ->
        writable (CheckResult.Timestamp result) ->
        plain (CheckResult.Status result) ->
        plain (CheckResult.Server result) ->
        CheckResult.ActualResult result = [] ->
        exists earlier back,
          roundTrip c index result now1 now2 fs = Some (earlier ++ [back])
          /\ CheckResult.ActualResult back = [[]]
          /\ CheckResult.Status back = CheckResult.Status result).
Proof.
  split; [|split].
  - intros check logFile fs now e H.
    apply loadHistoryFromLog_entries in H. (tidy; tauto).
  - intros g fs now check e H. apply initCheck_entries in H. (tidy; tauto).
  - intros c index check result now1 now2 fs logDir name
           PL G LD NF WL W1 W2 WT PS PV E.
    exists (DNSCheck.History (initCheck (Config.Global_ c) fs now2 check)),
           (rehydrated result).
    split.
    + apply roundTrip_history; try assumption. rewrite E. constructor.
    + unfold rehydrated. cbn [CheckResult.ActualResult CheckResult.Status].
      rewrite E. split; reflexivity.
Qed.

Lemma secondaryOf_some (DefaultResolver : net.Resolver)
    (dial : gostring -> net.Resolver) (config : Config.t) :
  Global.SecondaryDNSServer (Config.Global_ config) <> [] ->
  secondaryOf DefaultResolver dial config
  = Some (dial (Global.SecondaryDNSServer (Config.Global_ config) ++ str ":53")).
Proof.
  intros H. unfold secondaryOf, createResolver.
  apply streq_false in H. rewrite H. reflexivity.
Qed.

(** C6, amended. In a turn of a check with a secondary resolver
    configured, two results are appended, the primary then the secondary;
    both carry the time captured at the start of the turn, the first
    carries the primary server name and the second the secondary server
    name, so that they differ in the server whenever the two configured
    names differ; when the captured time is within the window at both
    appends, they are the last two entries of the history. *)
Theorem workerTurn_two_results (DefaultResolver : net.Resolver)
    (dial : gostring -> net.Resolver) (config : Config.t) (i : Z)
    (check : DNSCheck.t) (now now1 now2 : time.Time) :
  Global.SecondaryDNSServer (Config.Global_ config) <> [] ->
  getCheck config i = Some check ->
  exists r1 r2 c1 g1 c2 g2,
    updateStatus config i r1 now1 = Some (c1, g1)
    /\ updateStatus c1 i r2 now2 = Some (c2, g2)
    /\ workerTurn DefaultResolver dial config i now now1 now2
       = Some (c2, g1 ++ g2)
    /\ CheckResult.Timestamp r1 = now
    /\ CheckResult.Timestamp r2 = now
    /\ CheckResult.Server r1 = Global.DNSServer (Config.Global_ config)
    /\ CheckResult.Server r2
       = Global.SecondaryDNSServer (Config.Global_ config)
    /\ (Global.DNSServer (Config.Global_ config)
        <> Global.SecondaryDNSServer (Config.Global_ config) ->
        CheckResult.Server r1 <> CheckResult.Server r2)
    /\ (time.After now (cutoffOf now1) = true ->
        time.After now (cutoffOf now2) = true ->
        exists earlier check2,
          getCheck c2 i = Some check2
          /\ DNSCheck.History check2 = earlier ++ [r1; r2]).
Proof.
  intros S G. unfold workerTurn.
  rewrite (secondaryOf_some _ _ _ S).
  set (primary := createResolver DefaultResolver dial _).
  set (secondary := dial _).
  destruct (updateStatus_some config i
              (primaryResult config check primary now) now1 check G)
    as (c1 & g1 & U1).
  destruct (updateStatus_check _ _ _ _ _ _ U1) as (ck & Gk & G1 & E1 & _).
  rewrite G in Gk. inversion Gk; subst ck; clear Gk.
  destruct (updateStatus_some c1 i
              (secondaryResult config check secondary now) now2 _ G1)
    as (c2 & g2 & U2).
  destruct (updateStatus_check _ _ _ _ _ _ U2) as (ck & Gk & G2 & _).
  rewrite G1 in Gk. inversion Gk; subst ck; clear Gk.
  exists (primaryResult config check primary now),
         (secondaryResult config check secondary now), c1, g1, c2, g2.
  split; [exact U1|]. split; [exact U2|].
  split.
  { unfold tick. rewrite G, U1, G1.
    replace (secondaryResult c1 _ secondary now)
      with (secondaryResult config check secondary now).
    - rewrite U2. reflexivity.
    - unfold secondaryResult. rewrite E1.
      rewrite (performDNSCheck_ext check
                 (DNSCheck.mk (DNSCheck.Domain check) (DNSCheck.Type_ check)
                    (DNSCheck.Expected check) (DNSCheck.Interval check)
                    (CheckResult.Status
                       (primaryResult config check primary now))
                    (CheckResult.Timestamp
                       (primaryResult config check primary now))
                    (keepAfter (cutoffOf now1)
                       (DNSCheck.History check
                          ++ [primaryResult config check primary now]))))
        by reflexivity.
      reflexivity. }
  rewrite primaryResult_fields, secondaryResult_fields in *.
  cbn [CheckResult.Timestamp CheckResult.Server].
  repeat (split; [reflexivity|]). split; [auto|].
  intros A1 A2. eexists. eexists. split; [exact G2|].
  cbn [DNSCheck.History]. unfold keepAfter.
  rewrite !filter_app. cbn [filter CheckResult.Timestamp].
  rewrite A1, A2. cbn [filter app CheckResult.Timestamp]. rewrite A2.
  rewrite <- app_assoc. reflexivity.
Qed.

(** ** Further properties of the history store *)

Lemma getCheck_none (c : Config.t) (index : Z) :
  getCheck c index = None
  <-> index < 0 \/ Z.of_nat (length (Config.Checks c)) <= index.
Proof.
  unfold getCheck. destruct (index <? 0) eqn:L.
  - apply Z.ltb_lt in L. split; [left; exact L | reflexivity].
  - apply Z.ltb_ge in L. rewrite nth_error_None. lia.
Qed.

(** [updateStatus] panics exactly when the index is out of range; otherwise
    it changes the check at the index and nothing else: the global settings,
    the number of checks and every other check are as before, and the
    check keeps its domain, type, expected value and interval. *)
Theorem updateStatus_frame (c : Config.t) (index : Z) (result : CheckResult.t)
    (now : time.Time) :
  (updateStatus c index result now = None
   <-> index < 0 \/ Z.of_nat (length (Config.Checks c)) <= index)
  /\ forall c' gos,
       updateStatus c index result now = Some (c', gos) ->
       Config.Global_ c' = Config.Global_ c
       /\ length (Config.Checks c') = length (Config.Checks c)
       /\ (forall j, j <> index -> getCheck c' j = getCheck c j)
       /\ exists check check',
            getCheck c index = Some check
            /\ getCheck c' index = Some check'
            /\ DNSCheck.Domain check' = DNSCheck.Domain check
            /\ DNSCheck.Type_ check' = DNSCheck.Type_ check
            /\ DNSCheck.Expected check' = DNSCheck.Expected check
            /\ DNSCheck.Interval check' = DNSCheck.Interval check.
Proof.
  split.
  - rewrite <- getCheck_none. unfold updateStatus.
    destruct (getCheck c index); split; try discriminate; reflexivity.
  - intros c' gos U.
    destruct (updateStatus_check _ _ _ _ _ _ U) as (check & G & G' & EG & _).
    split; [exact EG|].
    assert (Hi : 0 <= index).
    { destruct (Z_lt_ge_dec index 0) as [L|L]; [|lia].
      assert (getCheck c index = None) by (apply getCheck_none; lia).
      congruence. }
    unfold updateStatus in U. rewrite G in U. inversion U; subst; clear U.
    split; [unfold setCheck; cbn [Config.Checks]; apply length_setNth|]. split.
    + intros j N. apply getCheck_setCheck_other; [exact Hi | congruence].
    + eexists. eexists. split; [exact G|]. split; [exact G'|].
      repeat split.
Qed.

Lemma lastCheck_app (h : list CheckResult.t) (r : CheckResult.t) :
  lastCheck (h ++ [r]) = Some r.
Proof. unfold lastCheck. rewrite rev_app_distr. reflexivity. Qed.

Lemma keepAfter_length (cutoff : time.Time) (h : list CheckResult.t) :
  (length (keepAfter cutoff h) <= length h)%nat.
Proof.
  unfold keepAfter. induction h as [|e h IH]; simpl; [lia|].
  destruct (time.After _ _); simpl; lia.
Qed.

(** A result within the window becomes the last entry of the history, the
    one that the status page shows, and the history grows by at most one
    entry.  A result outside the window is dropped at once: it is not in the
    history, although the status and the last-check time of the check are
    its own. *)
Theorem updateStatus_newest (c c' : Config.t) (index : Z)
    (result : CheckResult.t) (now : time.Time) (gos : list Goroutine)
    (check check' : DNSCheck.t) :
  updateStatus c index result now = Some (c', gos) ->
  getCheck c index = Some check ->
  getCheck c' index = Some check' ->
  (inWindow now result = true ->
   lastCheck (DNSCheck.History check') = Some result
   /\ (length (DNSCheck.History check')
       <= S (length (DNSCheck.History check)))%nat)
  /\ (inWindow now result = false ->
      DNSCheck.History check' = keepAfter (cutoffOf now) (DNSCheck.History check)
      /\ ~ In result (DNSCheck.History check')
      /\ DNSCheck.Status check' = CheckResult.Status result
      /\ DNSCheck.LastCheck check' = CheckResult.Timestamp result).
Proof.
  intros U G G'.
  destruct (updateStatus_check _ _ _ _ _ _ U) as (ck & Gk & G1 & _).
  rewrite G in Gk. inversion Gk; subst ck; clear Gk.
  rewrite G1 in G'. inversion G'; subst check'; clear G'.
  cbn [DNSCheck.History DNSCheck.Status DNSCheck.LastCheck].
  unfold keepAfter at 1 2 3. rewrite filter_app. cbn [filter].
  split; intros W; rewrite W.
  - split; [apply lastCheck_app|].
    rewrite length_app. cbn [length].
    pose proof (keepAfter_length (cutoffOf now) (DNSCheck.History check)) as L.
    unfold keepAfter in L. lia.
  - rewrite app_nil_r. split; [reflexivity|]. split; [|split; reflexivity].
    intros H. apply filter_In in H. destruct H as [_ H]. congruence.
Qed.

(** ** Further properties of the log *)

Lemma rev_cons_last {A : Type} (l : list A) (x : A) (rest : list A) :
  rev l = x :: rest -> l = rev rest ++ [x].
Proof.
  intros H. rewrite <- (rev_involutive l), H. reflexivity.
Qed.

Lemma OpenFile_ok (fs : FS) (name : gostring) :
  faults fs OpOpenFile name = None ->
  exists fs1,
    os.OpenFile fs name = (fs1, None)
    /\ faults fs1 = faults fs
    /\ dirs fs1 = dirs fs
    /\ (forall other, other <> name -> files fs1 other = files fs other)
    /\ content fs1 name = content fs name
    /\ files fs1 name <> None.
Proof.
  intros F. unfold os.OpenFile, content. rewrite F.
  destruct (files fs name) as [old|] eqn:E.
  - exists fs. rewrite E. repeat split. discriminate.
  - exists (writeFile fs name []). rewrite files_writeFile.
    split; [reflexivity|]. split; [reflexivity|]. split; [reflexivity|].
    split; [|split; [reflexivity | discriminate]].
    intros other N. apply files_writeFile_other. exact N.
Qed.

Lemma WriteString_effect (fs : FS) (name s : gostring) :
  let fs' := fst (os.WriteString fs name s) in
  faults fs' = faults fs
  /\ dirs fs' = dirs fs
  /\ (forall other, other <> name -> files fs' other = files fs other)
  /\ (content fs' name = content fs name
      \/ content fs' name = content fs name ++ s)
  /\ (files fs name <> None -> files fs' name <> None).
Proof.
  unfold os.WriteString, content.
  destruct (faults fs OpWriteString name) as [e|].
  - cbn [fst]. repeat split; auto.
  - destruct (files fs name) as [old|] eqn:E; cbn [fst];
      rewrite files_writeFile;
      (split; [reflexivity|]); (split; [reflexivity|]);
      (split; [|split; [right; reflexivity | discriminate]]);
      intros other N; apply files_writeFile_other; exact N.
Qed.

(** [saveCheckToLog] only appends, and only to the log of its check: every
    other file and the faults are as before; the log keeps what it held and
    gains nothing or the entry of the last result of the history.  It gains
    nothing when the history is empty, and no file changes when the
    directory cannot be made or the file cannot be opened.  The directories
    that were there stay; the log directory is there once [MkdirAll] has
    succeeded, also when the file cannot be opened then; and the log is
    there once the file has been opened, also when the history is empty. *)
Theorem saveCheckToLog_append_only (check : DNSCheck.t) (logDir : gostring)
    (fs : FS) :
  let name := logFileName logDir (DNSCheck.Domain check) (DNSCheck.Type_ check) in
  let fs' := saveCheckToLog check logDir fs in
  faults fs' = faults fs
  /\ (forall other, other <> name -> files fs' other = files fs other)
  /\ (content fs' name = content fs name
      \/ exists earlier result,
           DNSCheck.History check = earlier ++ [result]
           /\ content fs' name = content fs name ++ logEntry result)
  /\ (DNSCheck.History check = [] -> content fs' name = content fs name)
  /\ (faults fs OpMkdirAll logDir <> None
      \/ faults fs OpOpenFile name <> None -> files fs' = files fs)
  /\ (forall d, In d (dirs fs) -> In d (dirs fs'))
  /\ (faults fs OpMkdirAll logDir = None -> In logDir (dirs fs'))
  /\ (faults fs OpMkdirAll logDir = None ->
      faults fs OpOpenFile name = None -> files fs' name <> None).
Proof.
  intros name fs'. subst fs'. unfold saveCheckToLog. fold name.
  destruct (faults fs OpMkdirAll logDir) as [e1|] eqn:F1.
  { unfold os.MkdirAll. rewrite F1.
    repeat split; auto; try discriminate. }
  destruct (MkdirAll_ok fs logDir F1) as (fs0 & M & M1 & M2 & M3 & M4).
  rewrite M.
  destruct (faults fs OpOpenFile name) as [e2|] eqn:F2.
  { unfold os.OpenFile. rewrite M1, F2. unfold content. rewrite M2.
    repeat split; auto; try discriminate. }
  assert (F2' : faults fs0 OpOpenFile name = None) by (rewrite M1; exact F2).
  destruct (OpenFile_ok fs0 name F2') as (fs1 & O & O1 & Od & O2 & O3 & O4).
  rewrite O.
  assert (C0 : content fs0 name = content fs name)
    by (unfold content; rewrite M2; reflexivity).
  destruct (rev (DNSCheck.History check)) as [|result rest] eqn:R.
  - split; [congruence|]. split.
    { intros other N. rewrite O2 by exact N. rewrite M2. reflexivity. }
    split; [left; congruence|]. split; [intros _; congruence|].
    split; [intros [X|X]; congruence|]. rewrite Od.
    split; [exact M4|]. split; [intros _; exact M3 | intros _ _; exact O4].
  - apply rev_cons_last in R.
    destruct (WriteString_effect fs1 name (logEntry result))
      as (W1 & Wd & W2 & W3 & W4).
    split; [congruence|]. split.
    { intros other N. rewrite W2 by exact N. rewrite O2 by exact N.
      rewrite M2. reflexivity. }
    split.
    { destruct W3 as [W3|W3]; [left; congruence|].
      right. exists (rev rest), result. split; [exact R|]. congruence. }
    split.
    { intros E. rewrite E in R. destruct (rev rest); discriminate R. }
    split; [intros [X|X]; congruence|]. rewrite Wd, Od.
    split; [exact M4|]. split; [intros _; exact M3|].
    intros _ _. apply W4. exact O4.
Qed.

Lemma noFaults_same (fs fs' : FS) (logDir name : gostring) :
  faults fs' = faults fs -> noFaults fs logDir name -> noFaults fs' logDir name.
Proof. unfold noFaults. intros ->. auto. Qed.

Lemma content_saveCheckToLog (check : DNSCheck.t) (logDir : gostring)
    (fs : FS) (result : CheckResult.t) (earlier : list CheckResult.t) :
  let name := logFileName logDir (DNSCheck.Domain check) (DNSCheck.Type_ check) in
  noFaults fs logDir name ->
  DNSCheck.History check = earlier ++ [result] ->
  content (saveCheckToLog check logDir fs) name
  = content fs name ++ logEntry result
  /\ noFaults (saveCheckToLog check logDir fs) logDir name.
Proof.
  intros name NF H.
  destruct (saveCheckToLog_appends check logDir fs result earlier NF H)
    as (S1 & S2 & _).
  fold name in S1. split.
  - unfold content at 1. rewrite S1. reflexivity.
  - apply (noFaults_same fs); assumption.
Qed.

(** A goroutine of [saveCheckToLog] writes the last entry that the history
    has when it runs.  So when the two goroutines of a turn with a secondary
    resolver run after both appends, the log gains the entry of the
    secondary result twice and the entry of the primary result is never
    written. *)
Theorem late_goroutines_write_secondary_twice
    (DefaultResolver : net.Resolver) (dial : gostring -> net.Resolver)
    (config c2 : Config.t) (i : Z) (check : DNSCheck.t)
    (now now1 now2 : time.Time) (gos : list Goroutine) (fs : FS) :
  let logDir := Global.LogDir (Config.Global_ config) in
  let name := logFileName logDir (DNSCheck.Domain check) (DNSCheck.Type_ check) in
  let secondary :=
    dial (Global.SecondaryDNSServer (Config.Global_ config) ++ str ":53") in
  Global.SecondaryDNSServer (Config.Global_ config) <> [] ->
  getCheck config i = Some check ->
  logDir <> [] ->
  noFaults fs logDir name ->
  time.After now (cutoffOf now2) = true ->
  workerTurn DefaultResolver dial config i now now1 now2 = Some (c2, gos) ->
  gos = [mkGo i logDir; mkGo i logDir]
  /\ content (fold_left (fun fs g => runGoroutine c2 g fs) gos fs) name
     = content fs name
         ++ logEntry (secondaryResult config check secondary now)
         ++ logEntry (secondaryResult config check secondary now).
Proof.
  intros logDir name secondary S G LD NF A2 T.
  unfold workerTurn in T. rewrite (secondaryOf_some _ _ _ S) in T.
  fold secondary in T.
  destruct (tick_secondary _ _ _ _ _ _ _ _ _ T)
    as (ck & c1 & g1 & g2 & Gk & U1 & U2 & Egos).
  rewrite G in Gk. inversion Gk; subst ck; clear Gk.
  destruct (updateStatus_check _ _ _ _ _ _ U1) as (ck & Gk & G1 & E1 & Eg1).
  rewrite G in Gk. inversion Gk; subst ck; clear Gk.
  destruct (updateStatus_check _ _ _ _ _ _ U2) as (ck & Gk & G2 & E2 & Eg2).
  rewrite G1 in Gk. inversion Gk; subst ck; clear Gk.
  cbn [DNSCheck.Domain DNSCheck.Type_ DNSCheck.Expected DNSCheck.Interval
       DNSCheck.History] in G2.
  rewrite E1 in Eg2. fold logDir in Eg1, Eg2.
  apply streq_false in LD. rewrite LD in Eg1, Eg2. subst g1 g2 gos.
  split; [reflexivity|].
  cbn [app fold_left]. unfold runGoroutine. cbn [go_check go_logDir].
  rewrite G2.
  set (r2 := secondaryResult config check secondary now) in *.
  set (check2 := DNSCheck.mk _ _ _ _ _ _ _).
  assert (H2 : exists earlier, DNSCheck.History check2 = earlier ++ [r2]).
  { unfold check2. cbn [DNSCheck.History]. unfold keepAfter at 1.
    rewrite filter_app. cbn [filter].
    replace (CheckResult.Timestamp r2) with now
      by (unfold r2; rewrite secondaryResult_fields; reflexivity).
    rewrite A2. eexists. reflexivity. }
  destruct H2 as [earlier H2].
  destruct (content_saveCheckToLog check2 logDir fs r2 earlier NF H2)
    as [C1 NF1].
  destruct (content_saveCheckToLog check2 logDir
              (saveCheckToLog check2 logDir fs) r2 earlier NF1 H2)
    as [C2 _].
  change (DNSCheck.Domain check2) with (DNSCheck.Domain check) in C1, C2.
  change (DNSCheck.Type_ check2) with (DNSCheck.Type_ check) in C1, C2.
  fold name in C1, C2. rewrite C2, C1. rewrite <- app_assoc. reflexivity.
Qed.

(** ** Further properties of the start-up *)

(** [loadHistoryFromLog] appends to the history it is given: the entries
    already there are kept, in order and whatever their age, and the entries
    of the log follow them; loading the same log twice doubles its entries.
    When the file cannot be read, the check is returned as it is, with the
    error of the read in the text of the error. *)
Theorem loadHistoryFromLog_appends (check : DNSCheck.t) (logFile : gostring)
    (fs : FS) (now : time.Time) :
  (forall data,
      os.ReadFile fs logFile = (data, None) ->
      let check1 := fst (loadHistoryFromLog check logFile fs now) in
      loadHistoryFromLog check logFile fs now
      = (withHistory check
           (DNSCheck.History check ++ loaded (cutoffOf now) data), None)
      /\ DNSCheck.History (fst (loadHistoryFromLog check1 logFile fs now))
         = DNSCheck.History check ++ loaded (cutoffOf now) data
             ++ loaded (cutoffOf now) data)
  /\ (forall data err,
        os.ReadFile fs logFile = (data, Some err) ->
        loadHistoryFromLog check logFile fs now
        = (check, Some (str "error reading history file " ++ logFile
                          ++ str ": " ++ err))).
Proof.
  split.
  - intros data R check1. subst check1.
    unfold loadHistoryFromLog. rewrite R. cbn [fst withHistory DNSCheck.History].
    rewrite (loaded_fold _ _ (DNSCheck.History check)).
    rewrite (loaded_fold _ _ (DNSCheck.History check ++ _)).
    unfold loaded. rewrite <- app_assoc. split; reflexivity.
  - intros data err R. unfold loadHistoryFromLog. rewrite R. reflexivity.
Qed.

Lemma initCheck_fields (g : Global.t) (fs : FS) (now : time.Time)
    (check : DNSCheck.t) :
  let check' := initCheck g fs now check in
  DNSCheck.Domain check' = DNSCheck.Domain check
  /\ DNSCheck.Type_ check' = DNSCheck.Type_ check
  /\ DNSCheck.Expected check' = DNSCheck.Expected check
  /\ DNSCheck.Status check' = str "PENDING"
  /\ DNSCheck.Interval check'
     = (if DNSCheck.Interval check =? 0 then Global.DefaultInterval g
        else DNSCheck.Interval check).
Proof.
  unfold initCheck. destruct (os.Stat fs _); [repeat split|].
  unfold loadHistoryFromLog. destruct (os.ReadFile fs _) as [data [e|]];
    repeat split.
Qed.

Lemma initChecks_spec (g : Global.t) (fs : FS) (clock : nat -> time.Time)
    (checks : list DNSCheck.t) (i k : nat) :
  nth_error (initChecks g fs clock i checks) k
  = option_map (initCheck g fs (clock (i + k)%nat)) (nth_error checks k).
Proof.
  revert i k. induction checks as [|check rest IH]; intros i [|k]; simpl;
    try reflexivity.
  - rewrite Nat.add_0_r. reflexivity.
  - rewrite IH. replace (S i + k)%nat with (i + S k)%nat by lia. reflexivity.
Qed.

Lemma globalDefaults_fields (g : Global.t) :
  let g' := globalDefaults g in
  Global.DefaultInterval g' <> 0
  /\ Global.LogDir g' <> []
  /\ strings.HasPrefix (Global.Port g') (str ":") = true
  /\ Global.DNSServer g' = Global.DNSServer g
  /\ Global.SecondaryDNSServer g' = Global.SecondaryDNSServer g.
Proof.
  unfold globalDefaults. cbn [Global.DefaultInterval Global.LogDir Global.Port
    Global.DNSServer Global.SecondaryDNSServer].
  split.
  { destruct (Z.eqb_spec (Global.DefaultInterval g) 0); [discriminate|assumption]. }
  split.
  { destruct (streq (Global.LogDir g) []) eqn:E; [discriminate|].
    apply streq_false in E. exact E. }
  split; [|split; reflexivity].
  destruct (strings.HasPrefix
              (if streq (Global.Port g) [] then str "8080" else Global.Port g)
              (str ":")) eqn:P; [exact P|].
  apply HasPrefix_spec. eexists. reflexivity.
Qed.

(** The settings that a default replaces, and those that are kept. *)
Lemma globalDefaults_cases (g : Global.t) :
  let g' := globalDefaults g in
  (Global.DefaultInterval g = 0 -> Global.DefaultInterval g' = 300000000000)
  /\ (Global.DefaultInterval g <> 0 ->
      Global.DefaultInterval g' = Global.DefaultInterval g)
  /\ (Global.LogDir g = [] -> Global.LogDir g' = str "logs")
  /\ (Global.LogDir g <> [] -> Global.LogDir g' = Global.LogDir g)
  /\ (Global.Port g = [] -> Global.Port g' = str ":8080")
  /\ (forall rest, Global.Port g = str ":" ++ rest ->
      Global.Port g' = Global.Port g)
  /\ (Global.Port g <> [] ->
      strings.HasPrefix (Global.Port g) (str ":") = false ->
      Global.Port g' = str ":" ++ Global.Port g).
Proof.
  unfold globalDefaults. cbn [Global.DefaultInterval Global.LogDir Global.Port].
  split; [intros ->; reflexivity|]. split.
  { intros N. apply Z.eqb_neq in N. rewrite N. reflexivity. }
  split; [intros ->; reflexivity|]. split.
  { intros N. apply streq_false in N. rewrite N. reflexivity. }
  split; [intros ->; reflexivity|]. split.
  { intros rest ->. destruct rest; reflexivity. }
  intros N P. apply streq_false in N. rewrite N, P. reflexivity.
Qed.

(** The configuration that [loadConfig] returns.  The default interval is
    the one that was read, and five minutes when none was; the log directory
    is the one that was read, and [logs] when none was; the port is the one
    that was read, and 8080 when none was, after a colon when it had none;
    the servers are as they were read.  There are as many checks, in the
    same order, each with its domain, type and expected value, the status
    PENDING, its own interval, and the default interval when it had none,
    and a history whose entries are all within the window and have a
    record. *)
Theorem loadConfig_defaults
    (yaml_Unmarshal : gostring -> Config.t + error) (fs : FS)
    (clock : nat -> time.Time) (filename : gostring) (config : Config.t) :
  loadConfig yaml_Unmarshal fs clock filename = inl config ->
  exists data parsed,
    let g := Config.Global_ parsed in
    let g' := Config.Global_ config in
    os.ReadFile fs filename = (data, None)
    /\ yaml_Unmarshal data = inl parsed
    /\ Global.DefaultInterval g' <> 0
    /\ (Global.DefaultInterval g = 0 ->
        Global.DefaultInterval g' = 300000000000)
    /\ (Global.DefaultInterval g <> 0 ->
        Global.DefaultInterval g' = Global.DefaultInterval g)
    /\ Global.LogDir g' <> []
    /\ (Global.LogDir g = [] -> Global.LogDir g' = str "logs")
    /\ (Global.LogDir g <> [] -> Global.LogDir g' = Global.LogDir g)
    /\ strings.HasPrefix (Global.Port g') (str ":") = true
    /\ (Global.Port g = [] -> Global.Port g' = str ":8080")
    /\ (forall rest, Global.Port g = str ":" ++ rest ->
        Global.Port g' = Global.Port g)
    /\ (Global.Port g <> [] ->
        strings.HasPrefix (Global.Port g) (str ":") = false ->
        Global.Port g' = str ":" ++ Global.Port g)
    /\ Global.DNSServer g' = Global.DNSServer g
    /\ Global.SecondaryDNSServer g' = Global.SecondaryDNSServer g
    /\ length (Config.Checks config) = length (Config.Checks parsed)
    /\ forall k check,
         nth_error (Config.Checks config) k = Some check ->
         exists original,
           nth_error (Config.Checks parsed) k = Some original
           /\ DNSCheck.Domain check = DNSCheck.Domain original
           /\ DNSCheck.Type_ check = DNSCheck.Type_ original
           /\ DNSCheck.Expected check = DNSCheck.Expected original
           /\ DNSCheck.Status check = str "PENDING"
           /\ DNSCheck.Interval check <> 0
           /\ (DNSCheck.Interval original <> 0 ->
               DNSCheck.Interval check = DNSCheck.Interval original)
           /\ (DNSCheck.Interval original = 0 ->
               DNSCheck.Interval check = Global.DefaultInterval g')
           /\ forall e, In e (DNSCheck.History check) ->
                inWindow (clock k) e = true
                /\ CheckResult.ActualResult e <> [].
Proof.
  unfold loadConfig.
  destruct (os.ReadFile fs filename) as [data [e|]] eqn:R; [discriminate|].
  destruct (yaml_Unmarshal data) as [parsed|e] eqn:Y; [|discriminate].
  intros H. inversion H; subst config; clear H.
  exists data, parsed. cbv zeta. split; [reflexivity|]. split; [exact Y|].
  cbn [Config.Global_ Config.Checks].
  destruct (globalDefaults_fields (Config.Global_ parsed))
    as (D1 & D2 & D3 & D4 & D5).
  destruct (globalDefaults_cases (Config.Global_ parsed))
    as (E1 & E2 & E3 & E4 & E5 & E6 & E7).
  split; [exact D1|]. split; [exact E1|]. split; [exact E2|].
  split; [exact D2|]. split; [exact E3|]. split; [exact E4|].
  split; [exact D3|]. split; [exact E5|]. split; [exact E6|].
  split; [exact E7|]. split; [exact D4|]. split; [exact D5|].
  split.
  { generalize (globalDefaults (Config.Global_ parsed)) as g.
    generalize 0%nat as i.
    induction (Config.Checks parsed) as [|c l IH]; intros i g; simpl;
      [reflexivity | rewrite IH; reflexivity]. }
  intros k check N. rewrite initChecks_spec in N. cbn [Nat.add] in N.
  destruct (nth_error (Config.Checks parsed) k) as [original|];
    [|discriminate].
  cbn [option_map] in N. inversion N; subst check; clear N.
  exists original. split; [reflexivity|].
  destruct (initCheck_fields (globalDefaults (Config.Global_ parsed)) fs
              (clock k) original) as (F1 & F2 & F3 & F4 & F5).
  split; [exact F1|]. split; [exact F2|]. split; [exact F3|].
  split; [exact F4|]. split.
  { rewrite F5. destruct (Z.eqb_spec (DNSCheck.Interval original) 0);
      [exact D1 | assumption]. }
  split.
  { intros NZ. rewrite F5. apply Z.eqb_neq in NZ. rewrite NZ. reflexivity. }
  split.
  { intros Z0. rewrite F5, Z0. reflexivity. }
  intros e He. apply initCheck_entries in He. exact He.
Qed.

(** A log that cannot be read does not make [loadConfig] fail: it fails
    exactly when the configuration file cannot be read or is not valid
    YAML, and the text of its error says which.  Applying the defaults to
    settings that have them changes nothing. *)
Theorem loadConfig_fatal_errors
    (yaml_Unmarshal : gostring -> Config.t + error) (fs : FS)
    (clock : nat -> time.Time) (filename : gostring) :
  (forall err,
      loadConfig yaml_Unmarshal fs clock filename = inr err
      <-> (exists data e, os.ReadFile fs filename = (data, Some e)
             /\ err = str "error reading config file: " ++ e)
          \/ (exists data e, os.ReadFile fs filename = (data, None)
                /\ yaml_Unmarshal data = inr e
                /\ err = str "error parsing YAML: " ++ e))
  /\ (forall g, globalDefaults (globalDefaults g) = globalDefaults g).
Proof.
  split.
  - intros err. unfold loadConfig.
    destruct (os.ReadFile fs filename) as [data [e|]] eqn:R.
    + split.
      * intros H. inversion H; subst. left. exists data, e. auto.
      * intros [(d & e' & H & ->)|(d & e' & H & _)];
          inversion H; subst; reflexivity.
    + destruct (yaml_Unmarshal data) as [parsed|e] eqn:Y.
      * split; [discriminate|].
        intros [(d & e' & H & _)|(d & e' & H & Y' & _)];
          inversion H; subst; congruence.
      * split.
        -- intros H. inversion H; subst. right. exists data, e. auto.
        -- intros [(d & e' & H & _)|(d & e' & H & Y' & ->)];
             inversion H; subst. rewrite Y in Y'. inversion Y'. reflexivity.
  - intros g. destruct (globalDefaults_fields g) as (D1 & D2 & D3 & _).
    unfold globalDefaults at 1.
    apply Z.eqb_neq in D1. rewrite D1.
    apply streq_false in D2. rewrite D2.
    assert (P : Global.Port (globalDefaults g) <> []).
    { intros E. rewrite E in D3. discriminate D3. }
    apply streq_false in P. rewrite P, D3.
    destruct (globalDefaults g). reflexivity.
Qed.

(** ** Further properties of the check evaluator *)

Lemma Contains_nil (s : gostring) : strings.Contains s [] = true.
Proof. apply Contains_spec. exists [], s. reflexivity. Qed.

Lemma ToLower_nil : ToLower [] = [].
Proof. reflexivity. Qed.

(** A lookup that succeeds without any record fails the check, whatever is
    expected; with at least one record, an empty expected string passes
    it. *)
Theorem performDNSCheck_empty_cases (check : DNSCheck.t)
    (resolver : net.Resolver) (records : list gostring) :
  lookup check resolver = Some (records, None) ->
  (records = [] ->
   performDNSCheck check resolver = (statusOf check (str "FAIL"), []))
  /\ (records <> [] -> DNSCheck.Expected check = [] ->
      performDNSCheck check resolver = (statusOf check (str "PASS"), records)).
Proof.
  intros L. rewrite performDNSCheck_lookup, L. unfold classify. split.
  - intros ->. reflexivity.
  - intros N E. destruct records as [|r rest]; [congruence|].
    cbn [existsb]. unfold matches at 1. rewrite E, ToLower_nil, Contains_nil.
    reflexivity.
Qed.

Lemma map_lowerByte_noUpper (s : gostring) :
  strings.hasUpper s = false -> map strings.lowerByte s = s.
Proof.
  unfold strings.hasUpper. induction s as [|c s IH]; simpl; [reflexivity|].
  intros H. apply orb_false_iff in H. destruct H as [Hc Hs].
  unfold strings.lowerByte at 1. rewrite Hc, IH by exact Hs. reflexivity.
Qed.

Lemma ToLower_ascii (s : gostring) :
  strings.isASCII s = true -> ToLower s = map strings.lowerByte s.
Proof.
  intros A. unfold ToLower, strings.ToLower. rewrite A.
  destruct (strings.hasUpper s) eqn:U; [reflexivity|].
  symmetry. apply map_lowerByte_noUpper. exact U.
Qed.

(** On ASCII strings the match is the case-insensitive one: the record
    passes exactly when a piece of it equals the expected string once the
    letters A to Z of both are lowered. *)
Theorem matches_ascii (expected record : gostring) :
  strings.isASCII expected = true ->
  strings.isASCII record = true ->
  (matches expected record = true
   <-> exists pre mid post,
         record = pre ++ mid ++ post
         /\ map strings.lowerByte mid = map strings.lowerByte expected).
Proof.
  intros AE AR. unfold matches.
  rewrite (ToLower_ascii expected AE), (ToLower_ascii record AR).
  rewrite Contains_spec. split.
  - intros (pre' & post' & H).
    apply map_eq_app in H. destruct H as (pre & rest & -> & <- & H).
    apply map_eq_app in H. destruct H as (mid & post & -> & H & <-).
    exists pre, mid, post. split; [reflexivity | exact H].
  - intros (pre & mid & post & -> & H).
    exists (map strings.lowerByte pre), (map strings.lowerByte post).
    rewrite !map_app, H. reflexivity.
Qed.

(** ** The status page *)

Lemma Contains_app_mid (a b c sub : gostring) :
  strings.Contains b sub = true -> strings.Contains (a ++ b ++ c) sub = true.
Proof.
  rewrite !Contains_spec. intros (pre & post & ->).
  exists (a ++ pre), (post ++ c). rewrite <- !app_assoc. reflexivity.
Qed.

(** The template looks for PASS first: the PASS status of any check gets
    the class PASS, and so does every status that contains PASS, such as the
    FAIL, ERROR or UNSUPPORTED status of a check whose domain contains
    PASS, or an ERROR status whose error text contains it.  A status gets
    the class PENDING exactly when it contains none of PASS, FAIL and
    ERROR. *)
Theorem statusClass_priority :
  (forall check, statusClass (statusOf check (str "PASS")) = str "PASS")
  /\ (forall check suffix,
        strings.Contains (DNSCheck.Domain check) (str "PASS") = true ->
        statusClass (statusOf check suffix) = str "PASS")
  /\ (forall check suffix,
        strings.Contains suffix (str "PASS") = true ->
        statusClass (statusOf check suffix) = str "PASS")
  /\ (forall status,
        statusClass status = str "PENDING"
        <-> strings.Contains status (str "PASS") = false
            /\ strings.Contains status (str "FAIL") = false
            /\ strings.Contains status (str "ERROR") = false).
Proof.
  assert (S : forall check suffix,
            strings.Contains suffix (str "PASS") = true ->
            statusClass (statusOf check suffix) = str "PASS").
  { intros check suffix H. unfold statusClass, contains, statusOf.
    replace (strings.Contains _ (str "PASS")) with true; [reflexivity|].
    symmetry.
    replace (DNSCheck.Domain check ++ str "-" ++ DNSCheck.Type_ check
               ++ str "-" ++ suffix)
      with ((DNSCheck.Domain check ++ str "-" ++ DNSCheck.Type_ check
               ++ str "-") ++ suffix ++ [])
      by (rewrite app_nil_r, <- !app_assoc; reflexivity).
    apply Contains_app_mid. exact H. }
  split; [intros check; apply S; reflexivity|].
  split; [|split; [exact S|]].
  - intros check suffix H. unfold statusClass, contains, statusOf.
    replace (strings.Contains _ (str "PASS")) with true; [reflexivity|].
    symmetry. apply (Contains_app_mid []). exact H.
  - intros status. unfold statusClass, contains.
    destruct (strings.Contains status (str "PASS"));
      [split; [discriminate | intros (H & _); discriminate]|].
    destruct (strings.Contains status (str "FAIL"));
      [split; [discriminate | intros (_ & H & _); discriminate]|].
    destruct (strings.Contains status (str "ERROR"));
      [split; [discriminate | intros (_ & _ & H); discriminate]|].
    split; [auto | reflexivity].
Qed.

Lemma notIn_decide (c : ascii) (s : gostring) :
  existsb (Ascii.eqb c) s = false -> ~ In c s.
Proof.
  intros H X. assert (existsb (Ascii.eqb c) s = true).
  { apply existsb_exists. exists c. split; [exact X | apply Ascii.eqb_refl]. }
  congruence.
Qed.

Lemma plain_decide (s : gostring) :
  existsb (Ascii.eqb "009") s = false -> existsb (Ascii.eqb "010") s = false ->
  plain s.
Proof. intros A B. split; apply notIn_decide; assumption. Qed.

Lemma Contains_sep (a b sub : gostring) (c : ascii) :
  ~ In c sub ->
  strings.Contains (a ++ c :: b) sub = true ->
  strings.Contains a sub = true \/ strings.Contains b sub = true.
Proof.
  intros N. rewrite !Contains_spec. intros (pre & post & H).
  apply app_eq_app in H. destruct H as (l & [[Ha Hs]|[Hp Hb]]).
  - symmetry in Hs. apply app_eq_app in Hs.
    destruct Hs as (m & [[Hl Hm]|[Hs Hm]]).
    + left. exists pre, m. rewrite Ha, Hl. reflexivity.
    + destruct m as [|d m].
      * left. exists pre, []. rewrite Ha, Hs, !app_nil_r. reflexivity.
      * exfalso. apply N. inversion Hm; subst.
        apply in_or_app. right. left. reflexivity.
  - destruct l as [|d l].
    + destruct sub as [|d sub].
      * left. exists a, []. rewrite app_nil_r. reflexivity.
      * exfalso. apply N. inversion Hb; subst. left. reflexivity.
    + right. inversion Hb; subst. exists l, post. reflexivity.
Qed.

Lemma Contains_false_sep (a b sub : gostring) (c : ascii) :
  existsb (Ascii.eqb c) sub = false ->
  strings.Contains a sub = false -> strings.Contains b sub = false ->
  strings.Contains (a ++ c :: b) sub = false.
Proof.
  intros N A B. destruct (strings.Contains (a ++ c :: b) sub) eqn:E;
    [|reflexivity].
  apply Contains_sep in E; [|apply notIn_decide; exact N].
  destruct E; congruence.
Qed.

(** The UNSUPPORTED status of a check whose domain and type contain none
    of PASS, FAIL and ERROR has none of the three classes of a result: the
    page shows the check as PENDING. *)
Theorem unsupported_shown_as_pending (check : DNSCheck.t)
    (resolver : net.Resolver) :
  supported (DNSCheck.Type_ check) = false ->
  (forall keyword,
      In keyword [str "PASS"; str "FAIL"; str "ERROR"] ->
      strings.Contains (DNSCheck.Domain check) keyword = false
      /\ strings.Contains (DNSCheck.Type_ check) keyword = false) ->
  statusClass (fst (performDNSCheck check resolver)) = str "PENDING".
Proof.
  intros U K.
  destruct (performDNSCheck_unsupported check resolver U) as [E _].
  rewrite E. cbn [fst]. apply statusClass_priority.
  assert (C : forall keyword,
            In keyword [str "PASS"; str "FAIL"; str "ERROR"] ->
            strings.Contains
              (DNSCheck.Domain check ++ str "-" ++ DNSCheck.Type_ check
                 ++ str "-UNSUPPORTED") keyword = false).
  { intros keyword H. destruct (K keyword H) as [KD KT].
    cbn [str list_ascii_of_string app].
    apply Contains_false_sep; [| exact KD |].
    - destruct H as [<-|[<-|[<-|[]]]]; reflexivity.
    - apply Contains_false_sep; [| exact KT |];
        destruct H as [<-|[<-|[<-|[]]]]; reflexivity. }
  repeat split; apply C; cbn; auto.
Qed.

(** A record that holds a comma comes back as several records: the text up
    to its first comma, then what [strings.Split] makes of the rest. *)
Theorem roundTrip_comma_record (c : Config.t) (index : Z) (check : DNSCheck.t)
    (result : CheckResult.t) (now1 now2 : time.Time) (fs : FS)
    (a b : gostring) :
  let logDir := Global.LogDir (Config.Global_ c) in
  let name := logFileName logDir (DNSCheck.Domain check) (DNSCheck.Type_ check) in
  parseLaw ->
  getCheck c index = Some check ->
  logDir <> [] ->
  noFaults fs logDir name ->
  wholeLines fs name ->
  inWindow now1 result = true ->
  time.After (time.truncSecond (CheckResult.Timestamp result)) (cutoffOf now2)
  = true ->
  writable (CheckResult.Timestamp result) ->
  plain (CheckResult.Status result) ->
  plain (CheckResult.Server result) ->
  CheckResult.ActualResult result = [a ++ comma ++ b] ->
  plain (a ++ comma ++ b) ->
  ~ In ","%char a ->
  exists earlier back,
    roundTrip c index result now1 now2 fs = Some (earlier ++ [back])
    /\ CheckResult.ActualResult back = a :: strings.Split b comma
    /\ CheckResult.ActualResult back <> CheckResult.ActualResult result.
Proof.
  intros logDir name PL G LD NF WL W1 W2 WT PS PV E PR NC.
  exists (DNSCheck.History (initCheck (Config.Global_ c) fs now2 check)),
         (rehydrated result).
  split.
  { apply roundTrip_history; try assumption. rewrite E.
    constructor; [exact PR | constructor]. }
  unfold rehydrated. cbn [CheckResult.ActualResult]. rewrite E.
  cbn [strings.Join]. unfold comma. cbn [app].
  rewrite Split_app_sep by exact NC. split; [reflexivity|].
  intros H. apply (f_equal (@tl gostring)) in H. cbn [tl] in H.
  revert H. apply Split_nonempty. discriminate.
Qed.

End Program.

(** ** The theorems on the examples *)

Lemma parseLaw_parseRFC3339 : parseLaw time.parseRFC3339.
Proof. intros s t H. exact H. Qed.

Lemma writable_exNow : writable exNow.
Proof.
  unfold writable. change (time.yearOf exNow) with 2026.
  cbn [time.zoneOffset exNow]. repeat split; try lia.
Qed.


Lemma performDNSCheck_error_witness :
  let status := fst (performDNSCheck noUnicode ipv4String exCheck exFailing) in
  snd (performDNSCheck noUnicode ipv4String exCheck exFailing) = []
  /\ status = DNSCheck.Domain exCheck ++ str "-" ++ DNSCheck.Type_ exCheck
                ++ str "-ERROR-" ++ exError
  /\ strings.Contains status (str "-ERROR-") = true
  /\ strings.Contains status exError = true
  /\ status <> statusOf exCheck (str "PASS")
  /\ status <> statusOf exCheck (str "FAIL").
Proof.
  apply (performDNSCheck_error noUnicode ipv4String exCheck exFailing [] exError).
  reflexivity.
Defined.

Lemma performDNSCheck_unsupported_witness :
  performDNSCheck noUnicode ipv4String exCheckSRV exResolver
  = (str "domain-SRV-UNSUPPORTED", [])
  /\ (forall prefix,
        fst (performDNSCheck noUnicode ipv4String exCheckSRV exResolver)
        <> prefix ++ str "-PASS"
        /\ fst (performDNSCheck noUnicode ipv4String exCheckSRV exResolver)
           <> prefix ++ str "-FAIL").
Proof.
  apply (performDNSCheck_unsupported noUnicode ipv4String exCheckSRV exResolver).
  reflexivity.
Defined.

Lemma updateStatus_last_write_wins_witness :
  exists c' gos,
    updateStatus time.UTC exConfig 0 exPass exNow = Some (c', gos)
    /\ exists check', getCheck c' 0 = Some check'
         /\ DNSCheck.Status check' = CheckResult.Status exPass
         /\ DNSCheck.LastCheck check' = CheckResult.Timestamp exPass.
Proof.
  destruct (updateStatus time.UTC exConfig 0 exPass exNow) as [[c' gos]|] eqn:U;
    [|discriminate].
  exists c', gos. split; [reflexivity|].
  exact (proj1 (updateStatus_last_write_wins noUnicode ipv4String time.UTC)
           exConfig c' 0 exPass exNow gos U).
Defined.

Lemma history_within_window_witness :
  (exists c' gos check',
      updateStatus time.UTC exConfigWithHistory 0 exPassLater exMuchLater
      = Some (c', gos)
      /\ getCheck c' 0 = Some check'
      /\ (forall e,
            In e (DNSCheck.History check')
            <-> In e ([exPass] ++ [exPassLater])
                /\ time.After (CheckResult.Timestamp e)
                     (cutoffOf time.UTC exMuchLater) = true)
      /\ ~ In exPass (DNSCheck.History check')
      /\ In exPassLater (DNSCheck.History check'))
  /\ cutoffOf time.UTC exMuchLater
     = time.mkTime (time.unixSec exMuchLater - 2592000) 0 0
  /\ -3600 <= time.unixSec (cutoffOf exNewYork nyNow)
               - (time.unixSec nyNow - 2592000) <= 3600.
Proof.
  split; [|split].
  - destruct (updateStatus time.UTC exConfigWithHistory 0 exPassLater
                exMuchLater) as [[c' gos]|] eqn:U; [|discriminate].
    destruct (getCheck c' 0) as [check'|] eqn:G;
      [|exfalso; vm_compute in U; inversion U; subst; discriminate G].
    exists c', gos, check'. split; [reflexivity|]. split; [exact G|].
    destruct (proj1 (history_within_window joinPlain time.parseRFC3339 time.UTC)
                exConfigWithHistory c' 0 exPassLater exMuchLater gos check' U G)
      as (check & Gc & H).
    vm_compute in Gc. inversion Gc; subst check; clear Gc.
    cbn [DNSCheck.History] in H.
    split; [exact H|]. split.
    + intros I. apply H in I. destruct I as [_ A]. vm_compute in A.
      discriminate A.
    + apply H. split; [right; left; reflexivity | vm_compute; reflexivity].
  - apply (proj2 (proj2 (proj2 (proj2 (proj2
             (history_within_window joinPlain time.parseRFC3339 time.UTC)))))
           exMuchLater).
    + unfold validTime. cbn. lia.
    + intros sec. reflexivity.
  - apply (proj1 (proj2 (proj2 (proj2 (proj2
             (history_within_window joinPlain time.parseRFC3339 exNewYork)))))
           nyNow 3600).
    + unfold validTime. cbn. lia.
    + intros sec. unfold time.offsetAt, exNewYork. cbn [time.lookup].
      destruct (sec <? 1762063200); cbn; lia.
Defined.

Lemma loadHistoryFromLog_skips_bad_line_witness :
  loadHistoryFromLog time.parseRFC3339 time.UTC exCheck (str "logs/example.org-A.log")
    exFSLog exLater
  = (withHistory exCheck
       (fold_left (loadLine time.parseRFC3339 (cutoffOf time.UTC exLater))
          ([str "not a log line"]
             ++ [str "2026-01-01T00:00:00Z" ++ tab ++ str "example.org-A-PASS"
                   ++ tab ++ str "8.8.8.8" ++ tab ++ str "93.184.216.34"; []])
          (DNSCheck.History exCheck)),
     None)
  /\ forall h,
       loadLine time.parseRFC3339 (cutoffOf time.UTC exLater) h
         (str "yesterday" ++ tab ++ str "s" ++ tab ++ str "8.8.8.8" ++ tab
            ++ str "r") = h.
Proof.
  apply (loadHistoryFromLog_skips_bad_line time.parseRFC3339 time.UTC exCheck
           (str "logs/example.org-A.log") exFSLog exLater exLog).
  - reflexivity.
  - reflexivity.
  - right. reflexivity.
Defined.

Lemma roundTrip_equivalent_witness :
  exists earlier back,
    roundTrip joinPlain time.parseRFC3339 time.UTC exConfig 0 exPass exNow exLater exFS
    = Some (earlier ++ [back])
    /\ equivalent back exPass
    /\ CheckResult.Timestamp back
       = time.truncSecond (CheckResult.Timestamp exPass).
Proof.
  apply (roundTrip_equivalent joinPlain time.parseRFC3339 time.UTC exConfig 0 exCheck
           exPass exNow exLater exFS).
  - exact parseLaw_parseRFC3339.
  - reflexivity.
  - discriminate.
  - repeat split.
  - intros old H. discriminate H.
  - vm_compute. reflexivity.
  - vm_compute. reflexivity.
  - exact writable_exNow.
  - apply plain_decide; reflexivity.
  - apply plain_decide; reflexivity.
  - repeat constructor; apply notIn_decide; reflexivity.
  - discriminate.
  - repeat constructor; apply notIn_decide; reflexivity.
Defined.

Lemma rehydrated_records_never_empty_witness :
  exists earlier back,
    roundTrip joinPlain time.parseRFC3339 time.UTC exConfig 0 exErrorResult exNow
      exLater exFS = Some (earlier ++ [back])
    /\ CheckResult.ActualResult back = [[]]
    /\ CheckResult.Status back = CheckResult.Status exErrorResult.
Proof.
  apply (proj2 (proj2 (rehydrated_records_never_empty joinPlain
                         time.parseRFC3339 time.UTC))
           exConfig 0 exCheck exErrorResult exNow exLater exFS).
  - exact parseLaw_parseRFC3339.
  - reflexivity.
  - discriminate.
  - repeat split.
  - intros old H. discriminate H.
  - vm_compute. reflexivity.
  - vm_compute. reflexivity.
  - exact writable_exNow.
  - apply plain_decide; reflexivity.
  - apply plain_decide; reflexivity.
  - reflexivity.
Defined.

Lemma workerTurn_two_results_witness :
  exists r1 r2 c1 g1 c2 g2,
    updateStatus time.UTC exConfig 0 r1 exNow = Some (c1, g1)
    /\ updateStatus time.UTC c1 0 r2 exLater = Some (c2, g2)
    /\ workerTurn noUnicode ipv4String time.UTC exResolver (fun _ => exFailing)
         exConfig 0 exNow exNow exLater = Some (c2, g1 ++ g2)
    /\ CheckResult.Timestamp r1 = exNow
    /\ CheckResult.Timestamp r2 = exNow
    /\ CheckResult.Server r1 = Global.DNSServer (Config.Global_ exConfig)
    /\ CheckResult.Server r2
       = Global.SecondaryDNSServer (Config.Global_ exConfig)
    /\ (Global.DNSServer (Config.Global_ exConfig)
        <> Global.SecondaryDNSServer (Config.Global_ exConfig) ->
        CheckResult.Server r1 <> CheckResult.Server r2)
    /\ (time.After exNow (cutoffOf time.UTC exNow) = true ->
        time.After exNow (cutoffOf time.UTC exLater) = true ->
        exists earlier check2,
          getCheck c2 0 = Some check2
          /\ DNSCheck.History check2 = earlier ++ [r1; r2]).
Proof.
  apply (workerTurn_two_results noUnicode ipv4String time.UTC exResolver
           (fun _ => exFailing) exConfig 0 exCheck exNow exNow exLater).
  - discriminate.
  - reflexivity.
Defined.

(** C2 as stated fails: an ERROR result, which has no record, is within
    the window when it is appended and when it is read back, and comes
    back with the record list that holds one empty string; no entry of the
    rehydrated history is equivalent to it. *)
Lemma roundTrip_loses_empty_records :
  time.After (CheckResult.Timestamp exErrorResult) (cutoffOf time.UTC exNow) = true
  /\ time.After (CheckResult.Timestamp exErrorResult) (cutoffOf time.UTC exLater) = true
  /\ exists history,
       roundTrip joinPlain time.parseRFC3339 time.UTC exConfig 0 exErrorResult exNow
         exLater exFS = Some history
       /\ forall back, In back history -> ~ equivalent back exErrorResult.
Proof.
  split; [vm_compute; reflexivity|]. split; [vm_compute; reflexivity|].
  eexists. split; [vm_compute; reflexivity|].
  intros back [H|[]] (_ & _ & _ & E). subst back. discriminate E.
Qed.

(** C3 as stated fails: [time.Local] being a location with daylight saving
    time, the append of 2025-11-15T12:00:00-05:00 keeps the entry of
    2025-10-16T12:30:00-04:00, which is thirty days and thirty minutes
    older; the clocks went back one hour in between, and the cutoff is
    thirty days and one hour before the append. *)
Lemma updateStatus_keeps_entry_older_than_30_days :
  time.inLocation exNewYork nyNow
  /\ time.inLocation exNewYork nyOld
  /\ time.unixSec nyNow - time.unixSec nyOld = 30 * 86400 + 1800
  /\ time.unixSec nyNow - time.unixSec (cutoffOf exNewYork nyNow)
     = 30 * 86400 + 3600
  /\ exists c' gos check',
       updateStatus exNewYork nyConfig 0 nyResult nyNow = Some (c', gos)
       /\ getCheck c' 0 = Some check'
       /\ DNSCheck.History check' = [nyOldResult; nyResult].
Proof.
  split; [reflexivity|]. split; [reflexivity|]. split; [reflexivity|].
  split; [vm_compute; reflexivity|].
  do 3 eexists. split; [vm_compute; reflexivity|].
  split; [vm_compute; reflexivity | reflexivity].
Qed.

(** C6 as stated fails: when the same server is configured as primary and
    as secondary, the two results of a turn carry the same server. *)
Lemma workerTurn_same_server :
  Global.SecondaryDNSServer (Config.Global_ exConfigSame) <> []
  /\ exists c2 gos check2 r1 r2,
       workerTurn noUnicode ipv4String time.UTC exResolver (fun _ => exResolver)
         exConfigSame 0 exNow exNow exLater = Some (c2, gos)
       /\ getCheck c2 0 = Some check2
       /\ DNSCheck.History check2 = [r1; r2]
       /\ CheckResult.Timestamp r1 = CheckResult.Timestamp r2
       /\ CheckResult.Server r1 = CheckResult.Server r2.
Proof.
  split; [discriminate|].
  do 5 eexists. split; [vm_compute; reflexivity|].
  split; [vm_compute; reflexivity|]. split; [reflexivity|].
  split; reflexivity.
Qed.

Lemma updateStatus_frame_witness :
  ((updateStatus time.UTC exConfig 5 exPass exNow = None
    <-> 5 < 0 \/ Z.of_nat (length (Config.Checks exConfig)) <= 5)
   /\ forall c' gos,
        updateStatus time.UTC exConfig 5 exPass exNow = Some (c', gos) ->
        Config.Global_ c' = Config.Global_ exConfig
        /\ length (Config.Checks c') = length (Config.Checks exConfig)
        /\ (forall j, j <> 5 -> getCheck c' j = getCheck exConfig j)
        /\ exists check check',
             getCheck exConfig 5 = Some check
             /\ getCheck c' 5 = Some check'
             /\ DNSCheck.Domain check' = DNSCheck.Domain check
             /\ DNSCheck.Type_ check' = DNSCheck.Type_ check
             /\ DNSCheck.Expected check' = DNSCheck.Expected check
             /\ DNSCheck.Interval check' = DNSCheck.Interval check)
  /\ exists c' gos,
       updateStatus time.UTC exConfig 0 exPass exNow = Some (c', gos)
       /\ Config.Global_ c' = Config.Global_ exConfig
       /\ length (Config.Checks c') = length (Config.Checks exConfig)
       /\ (forall j, j <> 0 -> getCheck c' j = getCheck exConfig j)
       /\ exists check check',
            getCheck exConfig 0 = Some check
            /\ getCheck c' 0 = Some check'
            /\ DNSCheck.Domain check' = DNSCheck.Domain check
            /\ DNSCheck.Type_ check' = DNSCheck.Type_ check
            /\ DNSCheck.Expected check' = DNSCheck.Expected check
            /\ DNSCheck.Interval check' = DNSCheck.Interval check.
Proof.
  split; [exact (updateStatus_frame time.UTC exConfig 5 exPass exNow)|].
  destruct (updateStatus time.UTC exConfig 0 exPass exNow) as [[c' gos]|] eqn:U;
    [|discriminate].
  exists c', gos. split; [reflexivity|].
  exact (proj2 (updateStatus_frame time.UTC exConfig 0 exPass exNow) c' gos U).
Defined.

Lemma updateStatus_newest_witness :
  (exists c' gos check',
      updateStatus time.UTC exConfig 0 exPass exMuchLater = Some (c', gos)
      /\ getCheck c' 0 = Some check'
      /\ time.After (CheckResult.Timestamp exPass)
           (cutoffOf time.UTC exMuchLater) = false
      /\ DNSCheck.History check'
         = keepAfter (cutoffOf time.UTC exMuchLater) (DNSCheck.History exCheck)
      /\ ~ In exPass (DNSCheck.History check')
      /\ DNSCheck.Status check' = CheckResult.Status exPass
      /\ DNSCheck.LastCheck check' = CheckResult.Timestamp exPass)
  /\ (exists c' gos check',
        updateStatus time.UTC exConfig 0 exPass exLater = Some (c', gos)
        /\ getCheck c' 0 = Some check'
        /\ time.After (CheckResult.Timestamp exPass)
             (cutoffOf time.UTC exLater) = true
        /\ lastCheck (DNSCheck.History check') = Some exPass
        /\ (length (DNSCheck.History check')
            <= S (length (DNSCheck.History exCheck)))%nat).
Proof.
  split.
  - destruct (updateStatus time.UTC exConfig 0 exPass exMuchLater)
      as [[c' gos]|] eqn:U; [|discriminate].
    destruct (getCheck c' 0) as [check'|] eqn:G;
      [|exfalso; vm_compute in U; inversion U; subst; discriminate G].
    exists c', gos, check'. split; [reflexivity|]. split; [exact G|].
    assert (A : time.After (CheckResult.Timestamp exPass)
                  (cutoffOf time.UTC exMuchLater) = false)
      by (vm_compute; reflexivity).
    split; [exact A|].
    exact (proj2 (updateStatus_newest time.UTC exConfig c' 0 exPass exMuchLater
                    gos exCheck check' U eq_refl G) A).
  - destruct (updateStatus time.UTC exConfig 0 exPass exLater)
      as [[c' gos]|] eqn:U; [|discriminate].
    destruct (getCheck c' 0) as [check'|] eqn:G;
      [|exfalso; vm_compute in U; inversion U; subst; discriminate G].
    exists c', gos, check'. split; [reflexivity|]. split; [exact G|].
    assert (A : time.After (CheckResult.Timestamp exPass)
                  (cutoffOf time.UTC exLater) = true)
      by (vm_compute; reflexivity).
    split; [exact A|].
    exact (proj1 (updateStatus_newest time.UTC exConfig c' 0 exPass exLater
                    gos exCheck check' U eq_refl G) A).
Defined.

Lemma saveCheckToLog_append_only_witness :
  let check := withHistory exCheck [exPass] in
  let name := logFileName joinPlain (str "logs") (DNSCheck.Domain check)
                (DNSCheck.Type_ check) in
  let fs' := saveCheckToLog joinPlain check (str "logs") exFSNoOpen in
  files fs' = files exFSNoOpen
  /\ In (str "logs") (dirs fs')
  /\ dirs exFSNoOpen = [].
Proof.
  intros check name fs'.
  destruct (saveCheckToLog_append_only joinPlain check (str "logs") exFSNoOpen)
    as (_ & _ & _ & _ & H5 & _ & H7 & _).
  fold name in H5. fold fs' in H5, H7.
  split; [apply H5; right; discriminate|].
  split; [apply H7; reflexivity | reflexivity].
Defined.

Lemma late_goroutines_write_secondary_twice_witness :
  exists c2 gos,
    workerTurn noUnicode ipv4String time.UTC exResolver (fun _ => exFailing) exConfig 0
      exNow exNow exLater = Some (c2, gos)
    /\ gos = [mkGo 0 (str "logs"); mkGo 0 (str "logs")]
    /\ content (fold_left (fun fs g => runGoroutine joinPlain c2 g fs) gos exFS)
         (str "logs/example.org-A.log")
       = content exFS (str "logs/example.org-A.log")
           ++ logEntry (secondaryResult noUnicode ipv4String exConfig exCheck
                          exFailing exNow)
           ++ logEntry (secondaryResult noUnicode ipv4String exConfig exCheck
                          exFailing exNow).
Proof.
  destruct (workerTurn noUnicode ipv4String time.UTC exResolver (fun _ => exFailing)
              exConfig 0 exNow exNow exLater) as [[c2 gos]|] eqn:T;
    [|discriminate].
  exists c2, gos. split; [reflexivity|].
  apply (late_goroutines_write_secondary_twice noUnicode ipv4String joinPlain time.UTC
           exResolver (fun _ => exFailing) exConfig c2 0 exCheck
           exNow exNow exLater gos exFS).
  - discriminate.
  - reflexivity.
  - discriminate.
  - repeat split.
  - vm_compute. reflexivity.
  - exact T.
Defined.

Lemma loadHistoryFromLog_appends_witness :
  let check1 :=
    fst (loadHistoryFromLog time.parseRFC3339 time.UTC exCheck
           (str "logs/example.org-A.log") exFSLog exLater) in
  loadHistoryFromLog time.parseRFC3339 time.UTC exCheck (str "logs/example.org-A.log")
    exFSLog exLater
  = (withHistory exCheck
       (DNSCheck.History exCheck
          ++ loaded time.parseRFC3339 (cutoffOf time.UTC exLater) exLog), None)
  /\ DNSCheck.History
       (fst (loadHistoryFromLog time.parseRFC3339 time.UTC check1
               (str "logs/example.org-A.log") exFSLog exLater))
     = DNSCheck.History exCheck
         ++ loaded time.parseRFC3339 (cutoffOf time.UTC exLater) exLog
         ++ loaded time.parseRFC3339 (cutoffOf time.UTC exLater) exLog.
Proof.
  apply (proj1 (loadHistoryFromLog_appends time.parseRFC3339 time.UTC exCheck
                  (str "logs/example.org-A.log") exFSLog exLater) exLog).
  reflexivity.
Defined.

Lemma loadConfig_defaults_witness :
  exists config first second,
    loadConfig joinPlain time.parseRFC3339 time.UTC exYaml exFSConfig
      (fun _ => exLater) (str "config.yaml") = inl config
    /\ Global.DefaultInterval (Config.Global_ config) = 300000000000
    /\ Global.LogDir (Config.Global_ config) = str "logs"
    /\ Global.Port (Config.Global_ config) = str ":8080"
    /\ Config.Checks config = [first; second]
    /\ DNSCheck.Interval first = 300000000000
    /\ DNSCheck.Interval second = 3600000000000
    /\ DNSCheck.Status first = str "PENDING".
Proof.
  destruct (loadConfig joinPlain time.parseRFC3339 time.UTC exYaml exFSConfig
              (fun _ => exLater) (str "config.yaml")) as [config|e] eqn:L;
    [|discriminate].
  destruct (loadConfig_defaults joinPlain time.parseRFC3339 time.UTC exYaml
              exFSConfig (fun _ => exLater) (str "config.yaml") config L)
    as (data & parsed & R & Y & _ & D1 & _ & _ & D2 & _ & _ & D3 & _ & _ & _
        & _ & D4 & D5).
  inversion Y; subst parsed. cbv zeta in *.
  destruct (Config.Checks config) as [|first [|second [|third rest]]] eqn:E;
    try discriminate D4.
  exists config, first, second. split; [reflexivity|].
  split; [apply D1; reflexivity|]. split; [apply D2; reflexivity|].
  split; [apply D3; reflexivity|]. split; [exact E|].
  destruct (D5 0%nat first eq_refl) as (o1 & N1 & _ & _ & _ & S1 & _ & _ & I1 & _).
  destruct (D5 1%nat second eq_refl) as (o2 & N2 & _ & _ & _ & _ & _ & I2 & _).
  inversion N1; subst o1. inversion N2; subst o2.
  split; [rewrite (I1 eq_refl); apply D1; reflexivity|].
  split; [apply I2; discriminate | exact S1].
Defined.

Lemma loadConfig_fatal_errors_witness :
  loadConfig joinPlain time.parseRFC3339 time.UTC exYamlBad exFSConfig
    (fun _ => exLater) (str "config.yaml")
  = inr (str "error parsing YAML: yaml: line 1: did not find expected key").
Proof.
  apply (proj1 (loadConfig_fatal_errors joinPlain time.parseRFC3339 time.UTC exYamlBad
                  exFSConfig (fun _ => exLater) (str "config.yaml"))).
  right. exists (str "global: ..."), (str "yaml: line 1: did not find expected key").
  repeat split.
Defined.

Lemma performDNSCheck_empty_cases_witness :
  performDNSCheck noUnicode ipv4String
    (DNSCheck.mk (str "x.test") (str "TXT") [] 0 [] (time.mkTime 0 0 0) [])
    (net.mkResolver (fun _ _ => ([], None)) (fun _ => ([], None))
       (fun _ => ([], None)) (fun _ => ([], None)) (fun _ => ([], None)))
  = (str "x.test-TXT-FAIL", [])
  /\ performDNSCheck noUnicode ipv4String
       (DNSCheck.mk (str "x.test") (str "TXT") [] 0 [] (time.mkTime 0 0 0) [])
       (net.mkResolver (fun _ _ => ([], None)) (fun _ => ([], None))
          (fun _ => ([], None)) (fun _ => ([str "v=spf1 -all"], None))
          (fun _ => ([], None)))
     = (str "x.test-TXT-PASS", [str "v=spf1 -all"]).
Proof.
  split.
  - apply (proj1 (performDNSCheck_empty_cases noUnicode ipv4String
             (DNSCheck.mk (str "x.test") (str "TXT") [] 0 []
                (time.mkTime 0 0 0) [])
             (net.mkResolver (fun _ _ => ([], None)) (fun _ => ([], None))
                (fun _ => ([], None)) (fun _ => ([], None))
                (fun _ => ([], None)))
             [] eq_refl)).
    reflexivity.
  - apply (proj2 (performDNSCheck_empty_cases noUnicode ipv4String
             (DNSCheck.mk (str "x.test") (str "TXT") [] 0 []
                (time.mkTime 0 0 0) [])
             (net.mkResolver (fun _ _ => ([], None)) (fun _ => ([], None))
                (fun _ => ([], None)) (fun _ => ([str "v=spf1 -all"], None))
                (fun _ => ([], None)))
             [str "v=spf1 -all"] eq_refl)).
    + discriminate.
    + reflexivity.
Defined.

Lemma matches_ascii_witness :
  matches noUnicode (str "NS1.Example.COM") (str "ns1.example.com.") = true
  <-> exists pre mid post,
        str "ns1.example.com." = pre ++ mid ++ post
        /\ map strings.lowerByte mid
           = map strings.lowerByte (str "NS1.Example.COM").
Proof.
  apply (matches_ascii noUnicode (str "NS1.Example.COM")
           (str "ns1.example.com.")); reflexivity.
Defined.

Lemma statusClass_priority_witness :
  statusClass
    (statusOf (DNSCheck.mk (str "PASSport.example") (str "A") [] 0 []
                 (time.mkTime 0 0 0) []) (str "FAIL"))
  = str "PASS".
Proof.
  apply (proj1 (proj2 statusClass_priority)). reflexivity.
Defined.

Lemma unsupported_shown_as_pending_witness :
  statusClass (fst (performDNSCheck noUnicode ipv4String exCheckSRV exResolver))
  = str "PENDING".
Proof.
  apply (unsupported_shown_as_pending noUnicode ipv4String exCheckSRV
           exResolver).
  - reflexivity.
  - intros keyword [<-|[<-|[<-|[]]]]; split; reflexivity.
Defined.

Lemma roundTrip_comma_record_witness :
  exists earlier back,
    roundTrip joinPlain time.parseRFC3339 time.UTC exConfig 0 exCommaResult exNow
      exLater exFS = Some (earlier ++ [back])
    /\ CheckResult.ActualResult back
       = str "v=spf1" :: strings.Split (str "a,b") comma
    /\ CheckResult.ActualResult back <> CheckResult.ActualResult exCommaResult.
Proof.
  apply (roundTrip_comma_record joinPlain time.parseRFC3339 time.UTC exConfig 0 exCheck
           exCommaResult exNow exLater exFS (str "v=spf1") (str "a,b")).
  - exact parseLaw_parseRFC3339.
  - reflexivity.
  - discriminate.
  - repeat split.
  - intros old H. discriminate H.
  - vm_compute. reflexivity.
  - vm_compute. reflexivity.
  - exact writable_exNow.
  - apply plain_decide; reflexivity.
  - apply plain_decide; reflexivity.
  - reflexivity.
  - apply plain_decide; reflexivity.
  - apply notIn_decide. reflexivity.
Defined.

(** ** The locks *)

Import Locks.


Lemma tid_eqb_eq (a b : tid) : tid_eqb a b = true <-> a = b.
Proof.
  destruct a, b; cbn; try (split; discriminate);
    rewrite ?andb_true_iff, ?Nat.eqb_eq;
    split; try (intros H; inversion H; auto; fail);
    try (intros [-> ->]; reflexivity); try (intros ->; reflexivity).
Qed.

Lemma lock_eqb_eq (a b : lock) : lock_eqb a b = true <-> a = b.
Proof.
  destruct a, b; cbn; try (split; [reflexivity|reflexivity]);
    try (split; discriminate).
  rewrite Nat.eqb_eq. split; [intros ->; reflexivity | intros H; inversion H; auto].
Qed.

Lemma mode_eqb_eq (a b : mode) : mode_eqb a b = true <-> a = b.
Proof. destruct a, b; cbn; split; try discriminate; reflexivity. Qed.

Lemma isOf_true (t : tid) (l : lock) (m : mode) (e : entry) :
  isOf t l m e = true <-> e = (t, l, m).
Proof.
  destruct e as [[t' l'] m']. unfold isOf.
  rewrite !andb_true_iff, tid_eqb_eq, lock_eqb_eq, mode_eqb_eq.
  split; [intros [[-> ->] ->]; reflexivity | intros H; inversion H; auto].
Qed.

Lemma isFor_true (l : lock) (m : mode) (u : tid) (l' : lock) (m' : mode) :
  isFor l m (u, l', m') = true <-> l' = l /\ m' = m.
Proof.
  unfold isFor. rewrite andb_true_iff, lock_eqb_eq, mode_eqb_eq.
  split; intros [-> ->]; auto.
Qed.

Lemma existsb_isOf (t : tid) (l : lock) (m : mode) (h : list entry) :
  existsb (isOf t l m) h = true <-> In (t, l, m) h.
Proof.
  rewrite existsb_exists. split.
  - intros (e & He & E). apply isOf_true in E. subst e. exact He.
  - intros H. exists (t, l, m). split; [exact H | apply isOf_true; reflexivity].
Qed.

Lemma existsb_isOf_false (t : tid) (l : lock) (m : mode) (h : list entry) :
  existsb (isOf t l m) h = false <-> ~ In (t, l, m) h.
Proof.
  rewrite <- existsb_isOf. destruct (existsb (isOf t l m) h); split;
    congruence.
Qed.

Lemma existsb_isFor (l : lock) (m : mode) (h : list entry) :
  existsb (isFor l m) h = true <-> exists u, In (u, l, m) h.
Proof.
  rewrite existsb_exists. split.
  - intros ([[u l'] m'] & He & E). apply isFor_true in E.
    destruct E as [-> ->]. exists u. exact He.
  - intros (u & H). exists (u, l, m).
    split; [exact H | apply isFor_true; auto].
Qed.

Lemma existsb_isFor_false (l : lock) (m : mode) (h : list entry) :
  existsb (isFor l m) h = false <-> forall u, ~ In (u, l, m) h.
Proof.
  split.
  - intros E u H. assert (X : existsb (isFor l m) h = true)
      by (apply existsb_isFor; exists u; exact H). congruence.
  - intros H. destruct (existsb (isFor l m) h) eqn:E; [|reflexivity].
    apply existsb_isFor in E. destruct E as (u & Hu). destruct (H u Hu).
Qed.

Lemma release_subset (t : tid) (l : lock) (m : mode) (h : list entry)
    (x : entry) :
  In x (release t l m h) -> In x h.
Proof.
  induction h as [|e h IH]; simpl; [tauto|].
  destruct (isOf t l m e).
  - intros H. right. exact H.
  - intros [H|H]; [left; exact H | right; apply IH; exact H].
Qed.

Lemma release_other (t : tid) (l : lock) (m : mode) (h : list entry)
    (x : entry) :
  In x h -> x <> (t, l, m) -> In x (release t l m h).
Proof.
  induction h as [|e h IH]; simpl; [tauto|].
  intros [H|H] N.
  - subst e. destruct (isOf t l m x) eqn:E.
    + apply isOf_true in E. contradiction.
    + left. reflexivity.
  - destruct (isOf t l m e); [exact H | right; apply IH; assumption].
Qed.

Lemma release_NoDup (t : tid) (l : lock) (m : mode) (h : list entry) :
  NoDup h -> NoDup (release t l m h) /\ ~ In (t, l, m) (release t l m h).
Proof.
  induction h as [|e h IH]; simpl; intros N.
  - split; [constructor | tauto].
  - inversion N as [|? ? N1 N2]; subst.
    destruct (isOf t l m e) eqn:E.
    + apply isOf_true in E. subst e. split; assumption.
    + destruct (IH N2) as [I1 I2]. split.
      * constructor; [|exact I1]. intros H. apply N1.
        apply (release_subset _ _ _ _ _ H).
      * intros [H|H]; [|exact (I2 H)].
        subst e. rewrite (proj2 (isOf_true t l m _) eq_refl) in E.
        discriminate E.
Qed.

(** [exec] and its outcomes. *)
Lemma exec_outcome (t : tid) (ins : instr) (s : state) (returns : bool)
    (new : list (tid * list instr)) (h q : list entry) (n : nat) :
  exec t ins s = Some (returns, new, h, q, n) ->
  outcome t s ins returns new h q n.
Proof.
  destruct ins as [l|l|l|l|i|a]; cbn [exec].
  - destruct (existsb (isOf t l W) (queue s)) eqn:Q.
    + destruct (existsb (isFor l R) (held s)); [discriminate|].
      intros H; inversion H; subst. apply out_enter.
      apply existsb_isOf. exact Q.
    + destruct (existsb (isFor l W) (held s ++ queue s)) eqn:Wr;
        [discriminate|].
      assert (N : ~ In (t, l, W) (held s ++ queue s)).
      { intros I. rewrite existsb_isFor_false in Wr. exact (Wr t I). }
      destruct (existsb (isFor l R) (held s));
        intros H; inversion H; subst.
      * apply (out_wait t s W l N). discriminate.
      * apply (out_take t s W l N).
  - intros H; inversion H; subst. apply out_unlock.
  - destruct (existsb (isOf t l R) (held s)) eqn:Hd.
    + intros H; inversion H; subst. apply out_woken.
      apply existsb_isOf. exact Hd.
    + destruct (existsb (isOf t l R) (queue s)) eqn:Q; [discriminate|].
      assert (N : ~ In (t, l, R) (held s ++ queue s)).
      { rewrite existsb_isOf_false in Hd, Q. intros I.
        apply in_app_or in I. tauto. }
      destruct (existsb (isFor l W) (held s ++ queue s)) eqn:Wr;
        intros H; inversion H; subst.
      * apply (out_wait t s R l N). intros _.
        apply existsb_isFor. exact Wr.
      * apply (out_take t s R l N).
  - intros H; inversion H; subst. apply out_runlock.
  - intros H; inversion H; subst. apply out_go.
  - intros H; inversion H; subst. apply out_do.
Qed.

Lemma In_tails {A : Type} (pre code l : list A) :
  pre ++ code = l -> In code (tails l).
Proof.
  revert l. induction pre as [|x pre IH]; intros l H; cbn in H; subst l.
  - destruct code; left; reflexivity.
  - right. apply IH. reflexivity.
Qed.

(** The points of the programs are enumerated and checked one by one. *)
Ltac point_facts :=
  repeat match goal with
         | |- _ /\ _ => split
         | |- forall _, _ => intro
         | |- True => exact I
         | H : False |- _ => destruct H
         | H : _ \/ _ |- _ => destruct H
         | H : _ /\ _ |- _ => destruct H
         | H : exists _, _ |- _ => destruct H
         | H : (_, _) = (_, _) |- _ => inversion H; subst; clear H
         | H : Worker _ = Worker _ |- _ => inversion H; subst; clear H
         | H : HistoryLock _ = HistoryLock _ |- _ => inversion H; subst; clear H
         | H : ?x = ?x |- _ => clear H
         | H : ?x <> ?x |- _ => destruct (H eq_refl)
         | H : _ = _ |- _ => discriminate H
         | |- _ = _ => reflexivity
         | |- ~ _ => intro
         | |- ?x <> ?y => intro
         end.

Ltac point_solver :=
  unfold pointOk, owed;
  cbn [pending existsb lock_eqb orb instrOk allowed isAcquire In app];
  rewrite ?Nat.eqb_refl;
  cbn [pending existsb lock_eqb orb instrOk allowed isAcquire In app];
  point_facts;
  try solve [ auto
            | left; reflexivity
            | right; eexists; repeat split; reflexivity
            | left; auto | right; auto
            | right; left; reflexivity ].

Lemma program_points (secondary : bool) (t : tid) :
  Forall (pointOk t) (tails (program secondary t)).
Proof.
  destruct t as [i|i k|k]; [destruct secondary| |];
    cbn [program workerCode updateStatusCode saveCheckToLogCode handlerCode
         app tails];
    repeat (apply Forall_cons; [|]); try apply Forall_nil.
  all: point_solver.
Qed.

Lemma point_ok (secondary : bool) (t : tid) (pre code : list instr) :
  pre ++ code = program secondary t -> pointOk t code.
Proof.
  intros H. apply In_tails in H.
  pose proof (program_points secondary t) as F.
  rewrite Forall_forall in F. apply F. exact H.
Qed.

Lemma unique_code (ts : list (tid * list instr)) (t : tid)
    (c1 c2 : list instr) :
  NoDup (map fst ts) -> In (t, c1) ts -> In (t, c2) ts -> c1 = c2.
Proof.
  induction ts as [|[u c] ts IH]; simpl; intros N H1 H2; [tauto|].
  inversion N as [|? ? N1 N2]; subst.
  destruct H1 as [H1|H1], H2 as [H2|H2].
  - congruence.
  - inversion H1; subst. exfalso. apply N1.
    apply (in_map fst) in H2. exact H2.
  - inversion H2; subst. exfalso. apply N1.
    apply (in_map fst) in H1. exact H1.
  - apply IH; assumption.
Qed.

Lemma map_fst_mid (ts1 ts2 : list (tid * list instr)) (t : tid)
    (c : list instr) :
  map fst (ts1 ++ (t, c) :: ts2) = map fst ts1 ++ t :: map fst ts2.
Proof. rewrite map_app. reflexivity. Qed.

Lemma NoDup_map_injective {A B : Type} (f : A -> B) (l : list A) :
  (forall a b, f a = f b -> a = b) -> NoDup l -> NoDup (map f l).
Proof.
  intros Inj N. induction N as [|x l Hx N IH]; simpl; constructor; [|exact IH].
  intros H. apply in_map_iff in H. destruct H as (y & E & Hy).
  apply Inj in E. subst y. exact (Hx Hy).
Qed.

Lemma NoDup_app_inv {A : Type} (a b : list A) :
  NoDup (a ++ b) ->
  NoDup a /\ NoDup b /\ forall x, In x a -> In x b -> False.
Proof.
  induction a as [|y a IH]; simpl; intros N.
  - split; [constructor|]. split; [exact N | intros x []].
  - inversion N as [|? ? N1 N2]; subst. destruct (IH N2) as (I1 & I2 & I3).
    split.
    + constructor; [|exact I1]. intros H. apply N1. apply in_or_app.
      left. exact H.
    + split; [exact I2|]. intros x [->|H] Hb.
      * apply N1. apply in_or_app. right. exact Hb.
      * exact (I3 x H Hb).
Qed.

Lemma NoDup_app_intro {A : Type} (a b : list A) :
  NoDup a -> NoDup b -> (forall x, In x a -> In x b -> False) ->
  NoDup (a ++ b).
Proof.
  induction a as [|y a IH]; simpl; intros Na Nb D; [exact Nb|].
  inversion Na as [|? ? N1 N2]; subst. constructor.
  - intros H. apply in_app_or in H. destruct H as [H|H]; [exact (N1 H)|].
    apply (D y); [left; reflexivity | exact H].
  - apply IH; [exact N2 | exact Nb|]. intros x Hx. apply D. right. exact Hx.
Qed.

Lemma NoDup_insert {A : Type} (a b : list A) (x : A) :
  NoDup (a ++ b) -> ~ In x (a ++ b) -> NoDup (a ++ x :: b).
Proof.
  intros N H. apply NoDup_app_inv in N. destruct N as (Na & Nb & D).
  apply NoDup_app_intro; [exact Na | constructor; [|exact Nb] |].
  - intros I. apply H. apply in_or_app. right. exact I.
  - intros y Ha [<-|Hb]; [apply H; apply in_or_app; left; exact Ha|].
    exact (D y Ha Hb).
Qed.

Lemma acquire_inj (m m' : mode) (l l' : lock) :
  acquire m l = acquire m' l' -> m = m' /\ l = l'.
Proof. destruct m, m'; cbn; intros H; inversion H; auto. Qed.

Lemma owed_acquire (t : tid) (m : mode) (l : lock) (code : list instr) :
  pointOk t (acquire m l :: code) ->
  owed code = (l, m) :: owed (acquire m l :: code)
  /\ ~ In (l, m) (owed (acquire m l :: code)).
Proof. intros (P & _). destruct m; exact P. Qed.

(** A thread that runs an instruction keeps the state consistent: the locks
    held, the locks owed and the queue. *)
Lemma consistent_exec (secondary : bool) (s : state) (t : tid) (ins : instr)
    (code : list instr) (returns : bool) (new : list (tid * list instr))
    (h q : list entry) (n : nat) (ts' : list (tid * list instr)) :
  consistent secondary s ->
  In (t, ins :: code) (threads s) ->
  outcome t s ins returns new h q n ->
  In (t, if returns then code else ins :: code) ts' ->
  (forall u c, u <> t -> In (u, c) (threads s) -> In (u, c) ts') ->
  (forall u c, In (u, c) ts' ->
     (u = t /\ c = if returns then code else ins :: code)
     \/ (u <> t /\ In (u, c) (threads s))
     \/ owed c = []) ->
  (forall u l m, In (u, l, m) h ->
     exists c, In (u, c) ts'
       /\ (In (l, m) (owed c) \/ (m = R /\ exists rest, c = RLock l :: rest)))
  /\ (forall u c l m, In (u, c) ts' -> In (l, m) (owed c) -> In (u, l, m) h)
  /\ (forall u l m, In (u, l, m) q ->
        exists rest, In (u, acquire m l :: rest) ts'
          /\ (m = R -> exists x, In (x, l, W) (h ++ q)))
  /\ NoDup (h ++ q).
Proof.
  intros (A & B & C & D & D' & E & F) Ht O T1 T2 T3.
  destruct (C _ _ Ht) as [pre Hpre].
  pose proof (point_ok secondary t pre (ins :: code) Hpre) as P.
  assert (Hu : forall c, In (t, c) (threads s) -> c = ins :: code)
    by (intros c Hc; apply (unique_code _ _ _ _ A Hc Ht)).
  assert (Hmine : forall l m, In (t, l, m) (held s) ->
            In (l, m) (owed (ins :: code)) \/ (m = R /\ ins = RLock l)).
  { intros l m H. destruct (D _ _ _ H) as (c & Hc & [Ho|(-> & rest & Er)]);
      apply Hu in Hc; subst c; [left; exact Ho|].
    right. inversion Er. auto. }
  assert (Hqueue : forall l m, In (t, l, m) (queue s) -> ins = acquire m l).
  { intros l m H. destruct (E _ _ _ H) as (rest & Hc & _).
    apply Hu in Hc. inversion Hc. reflexivity. }
  assert (Hother : forall u l m, u <> t -> In (u, l, m) (held s) ->
            exists c, In (u, c) ts'
              /\ (In (l, m) (owed c)
                  \/ (m = R /\ exists rest, c = RLock l :: rest))).
  { intros u l m N H. destruct (D _ _ _ H) as (c & Hc & Hd).
    exists c. split; [apply T2; assumption | exact Hd]. }
  assert (Hqother : forall u l m, u <> t -> In (u, l, m) (queue s) ->
            exists rest, In (u, acquire m l :: rest) ts').
  { intros u l m N H. destruct (E _ _ _ H) as (rest & Hc & _).
    exists rest. apply T2; assumption. }
  destruct (NoDup_app_inv _ _ F) as (Fh & Fq & Fd).
  assert (Teq : forall u, {u = t} + {u <> t}).
  { intros u. destruct (tid_eqb u t) eqn:Q.
    - left. apply tid_eqb_eq. exact Q.
    - right. intros ->. rewrite (proj2 (tid_eqb_eq t t) eq_refl) in Q.
      discriminate Q. }
  destruct O as [m l N|m l N Wr|l Q|l Hd|l|l|i|a].
  - (* the lock is taken at once *)
    destruct (owed_acquire _ _ _ _ P) as [P1 P2].
    split; [|split; [|split]].
    + intros u l' m' [H|H].
      * inversion H; subst. exists code. split; [exact T1|].
        left. rewrite P1. left. reflexivity.
      * destruct (Teq u) as [->|Nu]; [|apply Hother; assumption].
        exists code. split; [exact T1|].
        destruct (Hmine _ _ H) as [Ho|(-> & Er)].
        -- left. rewrite P1. right. exact Ho.
        -- exfalso. change (RLock l') with (acquire R l') in Er.
           apply acquire_inj in Er. destruct Er as [-> ->].
           apply N. apply in_or_app. left. exact H.
    + intros u c l' m' Hc Ho.
      destruct (T3 _ _ Hc) as [(-> & ->)|[(Nu & Hc')|Z]].
      * rewrite P1 in Ho. destruct Ho as [Ho|Ho].
        -- inversion Ho; subst. left. reflexivity.
        -- right. apply (D' _ _ _ _ Ht Ho).
      * right. apply (D' _ _ _ _ Hc' Ho).
      * rewrite Z in Ho. destruct Ho.
    + intros u l' m' H. destruct (Teq u) as [->|Nu].
      * exfalso. pose proof (Hqueue _ _ H) as Er.
        apply acquire_inj in Er. destruct Er as [-> ->].
        apply N. apply in_or_app. right. exact H.
      * destruct (Hqother _ _ _ Nu H) as (rest & Hr). exists rest.
        split; [exact Hr|]. intros Em.
        destruct (E _ _ _ H) as (_ & _ & Wx). destruct (Wx Em) as (x & Hx).
        exists x. cbn [app]. right. exact Hx.
    + cbn [app]. constructor; assumption.
  - (* the thread joins the queue *)
    split; [|split; [|split]].
    + intros u l' m' H. destruct (Teq u) as [->|Nu];
        [|apply Hother; assumption].
      destruct (D _ _ _ H) as (c & Hc & Hd). pose proof (Hu _ Hc) as Ec.
      subst c. exists (acquire m l :: code). split; [exact T1 | exact Hd].
    + intros u c l' m' Hc Ho.
      destruct (T3 _ _ Hc) as [(-> & ->)|[(Nu & Hc')|Z]].
      * apply (D' _ _ _ _ Ht Ho).
      * apply (D' _ _ _ _ Hc' Ho).
      * rewrite Z in Ho. destruct Ho.
    + assert (Hw : forall l' x, In (x, l', W) (held s ++ queue s) ->
                In (x, l', W) (held s ++ (t, l, m) :: queue s)).
      { intros l' x Hx. apply in_app_or in Hx. apply in_or_app.
        destruct Hx as [Hx|Hx]; [left | right; right]; exact Hx. }
      intros u l' m' [H|H].
      * inversion H; subst. exists code. split; [exact T1|].
        intros Em. destruct (Wr Em) as (x & Hx). exists x. apply Hw. exact Hx.
      * destruct (E _ _ _ H) as (rest & Hc & Wx).
        assert (Hc' : In (u, acquire m' l' :: rest) ts').
        { destruct (Teq u) as [->|Nu]; [|apply T2; assumption].
          pose proof (Hu _ Hc) as Ec. rewrite Ec. exact T1. }
        exists rest. split; [exact Hc'|]. intros Em.
        destruct (Wx Em) as (x & Hx). exists x. apply Hw. exact Hx.
    + apply NoDup_insert; assumption.
  - (* a writer leaves the queue with the lock *)
    destruct P as ((P1 & P2) & _).
    destruct (release_NoDup t l W (queue s) Fq) as [Rn Rg].
    split; [|split; [|split]].
    + intros u l' m' [H|H].
      * inversion H; subst. exists code. split; [exact T1|].
        left. rewrite P1. left. reflexivity.
      * destruct (Teq u) as [->|Nu]; [|apply Hother; assumption].
        exists code. split; [exact T1|].
        destruct (Hmine _ _ H) as [Ho|(-> & Er)]; [|discriminate Er].
        left. rewrite P1. right. exact Ho.
    + intros u c l' m' Hc Ho.
      destruct (T3 _ _ Hc) as [(-> & ->)|[(Nu & Hc')|Z]].
      * rewrite P1 in Ho. destruct Ho as [Ho|Ho].
        -- inversion Ho; subst. left. reflexivity.
        -- right. apply (D' _ _ _ _ Ht Ho).
      * right. apply (D' _ _ _ _ Hc' Ho).
      * rewrite Z in Ho. destruct Ho.
    + intros u l' m' H. pose proof (release_subset _ _ _ _ _ H) as H0.
      destruct (Teq u) as [->|Nu].
      * exfalso. pose proof (Hqueue _ _ H0) as Er.
        change (Lock_ l) with (acquire W l) in Er.
        apply acquire_inj in Er. destruct Er as [<- <-]. exact (Rg H).
      * destruct (Hqother _ _ _ Nu H0) as (rest & Hr). exists rest.
        split; [exact Hr|]. intros Em.
        destruct (E _ _ _ H0) as (_ & _ & Wx). destruct (Wx Em) as (x & Hx).
        exists x. cbn [app]. apply in_app_or in Hx.
        destruct Hx as [Hx|Hx]; [right; apply in_or_app; left; exact Hx|].
        destruct (Teq x) as [->|Nx].
        -- destruct (lock_eqb l' l) eqn:Ql.
           ++ apply lock_eqb_eq in Ql. subst l'. left. reflexivity.
           ++ right. apply in_or_app. right. apply release_other; [exact Hx|].
              intros Ex. inversion Ex; subst.
              rewrite (proj2 (lock_eqb_eq l l) eq_refl) in Ql. discriminate.
        -- right. apply in_or_app. right. apply release_other; [exact Hx|].
           intros Ex. inversion Ex; subst. apply Nx. reflexivity.
    + cbn [app]. constructor.
      * intros H. apply in_app_or in H. destruct H as [H|H].
        -- exact (Fd _ H Q).
        -- exact (Rg H).
      * apply NoDup_app_intro; [exact Fh | exact Rn|].
        intros x Hx Hr. apply (Fd x Hx). apply (release_subset _ _ _ _ _ Hr).
  - (* a reader returns with the lock handed to it *)
    destruct P as ((P1 & P2) & _).
    split; [|split; [|split]].
    + intros u l' m' H. destruct (Teq u) as [->|Nu];
        [|apply Hother; assumption].
      exists code. split; [exact T1|]. left. rewrite P1.
      destruct (Hmine _ _ H) as [Ho|(-> & Er)].
      * right. exact Ho.
      * inversion Er; subst. left. reflexivity.
    + intros u c l' m' Hc Ho.
      destruct (T3 _ _ Hc) as [(-> & ->)|[(Nu & Hc')|Z]].
      * rewrite P1 in Ho. destruct Ho as [Ho|Ho].
        -- inversion Ho; subst. exact Hd.
        -- apply (D' _ _ _ _ Ht Ho).
      * apply (D' _ _ _ _ Hc' Ho).
      * rewrite Z in Ho. destruct Ho.
    + intros u l' m' H. destruct (Teq u) as [->|Nu].
      * exfalso. pose proof (Hqueue _ _ H) as Er.
        change (RLock l) with (acquire R l) in Er.
        apply acquire_inj in Er. destruct Er as [<- <-]. exact (Fd _ Hd H).
      * destruct (Hqother _ _ _ Nu H) as (rest & Hr). exists rest.
        split; [exact Hr|]. intros Em.
        destruct (E _ _ _ H) as (_ & _ & Wx). exact (Wx Em).
    + exact F.
  - (* Unlock *)
    destruct P as ((P1 & P2) & _).
    destruct (release_NoDup t l W (held s) Fh) as [Rn Rg].
    split; [|split; [|split]].
    + intros u l' m' H. apply in_app_or in H. destruct H as [H|H].
      * pose proof (release_subset _ _ _ _ _ H) as H0.
        destruct (Teq u) as [->|Nu]; [|apply Hother; assumption].
        exists code. split; [exact T1|].
        destruct (Hmine _ _ H0) as [Ho|(-> & Er)]; [|discriminate Er].
        left. rewrite P1 in Ho. destruct Ho as [Ho|Ho]; [|exact Ho].
        inversion Ho; subst. destruct (Rg H).
      * apply filter_In in H. destruct H as [H Hf].
        apply isFor_true in Hf. destruct Hf as [-> ->].
        destruct (E _ _ _ H) as (rest & Hc & _).
        destruct (Teq u) as [->|Nu].
        -- apply Hu in Hc. discriminate Hc.
        -- exists (RLock l :: rest). split; [apply T2; assumption|].
           right. split; [reflexivity|]. exists rest. reflexivity.
    + intros u c l' m' Hc Ho. apply in_or_app. left.
      destruct (T3 _ _ Hc) as [(-> & ->)|[(Nu & Hc')|Z]].
      * apply release_other.
        -- apply (D' _ _ _ _ Ht). rewrite P1. right. exact Ho.
        -- intros Ex. inversion Ex; subst. exact (P2 Ho).
      * apply release_other; [apply (D' _ _ _ _ Hc' Ho)|].
        intros Ex. inversion Ex; subst. apply Nu. reflexivity.
      * rewrite Z in Ho. destruct Ho.
    + intros u l' m' H. apply filter_In in H. destruct H as [H Hf].
      destruct (Teq u) as [->|Nu].
      * exfalso. pose proof (Hqueue _ _ H) as Er. destruct m'; discriminate Er.
      * destruct (Hqother _ _ _ Nu H) as (rest & Hr). exists rest.
        split; [exact Hr|]. intros Em. subst m'.
        destruct (E _ _ _ H) as (_ & _ & Wx).
        destruct (Wx eq_refl) as (x & Hx). exists x.
        assert (Nl : l' <> l).
        { intros ->. apply negb_true_iff in Hf.
          rewrite (proj2 (isFor_true l R u l R) (conj eq_refl eq_refl)) in Hf.
          discriminate Hf. }
        apply in_app_or in Hx. apply in_or_app. destruct Hx as [Hx|Hx].
        -- left. apply in_or_app. left. apply release_other; [exact Hx|].
           intros Ex. inversion Ex; subst. apply Nl. reflexivity.
        -- right. apply filter_In. split; [exact Hx|].
           apply negb_true_iff. unfold isFor.
           apply andb_false_iff. right. reflexivity.
    + rewrite <- app_assoc. apply NoDup_app_intro; [exact Rn| |].
      * apply NoDup_app_intro; [apply NoDup_filter; exact Fq
                               | apply NoDup_filter; exact Fq|].
        intros x H1 H2. apply filter_In in H1, H2.
        destruct H1 as [_ H1], H2 as [_ H2]. rewrite H1 in H2. discriminate.
      * intros x Hx Hq. apply (Fd x (release_subset _ _ _ _ _ Hx)).
        apply in_app_or in Hq.
        destruct Hq as [Hq|Hq]; apply filter_In in Hq; apply Hq.
  - (* RUnlock *)
    destruct P as ((P1 & P2) & _).
    destruct (release_NoDup t l R (held s) Fh) as [Rn Rg].
    split; [|split; [|split]].
    + intros u l' m' H. pose proof (release_subset _ _ _ _ _ H) as H0.
      destruct (Teq u) as [->|Nu]; [|apply Hother; assumption].
      exists code. split; [exact T1|].
      destruct (Hmine _ _ H0) as [Ho|(-> & Er)]; [|discriminate Er].
      left. rewrite P1 in Ho. destruct Ho as [Ho|Ho]; [|exact Ho].
      inversion Ho; subst. destruct (Rg H).
    + intros u c l' m' Hc Ho.
      destruct (T3 _ _ Hc) as [(-> & ->)|[(Nu & Hc')|Z]].
      * apply release_other.
        -- apply (D' _ _ _ _ Ht). rewrite P1. right. exact Ho.
        -- intros Ex. inversion Ex; subst. exact (P2 Ho).
      * apply release_other; [apply (D' _ _ _ _ Hc' Ho)|].
        intros Ex. inversion Ex; subst. apply Nu. reflexivity.
      * rewrite Z in Ho. destruct Ho.
    + intros u l' m' H. destruct (Teq u) as [->|Nu].
      * exfalso. pose proof (Hqueue _ _ H) as Er. destruct m'; discriminate Er.
      * destruct (Hqother _ _ _ Nu H) as (rest & Hr). exists rest.
        split; [exact Hr|]. intros Em.
        destruct (E _ _ _ H) as (_ & _ & Wx). destruct (Wx Em) as (x & Hx).
        exists x. apply in_app_or in Hx. apply in_or_app.
        destruct Hx as [Hx|Hx]; [left | right; exact Hx].
        apply release_other; [exact Hx|]. intros Ex. inversion Ex.
    + apply NoDup_app_intro; [exact Rn | exact Fq|].
      intros x Hx. apply (Fd x (release_subset _ _ _ _ _ Hx)).
  - (* go *)
    destruct P as (P1 & _).
    split; [|split; [|split]].
    + intros u l' m' H. destruct (Teq u) as [->|Nu];
        [|apply Hother; assumption].
      exists code. split; [exact T1|].
      destruct (Hmine _ _ H) as [Ho|(-> & Er)]; [|discriminate Er].
      left. rewrite P1. exact Ho.
    + intros u c l' m' Hc Ho.
      destruct (T3 _ _ Hc) as [(-> & ->)|[(Nu & Hc')|Z]].
      * rewrite P1 in Ho. apply (D' _ _ _ _ Ht Ho).
      * apply (D' _ _ _ _ Hc' Ho).
      * rewrite Z in Ho. destruct Ho.
    + intros u l' m' H. destruct (Teq u) as [->|Nu].
      * exfalso. pose proof (Hqueue _ _ H) as Er. destruct m'; discriminate Er.
      * destruct (Hqother _ _ _ Nu H) as (rest & Hr). exists rest.
        split; [exact Hr|]. intros Em.
        destruct (E _ _ _ H) as (_ & _ & Wx). exact (Wx Em).
    + exact F.
  - (* an action *)
    destruct P as (P1 & _).
    split; [|split; [|split]].
    + intros u l' m' H. destruct (Teq u) as [->|Nu];
        [|apply Hother; assumption].
      exists code. split; [exact T1|].
      destruct (Hmine _ _ H) as [Ho|(-> & Er)]; [|discriminate Er].
      left. rewrite P1. exact Ho.
    + intros u c l' m' Hc Ho.
      destruct (T3 _ _ Hc) as [(-> & ->)|[(Nu & Hc')|Z]].
      * rewrite P1 in Ho. apply (D' _ _ _ _ Ht Ho).
      * apply (D' _ _ _ _ Hc' Ho).
      * rewrite Z in Ho. destruct Ho.
    + intros u l' m' H. destruct (Teq u) as [->|Nu].
      * exfalso. pose proof (Hqueue _ _ H) as Er. destruct m'; discriminate Er.
      * destruct (Hqother _ _ _ Nu H) as (rest & Hr). exists rest.
        split; [exact Hr|]. intros Em.
        destruct (E _ _ _ H) as (_ & _ & Wx). exact (Wx Em).
    + exact F.
Qed.

Lemma consistent_init (secondary : bool) (checks : nat) :
  consistent secondary (init checks).
Proof.
  unfold consistent, init. cbn [threads held queue started].
  split.
  { rewrite map_map. cbn [fst]. apply NoDup_map_injective.
    - intros a b H. inversion H. reflexivity.
    - apply seq_NoDup. }
  split.
  { intros t code H. apply in_map_iff in H. destruct H as (i & E & _).
    inversion E; subst. exact I. }
  split.
  { intros t code H. apply in_map_iff in H. destruct H as (i & E & _).
    inversion E; subst. exists (program secondary (Worker i)).
    apply app_nil_r. }
  split; [intros t l m []|]. split.
  { intros t code l m H. apply in_map_iff in H. destruct H as (i & E & _).
    inversion E; subst. intros []. }
  split; [intros t l m [] | constructor].
Qed.

Lemma owed_program (secondary : bool) (t : tid) :
  owed (program secondary t) = [].
Proof.
  destruct t; [destruct secondary| |]; unfold owed; cbn;
    rewrite ?Nat.eqb_refl; reflexivity.
Qed.

Lemma consistent_step (secondary : bool) (s s' : state) :
  consistent secondary s -> step secondary s s' -> consistent secondary s'.
Proof.
  intros Cs St. pose proof Cs as (A & B & C & D & D' & E & F).
  destruct St as [s ts1 ts2 t ins code returns new h q n Et X|s ts1 ts2 i Et|s].
  - (* a thread runs an instruction *)
    apply exec_outcome in X.
    set (code' := if returns then code else ins :: code).
    assert (Ht : In (t, ins :: code) (threads s)).
    { rewrite Et. apply in_or_app. right. left. reflexivity. }
    destruct (C _ _ Ht) as [pre Hpre].
    assert (Hold : forall x, In x (ts1 ++ ts2) -> In x (threads s)).
    { intros x H. rewrite Et. apply in_app_or in H. apply in_or_app.
      destruct H as [H|H]; [left | right; right]; exact H. }
    assert (Hother : forall u c, In (u, c) (ts1 ++ ts2) -> u <> t).
    { intros u c H ->. rewrite Et, map_fst_mid in A.
      apply NoDup_remove_2 in A. apply A. rewrite <- map_app.
      apply (in_map fst) in H. exact H. }
    assert (Hnew : new = [] /\ n = started s
                   \/ exists i, n = S (started s)
                        /\ new = [(Saver i (started s), saveCheckToLogCode i)]).
    { destruct X; auto. right. eexists. split; reflexivity. }
    assert (Hsplit : forall x,
              In x (ts1 ++ (t, code') :: ts2 ++ new) ->
              x = (t, code') \/ In x (ts1 ++ ts2) \/ In x new).
    { intros x H. apply in_app_or in H. destruct H as [H|[H|H]].
      - right. left. apply in_or_app. left. exact H.
      - left. symmetry. exact H.
      - apply in_app_or in H. destruct H as [H|H].
        + right. left. apply in_or_app. right. exact H.
        + right. right. exact H. }
    assert (Hkeep : forall u c, u <> t -> In (u, c) (threads s) ->
              In (u, c) (ts1 ++ (t, code') :: ts2 ++ new)).
    { intros u c N H. rewrite Et in H. apply in_app_or in H.
      apply in_or_app. destruct H as [H|[H|H]].
      - left. exact H.
      - inversion H; subst. congruence.
      - right. right. apply in_or_app. left. exact H. }
    assert (Hmine : In (t, code') (ts1 ++ (t, code') :: ts2 ++ new)).
    { apply in_or_app. right. left. reflexivity. }
    assert (T3 : forall u c, In (u, c) (ts1 ++ (t, code') :: ts2 ++ new) ->
              (u = t /\ c = code')
              \/ (u <> t /\ In (u, c) (threads s))
              \/ owed c = []).
    { intros u c H. apply Hsplit in H. destruct H as [H|[H|H]].
      - inversion H; subst. left. auto.
      - right. left. split; [apply (Hother _ _ H) | apply Hold; exact H].
      - right. right.
        destruct Hnew as [[-> _]|(i & _ & ->)]; [destruct H|].
        destruct H as [H|[]]. inversion H; subst.
        apply (owed_program secondary (Saver i (started s))). }
    destruct (consistent_exec secondary s t ins code returns new h q n
                (ts1 ++ (t, code') :: ts2 ++ new) Cs Ht X Hmine Hkeep T3)
      as (I1 & I2 & I3 & I4).
    unfold consistent. cbn [threads held queue started].
    split; [|split; [|split; [|split; [|split; [|split]]]]];
      [| | |exact I1|exact I2|exact I3|exact I4].
    + (* distinct threads *)
      replace (ts1 ++ (t, code') :: ts2 ++ new)
        with ((ts1 ++ (t, code') :: ts2) ++ new)
        by (rewrite <- app_assoc; reflexivity).
      rewrite map_app. apply NoDup_app_intro.
      * rewrite map_fst_mid. rewrite Et, map_fst_mid in A. exact A.
      * destruct Hnew as [[-> _]|(i & _ & ->)];
          [constructor | repeat constructor; intros []].
      * intros u Hu Hn.
        destruct Hnew as [[-> _]|(i & _ & ->)]; [destruct Hn|].
        destruct Hn as [<-|[]]. cbn [fst] in Hu.
        rewrite map_fst_mid, <- (map_fst_mid ts1 ts2 t (ins :: code)), <- Et
          in Hu.
        apply in_map_iff in Hu. destruct Hu as ([u c] & Eu & Hu).
        cbn in Eu. subst u. apply B in Hu. lia.
    + (* numbering *)
      assert (Hn : (started s <= n)%nat)
        by (destruct Hnew as [[_ ->]|(i & -> & _)]; lia).
      assert (Hmono : forall u : tid,
                match u with
                | Worker _ => True
                | Saver _ k | Handler k => (k < started s)%nat
                end ->
                match u with
                | Worker _ => True
                | Saver _ k | Handler k => (k < n)%nat
                end)
        by (intros []; auto; lia).
      intros u c H. apply Hsplit in H. destruct H as [H|[H|H]].
      * inversion H; subst. apply Hmono. apply (B _ _ Ht).
      * apply Hold in H. apply Hmono. apply (B _ _ H).
      * destruct Hnew as [[-> _]|(i & -> & ->)]; [destruct H|].
        destruct H as [H|[]]. inversion H; subst. lia.
    + (* points of the programs *)
      intros u c H. apply Hsplit in H. destruct H as [H|[H|H]].
      * inversion H; subst. unfold code'. destruct returns.
        -- exists (pre ++ [ins]). rewrite <- app_assoc. exact Hpre.
        -- exists pre. exact Hpre.
      * apply Hold in H. apply (C _ _ H).
      * destruct Hnew as [[-> _]|(i & _ & ->)]; [destruct H|].
        destruct H as [H|[]]. inversion H; subst. exists []. reflexivity.
  - (* a worker starts a turn *)
    assert (Ht : In (Worker i, []) (threads s)).
    { rewrite Et. apply in_or_app. right. left. reflexivity. }
    assert (Hsplit : forall x,
              In x (ts1 ++ (Worker i, workerCode secondary i) :: ts2) ->
              x = (Worker i, workerCode secondary i)
              \/ (In x (threads s) /\ fst x <> Worker i)).
    { intros x H. apply in_app_or in H.
      rewrite Et, map_fst_mid in A. apply NoDup_remove_2 in A.
      rewrite <- map_app in A.
      destruct H as [H|[H|H]].
      - right. split; [rewrite Et; apply in_or_app; left; exact H|].
        intros Q. apply A. rewrite <- Q. apply in_map. apply in_or_app.
        left. exact H.
      - left. symmetry. exact H.
      - right. split; [rewrite Et; apply in_or_app; right; right; exact H|].
        intros Q. apply A. rewrite <- Q. apply in_map. apply in_or_app.
        right. exact H. }
    assert (Hkeep : forall u c, u <> Worker i -> In (u, c) (threads s) ->
              In (u, c) (ts1 ++ (Worker i, workerCode secondary i) :: ts2)).
    { intros u c N H. rewrite Et in H. apply in_app_or in H.
      apply in_or_app. destruct H as [H|[H|H]].
      - left. exact H.
      - inversion H; subst. congruence.
      - right. right. exact H. }
    assert (Hu : forall c, In (Worker i, c) (threads s) -> c = [])
      by (intros c Hc; apply (unique_code _ _ _ _ A Hc Ht)).
    unfold consistent. cbn [threads held queue started].
    split; [|split; [|split; [|split; [|split; [|split]]]]].
    + rewrite map_fst_mid. rewrite Et, map_fst_mid in A. exact A.
    + intros u c H. apply Hsplit in H. destruct H as [H|[H _]].
      * inversion H; subst. exact I.
      * apply (B _ _ H).
    + intros u c H. apply Hsplit in H. destruct H as [H|[H _]].
      * inversion H; subst. exists []. reflexivity.
      * apply (C _ _ H).
    + intros u l m H. destruct (D _ _ _ H) as (c & Hc & Ho).
      destruct (tid_eqb u (Worker i)) eqn:Q.
      * apply tid_eqb_eq in Q. subst u. apply Hu in Hc. subst c.
        destruct Ho as [[]|(_ & rest & Er)]. discriminate Er.
      * exists c. split; [|exact Ho]. apply Hkeep; [|exact Hc].
        intros ->. rewrite (proj2 (tid_eqb_eq _ _) eq_refl) in Q.
        discriminate Q.
    + intros u c l m H Ho. apply Hsplit in H. destruct H as [H|[H _]].
      * inversion H; subst.
        change (workerCode secondary i) with (program secondary (Worker i))
          in Ho.
        rewrite owed_program in Ho. destruct Ho.
      * apply (D' _ _ _ _ H Ho).
    + intros u l m H. destruct (E _ _ _ H) as (rest & Hc & Wx).
      exists rest. split; [|exact Wx]. apply Hkeep; [|exact Hc].
      intros ->. apply Hu in Hc. discriminate Hc.
    + exact F.
  - (* a request arrives *)
    unfold consistent. cbn [threads held queue started].
    split; [|split; [|split; [|split; [|split; [|split]]]]].
    + rewrite map_app. apply NoDup_app_intro;
        [exact A | repeat constructor; intros []|].
      intros u Hu [<-|[]]. apply in_map_iff in Hu.
      destruct Hu as ([u c] & Eu & Hu). cbn in Eu. subst u.
      apply B in Hu. lia.
    + intros u c H. apply in_app_or in H. destruct H as [H|[H|[]]].
      * apply B in H. destruct u; auto; lia.
      * inversion H; subst. lia.
    + intros u c H. apply in_app_or in H. destruct H as [H|[H|[]]].
      * apply (C _ _ H).
      * inversion H; subst. exists []. reflexivity.
    + intros u l m H. destruct (D _ _ _ H) as (c & Hc & Ho).
      exists c. split; [apply in_or_app; left; exact Hc | exact Ho].
    + intros u c l m H Ho. apply in_app_or in H. destruct H as [H|[H|[]]].
      * apply (D' _ _ _ _ H Ho).
      * inversion H; subst.
        change handlerCode with (program secondary (Handler (started s)))
          in Ho.
        rewrite owed_program in Ho. destruct Ho.
    + intros u l m H. destruct (E _ _ _ H) as (rest & Hc & Wx).
      exists rest. split; [apply in_or_app; left; exact Hc | exact Wx].
    + exact F.
Qed.

Lemma consistent_reachable (secondary : bool) (checks : nat) (s : state) :
  reachable secondary (init checks) s -> consistent secondary s.
Proof.
  induction 1 as [|s s' R IH St].
  - apply consistent_init.
  - apply (consistent_step secondary s s' IH St).
Qed.

Lemma nth_error_split_at {A : Type} (l : list A) (k : nat) (x : A) :
  nth_error l k = Some x -> l = firstn k l ++ x :: skipn (S k) l.
Proof.
  revert k. induction l as [|a l IH]; intros [|k] H; simpl in *;
    try discriminate.
  - inversion H. reflexivity.
  - f_equal. apply IH. exact H.
Qed.

(** What the scheduler does is a step of the interleaving. *)
Lemma fire_step (secondary : bool) (s s' : state) (k : nat) :
  fire secondary s k = Some s' -> step secondary s s'.
Proof.
  unfold fire.
  destruct (nth_error (threads s) k) as [[t code]|] eqn:E;
    [|discriminate].
  apply nth_error_split_at in E.
  destruct code as [|ins code].
  - destruct t as [i|i n|n]; try discriminate.
    intros H. inversion H; subst; clear H.
    apply step_loop. exact E.
  - assert (G : match exec t ins s with
                | Some (returns, new, h, q, n) =>
                    Some (mkState
                            (firstn k (threads s)
                               ++ (t, if returns then code else ins :: code)
                               :: skipn (S k) (threads s) ++ new) h q n)
                | None => None
                end = Some s' -> step secondary s s').
    { destruct (exec t ins s) as [[[[[returns new] h] q] n]|] eqn:X;
        [|discriminate].
      intros H. inversion H; subst; clear H.
      eapply step_exec; [exact E | exact X]. }
    destruct t; exact G.
Qed.

Lemma runSchedule_reachable (secondary : bool) (ks : list nat)
    (s0 s s' : state) :
  reachable secondary s0 s ->
  runSchedule secondary s ks = Some s' ->
  reachable secondary s0 s'.
Proof.
  revert s. induction ks as [|k ks IH]; intros s R H; simpl in H.
  - inversion H; subst. exact R.
  - destruct (fire secondary s k) as [s1|] eqn:F; [|discriminate].
    apply (IH s1); [|exact H].
    eapply reach_step; [exact R | apply (fire_step _ _ _ _ F)].
Qed.

(** In a consistent state the next instruction of a thread names a lock of
    the thread, and so do the locks that the thread holds or queues for. *)
Lemma next_point (secondary : bool) (s : state) (t : tid)
    (code : list instr) :
  consistent secondary s -> In (t, code) (threads s) -> pointOk t code.
Proof.
  intros (_ & _ & C & _) H. destruct (C _ _ H) as [pre Hpre].
  apply (point_ok secondary t pre code Hpre).
Qed.

Lemma held_allowed (secondary : bool) (s : state) (t : tid) (l : lock)
    (m : mode) :
  consistent secondary s -> In (t, l, m) (held s) -> allowed t l m.
Proof.
  intros Cs H. pose proof Cs as (_ & _ & _ & D & _).
  destruct (D _ _ _ H) as (c & Hc & [Ho|(-> & rest & ->)]);
    pose proof (next_point _ _ _ _ Cs Hc) as (_ & P2 & _ & P4 & _).
  - apply P4. exact Ho.
  - exact P2.
Qed.

Lemma queue_allowed (secondary : bool) (s : state) (t : tid) (l : lock)
    (m : mode) :
  consistent secondary s -> In (t, l, m) (queue s) -> allowed t l m.
Proof.
  intros Cs H. pose proof Cs as (_ & _ & _ & _ & _ & E & _).
  destruct (E _ _ _ H) as (rest & Hc & _).
  pose proof (next_point _ _ _ _ Cs Hc) as (_ & P2 & _).
  destruct m; exact P2.
Qed.

Lemma holds_allowed (secondary : bool) (s : state) (t : tid) (l : lock) :
  consistent secondary s -> holds s t l -> exists m, allowed t l m.
Proof.
  intros Cs [(m & H)|H].
  - exists m. apply (held_allowed _ _ _ _ _ Cs H).
  - exists W. apply (queue_allowed _ _ _ _ _ Cs H).
Qed.

(** C9, amended. In every reachable state: a worker that waits on a lock
    held by the worker of another check waits on the coarse lock
    [Config.mu]; the history lock of a check is held only by the worker of
    that check and by the goroutines of [saveCheckToLog] started for it;
    so a worker waits on the coarse lock or on the history lock of its own
    check, held by a goroutine of [saveCheckToLog] of that check, and never
    on the history lock of another check.  [updateStatus] holds the coarse
    lock for its whole body: a worker holds it when it sets the status
    fields and when it appends to the history, which it does under the
    history lock too; it holds it at every instruction other than the
    lookups, the wait for the ticker and the call of [c.mu.Lock()] itself;
    and it holds it whenever it holds or waits for its history lock. *)
Theorem workers_meet_only_at_coarse_lock
    (secondary : bool) (checks : nat) (s : state) :
  reachable secondary (init checks) s ->
  (forall i j l,
      i <> j -> waitsOn s (Worker i) (Worker j) l -> l = Mu)
  /\ (forall t i,
        holds s t (HistoryLock i) ->
        t = Worker i \/ exists k, t = Saver i k)
  /\ (forall i t l,
        waitsOn s (Worker i) t l ->
        l = Mu \/ (l = HistoryLock i /\ exists k, t = Saver i k))
  /\ (forall i a code,
        In (Worker i, Do a :: code) (threads s) ->
        (a = SetStatus \/ a = AppendHistory ->
         In (Worker i, Mu, W) (held s))
        /\ (a = AppendHistory -> In (Worker i, HistoryLock i, W) (held s)))
  /\ (forall i ins code,
        In (Worker i, ins :: code) (threads s) ->
        ins <> Do Lookup -> ins <> Do Wait -> ins <> Lock_ Mu ->
        In (Worker i, Mu, W) (held s))
  /\ (forall i,
        holds s (Worker i) (HistoryLock i) -> In (Worker i, Mu, W) (held s)).
Proof.
  intros Rs. pose proof (consistent_reachable _ _ _ Rs) as Cs.
  pose proof Cs as (A & _ & _ & D & D' & E & _).
  assert (H2 : forall t i,
             holds s t (HistoryLock i) ->
             t = Worker i \/ exists k, t = Saver i k).
  { intros t i H. destruct (holds_allowed _ _ _ _ Cs H) as (m & Al).
    destruct t as [j|j k|k]; cbn in Al.
    - destruct Al as [[Al|Al] _]; [discriminate|]. inversion Al. auto.
    - destruct Al as [Al _]. inversion Al. right. exists k. reflexivity.
    - destruct Al as [Al _]. discriminate Al. }
  assert (H3 : forall i t l,
             waitsOn s (Worker i) t l ->
             l = Mu \/ (l = HistoryLock i /\ exists k, t = Saver i k)).
  { intros i t l (N & (ins & code & Hc & Hi & _) & Hh).
    pose proof (next_point _ _ _ _ Cs Hc) as (_ & P2 & _).
    assert (Al : l = Mu \/ l = HistoryLock i)
      by (destruct Hi as [Hi|Hi]; subst ins; cbn in P2; apply P2).
    destruct Al as [Al|Al]; subst l; [left; reflexivity|]. right.
    split; [reflexivity|].
    destruct (H2 _ _ Hh) as [K|K]; [destruct (N K) | exact K]. }
  assert (H5 : forall i ins code,
             In (Worker i, ins :: code) (threads s) ->
             ins <> Do Lookup -> ins <> Do Wait -> ins <> Lock_ Mu ->
             In (Worker i, Mu, W) (held s)).
  { intros i ins code Hc N1 N2 N3.
    pose proof (next_point _ _ _ _ Cs Hc) as (_ & _ & _ & _ & _ & P6 & _).
    cbn in P6. apply (D' _ _ _ _ Hc). apply P6; assumption. }
  split; [|split; [exact H2 | split; [exact H3 | split; [|split; [exact H5|]]]]].
  - intros i j l N Hw. destruct (H3 _ _ _ Hw) as [E1|(_ & k & E1)];
      [exact E1 | discriminate E1].
  - intros i a code Hc.
    pose proof (next_point _ _ _ _ Cs Hc) as (_ & _ & _ & _ & P5 & _).
    cbn in P5. destruct P5 as [P5 P5']. split.
    + intros Ha. apply (D' _ _ _ _ Hc). apply P5. exact Ha.
    + intros Ha. apply (D' _ _ _ _ Hc). apply P5'. exact Ha.
  - intros i [(m & H)|H].
    + destruct (D _ _ _ H) as (c & Hc & [Ho|(Em & rest & Ec)]).
      * pose proof (next_point _ _ _ _ Cs Hc) as (_ & _ & _ & _ & _ & _ & P7).
        apply (D' _ _ _ _ Hc). apply (P7 i m eq_refl Ho).
      * subst c. pose proof (next_point _ _ _ _ Cs Hc) as (_ & P2 & _).
        cbn in P2. destruct P2 as [_ P2]. discriminate P2.
    + destruct (E _ _ _ H) as (rest & Hc & _).
      apply (H5 i _ rest Hc); cbn; discriminate.
Qed.

(** ** The locks: no deadlock *)

Lemma exec_not_acquire (t : tid) (ins : instr) (s : state) :
  isAcquire ins = false -> exec t ins s <> None.
Proof. destruct ins; cbn; try discriminate. Qed.

(** A thread that holds a lock for reading can run: it is past [RLock] and
    takes no other lock, or [RLock] is about to return. *)
Lemma reader_runs (secondary : bool) (s : state) (u : tid) (l : lock) :
  consistent secondary s -> In (u, l, R) (held s) ->
  canRun s u /\ ~ blocked s u.
Proof.
  intros Cs H. pose proof Cs as (A & _ & _ & D & _).
  destruct (D _ _ _ H) as (c & Hc & Hd).
  assert (X : exists ins rest, c = ins :: rest /\ exec u ins s <> None).
  { destruct Hd as [Ho|(_ & rest & ->)].
    - pose proof (next_point _ _ _ _ Cs Hc) as (_ & _ & P3 & _).
      assert (N : owed c <> []) by (intros Z; rewrite Z in Ho; destruct Ho).
      specialize (P3 N). destruct c as [|ins rest]; [destruct P3|].
      exists ins, rest. split; [reflexivity|].
      destruct P3 as [Q|(j & _ & _ & Z)];
        [apply exec_not_acquire; exact Q|].
      rewrite Z in Ho. destruct Ho as [Ho|[]]. discriminate Ho.
    - exists (RLock l), rest. split; [reflexivity|]. cbn [exec].
      rewrite (proj2 (existsb_isOf u l R (held s)) H). discriminate. }
  destruct X as (ins & rest & -> & X). split.
  - exists ins, rest. split; assumption.
  - intros (ins' & rest' & Hc' & X').
    pose proof (unique_code _ _ _ _ A Hc Hc') as Ec. inversion Ec; subst.
    exact (X X').
Qed.

(** The worker that is about to take its history lock holds the coarse
    lock; it can run, or a reader of the history can. *)
Lemma worker_at_history (secondary : bool) (s : state) (i : nat)
    (rest : list instr) :
  consistent secondary s ->
  In (Worker i, Lock_ (HistoryLock i) :: rest) (threads s) ->
  exists v, canRun s v /\ holdsSome s v.
Proof.
  intros Cs Hc. pose proof Cs as (A & _ & _ & D & D' & E & F).
  pose proof (next_point _ _ _ _ Cs Hc) as ((_ & P1) & _ & _ & _ & P5 & _).
  cbn in P5.
  assert (Hmu : holdsSome s (Worker i)).
  { exists Mu. left. exists W. apply (D' _ _ _ _ Hc P5). }
  destruct (existsb (isFor (HistoryLock i) R) (held s)) eqn:Rd.
  { apply existsb_isFor in Rd. destruct Rd as (v & Hv).
    exists v. split; [apply (reader_runs _ _ _ _ Cs Hv)|].
    exists (HistoryLock i). left. exists R. exact Hv. }
  exists (Worker i). split; [|exact Hmu].
  exists (Lock_ (HistoryLock i)), rest. split; [exact Hc|].
  cbn [exec]. rewrite Rd.
  destruct (existsb (isOf (Worker i) (HistoryLock i) W) (queue s)) eqn:Q;
    [discriminate|].
  destruct (existsb (isFor (HistoryLock i) W) (held s ++ queue s)) eqn:Wr;
    [|discriminate].
  exfalso. apply existsb_isFor in Wr. destruct Wr as (x & Hx).
  apply in_app_or in Hx. destruct Hx as [Hx|Hx].
  - pose proof (held_allowed _ _ _ _ _ Cs Hx) as Al.
    destruct x as [j|j k|k]; cbn in Al.
    + destruct Al as [[Al|Al] _]; [discriminate|]. inversion Al; subst j.
      destruct (D _ _ _ Hx) as (c & Hc' & [Ho|(Em & _)]); [|discriminate Em].
      rewrite (unique_code _ _ _ _ A Hc' Hc) in Ho. exact (P1 Ho).
    + destruct Al as [_ Al]. discriminate Al.
    + destruct Al as [Al _]. discriminate Al.
  - pose proof (queue_allowed _ _ _ _ _ Cs Hx) as Al.
    destruct x as [j|j k|k]; cbn in Al.
    + destruct Al as [[Al|Al] _]; [discriminate|]. inversion Al; subst j.
      apply existsb_isOf_false in Q. exact (Q Hx).
    + destruct Al as [_ Al]. discriminate Al.
    + destruct Al as [Al _]. discriminate Al.
Qed.

(** When a lock has a writer, holding it or waiting for the readers to
    leave, some thread that holds a lock can run. *)
Lemma writer_runs (secondary : bool) (s : state) (u : tid) (l : lock) :
  consistent secondary s -> In (u, l, W) (held s ++ queue s) ->
  exists v, canRun s v /\ holdsSome s v.
Proof.
  intros Cs H. pose proof Cs as (A & _ & _ & D & D' & E & F).
  apply in_app_or in H. destruct H as [H|H].
  - destruct (D _ _ _ H) as (c & Hc & [Ho|(Em & _)]); [|discriminate Em].
    pose proof (next_point _ _ _ _ Cs Hc) as (_ & _ & P3 & _).
    assert (N : owed c <> []) by (intros Z; rewrite Z in Ho; destruct Ho).
    specialize (P3 N). destruct c as [|ins rest]; [destruct P3|].
    destruct P3 as [Q|(j & Eu & Ei & _)].
    + exists u. split.
      * exists ins, rest. split; [exact Hc | apply exec_not_acquire; exact Q].
      * exists l. left. exists W. exact H.
    + subst u ins. apply (worker_at_history _ _ _ _ Cs Hc).
  - destruct (E _ _ _ H) as (rest & Hc & _). cbn [acquire] in Hc.
    destruct (existsb (isFor l R) (held s)) eqn:Rd.
    + apply existsb_isFor in Rd. destruct Rd as (v & Hv).
      exists v. split; [apply (reader_runs _ _ _ _ Cs Hv)|].
      exists l. left. exists R. exact Hv.
    + exists u. split.
      * exists (Lock_ l), rest. split; [exact Hc|]. cbn [exec].
        rewrite (proj2 (existsb_isOf u l W (queue s)) H), Rd. discriminate.
      * exists l. right. exact H.
Qed.

(** In every reachable state, when a thread is blocked, some thread that
    holds a lock, or for which a lock is closed to new readers, can run its
    next instruction: the threads never all wait for each other.  A thread
    that holds a history lock is never blocked.  A thread is blocked only
    inside [Lock] or [RLock], behind a thread that holds the lock. *)
Theorem no_deadlock (secondary : bool) (checks : nat) (s : state) :
  reachable secondary (init checks) s ->
  (forall t, blocked s t -> exists u, canRun s u /\ holdsSome s u)
  /\ (forall t i m, In (t, HistoryLock i, m) (held s) -> ~ blocked s t)
  /\ (forall t, blocked s t -> exists u l, u <> t /\ waitsOn s t u l).
Proof.
  intros Rs. pose proof (consistent_reachable _ _ _ Rs) as Cs.
  pose proof Cs as (A & _ & _ & D & D' & E & F).
  assert (Hb : forall t ins code,
             In (t, ins :: code) (threads s) -> exec t ins s = None ->
             exists l u,
               (ins = Lock_ l \/ ins = RLock l)
               /\ u <> t
               /\ holds s u l
               /\ ((exists m, In (u, l, m) (held s) /\ (m = R \/ ins = Lock_ l))
                   \/ In (u, l, W) (held s ++ queue s))).
  { intros t ins code Hc X. destruct ins as [l|l|l|l|i|a]; cbn [exec] in X;
      try discriminate X.
    - destruct (existsb (isOf t l W) (queue s)) eqn:Q.
      + destruct (existsb (isFor l R) (held s)) eqn:Rd; [|discriminate X].
        apply existsb_isFor in Rd. destruct Rd as (u & Hu).
        exists l, u. split; [left; reflexivity|]. split.
        * intros ->. pose proof (held_allowed _ _ _ _ _ Cs Hu) as Al.
          pose proof (next_point _ _ _ _ Cs Hc) as (_ & P2 & _).
          cbn in P2. destruct t; cbn in Al, P2;
            destruct Al as [_ Al]; destruct P2 as [_ P2]; congruence.
        * split; [left; exists R; exact Hu|].
          left. exists R. split; [exact Hu | left; reflexivity].
      + destruct (existsb (isFor l W) (held s ++ queue s)) eqn:Wr.
        * apply existsb_isFor in Wr. destruct Wr as (u & Hu).
          exists l, u. split; [left; reflexivity|]. split.
          -- intros ->. apply in_app_or in Hu. destruct Hu as [Hu|Hu].
             ++ destruct (D _ _ _ Hu) as (c & Hc' & [Ho|(Em & _)]);
                  [|discriminate Em].
                rewrite (unique_code _ _ _ _ A Hc' Hc) in Ho.
                pose proof (next_point _ _ _ _ Cs Hc) as ((_ & P1) & _).
                exact (P1 Ho).
             ++ apply existsb_isOf_false in Q. exact (Q Hu).
          -- split; [|right; exact Hu].
             apply in_app_or in Hu. destruct Hu as [Hu|Hu];
               [left; exists W; exact Hu | right; exact Hu].
        * destruct (existsb (isFor l R) (held s)); discriminate X.
    - destruct (existsb (isOf t l R) (held s)) eqn:Hd; [discriminate X|].
      destruct (existsb (isOf t l R) (queue s)) eqn:Q.
      + apply existsb_isOf in Q. destruct (E _ _ _ Q) as (_ & _ & Wx).
        destruct (Wx eq_refl) as (u & Hu).
        exists l, u. split; [right; reflexivity|]. split.
        * intros ->. assert (Al : allowed t l W).
          { apply in_app_or in Hu. destruct Hu as [Hu|Hu];
              [apply (held_allowed _ _ _ _ _ Cs Hu)
              | apply (queue_allowed _ _ _ _ _ Cs Hu)]. }
          pose proof (queue_allowed _ _ _ _ _ Cs Q) as Al'.
          destruct t; cbn in Al, Al'; destruct Al as [_ Al];
            destruct Al' as [_ Al']; congruence.
        * split; [|right; exact Hu].
          apply in_app_or in Hu. destruct Hu as [Hu|Hu];
            [left; exists W; exact Hu | right; exact Hu].
      + destruct (existsb (isFor l W) (held s ++ queue s)); discriminate X. }
  split; [|split].
  - intros t (ins & code & Hc & X).
    destruct (Hb _ _ _ Hc X) as (l & u & _ & _ & _ & [(m & Hu & Hm)|Hu]).
    + destruct m.
      * apply (writer_runs _ _ u l Cs). apply in_or_app. left. exact Hu.
      * exists u. split; [apply (reader_runs _ _ _ _ Cs Hu)|].
        exists l. left. exists R. exact Hu.
    + apply (writer_runs _ _ u l Cs Hu).
  - intros t i m H. destruct m.
    + intros (ins & code & Hc & X).
      destruct (D _ _ _ H) as (c & Hc' & [Ho|(Em & _)]); [|discriminate Em].
      rewrite (unique_code _ _ _ _ A Hc' Hc) in Ho.
      pose proof (next_point _ _ _ _ Cs Hc) as (_ & _ & P3 & _).
      assert (N : owed (ins :: code) <> [])
        by (intros Z; rewrite Z in Ho; destruct Ho).
      destruct (P3 N) as [Q|(j & _ & _ & Z)].
      * exact (exec_not_acquire _ _ _ Q X).
      * rewrite Z in Ho. destruct Ho as [Ho|[]]. discriminate Ho.
    + apply (reader_runs _ _ _ _ Cs H).
  - intros t (ins & code & Hc & X).
    destruct (Hb _ _ _ Hc X) as (l & u & Hi & Nu & Hh & _).
    exists u, l. split; [exact Nu|]. split; [exact Nu|]. split; [|exact Hh].
    exists ins, code. auto.
Qed.

(** C9 as stated fails: with two checks, the worker of check 1 is blocked
    in [c.mu.Lock()], in [updateStatus], while the worker of check 0 holds
    [c.mu]; and the worker of check 0 holds [c.mu] while it appends to the
    history. *)
Lemma worker_waits_on_other_worker :
  reachable false (init 2) exLockState
  /\ waitsOn exLockState (Worker 1) (Worker 0) Mu
  /\ (exists code,
        In (Worker 0, Do AppendHistory :: code) (threads exLockState))
  /\ In (Worker 0, Mu, W) (held exLockState).
Proof.
  split.
  { apply (runSchedule_reachable false exSchedule (init 2) (init 2));
      [apply reach_init | reflexivity]. }
  split.
  { unfold waitsOn. split; [discriminate|]. split.
    - eexists. eexists. split; [right; left; reflexivity|].
      split; [left; reflexivity | reflexivity].
    - left. exists W. right. left. reflexivity. }
  split.
  { eexists. left. reflexivity. }
  right. left. reflexivity.
Qed.

Lemma workers_meet_only_at_coarse_lock_witness :
  (forall l, waitsOn exLockState (Worker 1) (Worker 0) l -> l = Mu)
  /\ In (Worker 0, Mu, W) (held exLockState)
  /\ In (Worker 0, HistoryLock 0, W) (held exLockState).
Proof.
  assert (Rs : reachable false (init 2) exLockState).
  { apply (runSchedule_reachable false exSchedule (init 2) (init 2));
      [apply reach_init | reflexivity]. }
  destruct (workers_meet_only_at_coarse_lock false 2 exLockState Rs)
    as (H1 & _ & _ & H4 & _).
  split.
  - intros l. apply H1. discriminate.
  - destruct (H4 0%nat AppendHistory
                [Unlock_ (HistoryLock 0); Go 0; Unlock_ Mu; Do Wait])
      as [Ha Hb].
    + left. reflexivity.
    + split; [apply Ha; right; reflexivity | apply Hb; reflexivity].
Defined.

Lemma no_deadlock_witness :
  blocked exQueueState (Saver 0 1)
  /\ blocked exQueueState (Worker 0)
  /\ (exists u, canRun exQueueState u /\ holdsSome exQueueState u)
  /\ ~ blocked exQueueState (Saver 0 0).
Proof.
  assert (Rs : reachable true (init 1) exQueueState).
  { apply (runSchedule_reachable true exQueueSchedule (init 1) (init 1));
      [apply reach_init | reflexivity]. }
  destruct (no_deadlock true 1 exQueueState Rs) as (H1 & H2 & _).
  assert (B : blocked exQueueState (Saver 0 1)).
  { eexists. eexists. split; [right; right; left; reflexivity | reflexivity]. }
  split; [exact B|]. split.
  { eexists. eexists. split; [left; reflexivity | reflexivity]. }
  split; [apply (H1 _ B)|].
  apply (H2 (Saver 0 0) 0%nat R). left. reflexivity.
Defined.
